(** * Watermark tool: the compositor [addWatermark] and the decoder [loadImage]

    A shallow embedding of [src/utils/watermark.ts] (the second document of
    [src/src/components/ImageViewer.tsx], lines 408-629).

    Modelling choices.
    - A JavaScript [number] is a value of [num]: an exact rational, or one of
      the IEEE special values [+Infinity], [-Infinity], [NaN].  Division by
      zero, [Infinity * 0], comparisons with [NaN] and the like follow
      ECMAScript; binary64 rounding and the sign of zero are not modelled
      (zero is [+0]).
    - What the browser supplies ([Math.PI], [Math.cos], [Math.sin],
      [measureText], [toDataURL], which strings are colours, which calls
      throw) is a record of functions, the [Browser];
      [heic2any], the file reader and the image decoder are parameters of
      [loadImage].  Every theorem holds for every browser, and the examples
      run on small concrete ones.
    - The 2D context is a record: the surface size, the current drawing state,
      the save/restore stack and the log of drawing operations.  Its setters
      ignore what a canvas ignores: a font that does not parse, a string that
      is no colour, an alpha outside [0, 1].
    - Loops carry fuel, each loop the fuel of the call; [None] means that the
      loop is still running when the fuel is spent.  A loop counter is an
      integer; [i++] moves it as long as it is below 2^53 and leaves it there,
      as the addition of binary64 does.
    - A call of the browser that throws inside the executor of the promise
      rejects the promise. *)

From Stdlib Require Import ZArith QArith Qround Qabs Qreduction Lia Lqa.
From Stdlib Require Import String Ascii List Bool.
Import ListNotations.

#[local] Arguments Qred : simpl never.

Set Implicit Arguments.

(** ** JavaScript numbers *)

Module JSNumber.

Inductive num : Type :=
| Fin (q : Q)
| PInf
| NInf
| NaN.

Definition ofZ (z : Z) : num := Fin (inject_Z z).
Definition ofN (n : N) : num := ofZ (Z.of_N n).

Definition Qltb (a b : Q) : bool := negb (Qle_bool b a).
Definition Qis0 (a : Q) : bool := Qeq_bool a 0.

(** [a + b] *)
Definition nadd (a b : num) : num :=
  match a, b with
  | NaN, _ | _, NaN => NaN
  | PInf, NInf | NInf, PInf => NaN
  | PInf, _ | _, PInf => PInf
  | NInf, _ | _, NInf => NInf
  | Fin x, Fin y => Fin (Qred (x + y))
  end.

(** unary [-a] *)
Definition nneg (a : num) : num :=
  match a with
  | Fin x => Fin (Qred (- x))
  | PInf => NInf
  | NInf => PInf
  | NaN => NaN
  end.

(** [a - b] *)
Definition nsub (a b : num) : num :=
  match a, b with
  | NaN, _ | _, NaN => NaN
  | PInf, PInf | NInf, NInf => NaN
  | PInf, _ | _, NInf => PInf
  | NInf, _ | _, PInf => NInf
  | Fin x, Fin y => Fin (Qred (x - y))
  end.

(** the sign of an infinity times (or divided by) a finite, non-zero [x] *)
Definition signed_inf (positive : bool) (x : Q) : num :=
  if Qis0 x then NaN
  else if Bool.eqb positive (Qltb 0 x) then PInf else NInf.

(** [a * b] *)
Definition nmul (a b : num) : num :=
  match a, b with
  | NaN, _ | _, NaN => NaN
  | PInf, PInf | NInf, NInf => PInf
  | PInf, NInf | NInf, PInf => NInf
  | PInf, Fin y => signed_inf true y
  | NInf, Fin y => signed_inf false y
  | Fin x, PInf => signed_inf true x
  | Fin x, NInf => signed_inf false x
  | Fin x, Fin y => Fin (Qred (x * y))
  end.

(** [a / b]: a finite non-zero number over zero is an infinity, [0 / 0] is
    [NaN], a finite number over an infinity is zero. *)
Definition ndiv (a b : num) : num :=
  match a, b with
  | NaN, _ | _, NaN => NaN
  | PInf, PInf | PInf, NInf | NInf, PInf | NInf, NInf => NaN
  | PInf, Fin y => if Qltb y 0 then NInf else PInf
  | NInf, Fin y => if Qltb y 0 then PInf else NInf
  | Fin _, PInf | Fin _, NInf => Fin 0
  | Fin x, Fin y =>
      if Qis0 y then
        (if Qis0 x then NaN else if Qltb 0 x then PInf else NInf)
      else Fin (Qred (x / y))
  end.

(** [Math.abs] *)
Definition nabs (a : num) : num :=
  match a with
  | Fin x => Fin (Qred (Qabs x))
  | PInf | NInf => PInf
  | NaN => NaN
  end.

(** [Math.ceil] *)
Definition nceil (a : num) : num :=
  match a with
  | Fin x => ofZ (Qceiling x)
  | other => other
  end.

(** [a < b]; every comparison with [NaN] is false *)
Definition nlt (a b : num) : bool :=
  match a, b with
  | NaN, _ | _, NaN => false
  | _, NInf => false
  | PInf, _ => false
  | NInf, _ => true
  | Fin _, PInf => true
  | Fin x, Fin y => Qltb x y
  end.

(** [a <= b] *)
Definition nle (a b : num) : bool :=
  match a, b with
  | NaN, _ | _, NaN => false
  | NInf, _ => true
  | _, PInf => true
  | PInf, _ => false
  | Fin _, NInf => false
  | Fin x, Fin y => Qle_bool x y
  end.

(** the operand of [||] is falsy: [0] or [NaN] *)
Definition nfalsy (a : num) : bool :=
  match a with
  | Fin x => Qis0 x
  | NaN => true
  | _ => false
  end.

Definition is_finite (a : num) : Prop := exists q, a = Fin q.

End JSNumber.
Export JSNumber.

Declare Scope num_scope.
Delimit Scope num_scope with num.
Bind Scope num_scope with num.
Infix "+" := nadd : num_scope.
Infix "-" := nsub : num_scope.
Infix "*" := nmul : num_scope.
Infix "/" := ndiv : num_scope.
Notation "- x" := (nneg x) : num_scope.

Local Open Scope num_scope.

(** ** Data model *)

(** [HTMLImageElement]: the decoded source image. *)
Record HTMLImageElement : Type := {
  img_width : N;
  img_height : N;
  img_src : string
}.

Inductive Position : Type :=
| center | top_left | top_right | bottom_left | bottom_right.

Inductive Mode : Type := single | tile.

(** [WatermarkOptions] *)
Record WatermarkOptions : Type := {
  text : string;
  fontSize : num;
  color : string;
  opacity : num;
  position : Position;
  rotation : num;
  mode : Mode;
  spacing : num;
  offsetX : num;
  offsetY : num
}.

Inductive ImageFormat : Type := png | jpeg | webp.

(** [ExportOptions]; [format] absent is not expressible in the interface,
    [quality] is optional. *)
Record ExportOptions : Type := {
  format : ImageFormat;
  quality : option num
}.

(** ** The 2D context *)

Record Font : Type := { font_px : num; font_family : string }.

Inductive Transform : Type :=
| Translate (x y : num)
| Rotate (a : num).

(** The drawing state that [save] pushes and [restore] pops.  [ctm] is the
    current transformation, most recent call first. *)
Record GState : Type := {
  ctm : list Transform;
  font : Font;
  fillStyle : string;
  globalAlpha : num
}.

Inductive DrawOp : Type :=
| DrawImage (src : HTMLImageElement) (dx dy : num)
| FillText (txt : string) (x y : num) (gs : GState).

(** A canvas with its context; [drawn] is the log of drawing operations, most
    recent first. *)
Record Canvas : Type := {
  width : N;
  height : N;
  gstate : GState;
  saved : list GState;
  drawn : list DrawOp
}.

Definition default_gstate : GState :=
  {| ctm := [];
     font := {| font_px := Fin 10; font_family := "sans-serif" |};
     fillStyle := "#000000";
     globalAlpha := Fin 1 |}.

(** The page the call runs in: the canvases that exist already, with
    whatever was drawn on them. *)
Record Document : Type := { canvases : list Canvas }.

(** [document.createElement('canvas')]: a detached canvas, 300 x 150, in the
    default state; the document is left as it is. *)
Definition createElement_canvas (document : Document) : Canvas :=
  {| width := 300; height := 150; gstate := default_gstate;
     saved := []; drawn := [] |}.

(** assigning [canvas.width] or [canvas.height] clears the surface and resets
    the context *)
Definition set_width (w : N) (c : Canvas) : Canvas :=
  {| width := w; height := height c; gstate := default_gstate;
     saved := []; drawn := [] |}.

Definition set_height (h : N) (c : Canvas) : Canvas :=
  {| width := width c; height := h; gstate := default_gstate;
     saved := []; drawn := [] |}.

Definition with_gstate (f : GState -> GState) (c : Canvas) : Canvas :=
  {| width := width c; height := height c; gstate := f (gstate c);
     saved := saved c; drawn := drawn c |}.

(** the font string [<px>px <family>] parses: the size is a finite number
    that is not negative *)
Definition font_parses (f : Font) : bool :=
  match font_px f with
  | Fin q => Qle_bool 0 q
  | _ => false
  end.

(** an alpha the context takes: a finite number from 0 to 1 *)
Definition alpha_in_range (a : num) : bool :=
  match a with
  | Fin q => Qle_bool 0 q && Qle_bool q 1
  | _ => false
  end.

(** assigning [ctx.font]; a string that does not parse is ignored *)
Definition set_font (f : Font) (c : Canvas) : Canvas :=
  if font_parses f then
    with_gstate (fun g => {| ctm := ctm g; font := f;
                             fillStyle := fillStyle g;
                             globalAlpha := globalAlpha g |}) c
  else c.

(** assigning [ctx.fillStyle] a string; [parses] says whether the browser
    parses it as a colour, and a string that is no colour is ignored; the
    state holds the colour as the string that was assigned *)
Definition set_fillStyle (parses : string -> bool) (s : string) (c : Canvas) : Canvas :=
  if parses s then
    with_gstate (fun g => {| ctm := ctm g; font := font g;
                             fillStyle := s;
                             globalAlpha := globalAlpha g |}) c
  else c.

(** assigning [ctx.globalAlpha]; a value outside the range is ignored *)
Definition set_globalAlpha (a : num) (c : Canvas) : Canvas :=
  if alpha_in_range a then
    with_gstate (fun g => {| ctm := ctm g; font := font g;
                             fillStyle := fillStyle g;
                             globalAlpha := a |}) c
  else c.

Definition push_transform (t : Transform) : Canvas -> Canvas :=
  with_gstate (fun g => {| ctm := t :: ctm g; font := font g;
                           fillStyle := fillStyle g;
                           globalAlpha := globalAlpha g |}).

Definition translate (x y : num) : Canvas -> Canvas :=
  push_transform (Translate x y).

Definition rotate (a : num) : Canvas -> Canvas :=
  push_transform (Rotate a).

Definition save (c : Canvas) : Canvas :=
  {| width := width c; height := height c; gstate := gstate c;
     saved := gstate c :: saved c; drawn := drawn c |}.

(** [restore] on an empty stack does nothing *)
Definition restore (c : Canvas) : Canvas :=
  match saved c with
  | [] => c
  | g :: rest =>
      {| width := width c; height := height c; gstate := g;
         saved := rest; drawn := drawn c |}
  end.

Definition draw (op : DrawOp) (c : Canvas) : Canvas :=
  {| width := width c; height := height c; gstate := gstate c;
     saved := saved c; drawn := op :: drawn c |}.

Definition drawImage (img : HTMLImageElement) (dx dy : num) : Canvas -> Canvas :=
  draw (DrawImage img dx dy).

Definition fillText (t : string) (x y : num) (c : Canvas) : Canvas :=
  draw (FillText t x y (gstate c)) c.

(** the drawing operations in the order they were issued *)
Definition draw_log (c : Canvas) : list DrawOp := rev (drawn c).

(** ** What the browser supplies *)

Inductive Heic2anyResult (Blob : Type) : Type :=
| OneBlob (b : Blob)
| BlobArray (bs : list Blob)
| ConversionFailed.

Arguments ConversionFailed {Blob}.

Record Browser : Type := {
  Math_PI : num;
  Math_cos : num -> num;
  Math_sin : num -> num;
  (** [ctx.measureText(text).width] under the font of the context *)
  measureText_width : Font -> string -> num;
  (** [canvas.toDataURL(mimeType)] or [canvas.toDataURL(mimeType, quality)],
      when it returns *)
  toDataURL : Canvas -> string -> option num -> string;
  (** the string is a colour to the parser of the browser *)
  parses_as_color : string -> bool;
  (** [canvas.getContext('2d')] returns a context, not [null] *)
  context2d : bool;
  (** [ctx.drawImage(image, 0, 0)] throws (an image in the broken state) *)
  drawImage_throws : HTMLImageElement -> option string;
  (** [canvas.toDataURL] throws (a canvas that is not origin-clean) *)
  toDataURL_throws : Canvas -> option string
}.

(** What the theorems on finite geometry ask of a browser: the trigonometric
    functions are finite on finite arguments and a measured width is finite
    and not negative. *)
Record BrowserSane (B : Browser) : Prop := {
  PI_finite : is_finite (Math_PI B);
  cos_finite : forall q, is_finite (Math_cos B (Fin q));
  sin_finite : forall q, is_finite (Math_sin B (Fin q));
  width_finite : forall f t, exists w, measureText_width B f t = Fin w /\ (0 <= w)%Q
}.

(** ** Promises *)

Inductive Promise (A : Type) : Type :=
| Fulfilled (v : A)
| Rejected (reason : string).

Arguments Rejected {A}.

(** how a run of statements ends: normally, or with an exception thrown *)
Inductive Completion (R : Type) : Type :=
| Normal (r : R)
| Throw (reason : string).

Arguments Throw {R}.

(** [new Promise(executor)]: the executor runs at once with the two settling
    callbacks; an exception it throws rejects the promise; [None] while it has
    not returned. *)
Definition new_Promise {A : Type}
  (executor : (A -> Promise A) -> (string -> Promise A)
              -> option (Completion (Promise A)))
  : option (Promise A) :=
  match executor (@Fulfilled A) (@Rejected A) with
  | Some (Normal settled) => Some settled
  | Some (Throw reason) => Some (Rejected reason)
  | None => None
  end.

(** ** Loops *)

(** [i++] on a counter that holds an integer: exact below 2^53; at 2^53 the
    sum is not a binary64 and rounds back to 2^53, so the counter stays.  (The
    counters of the source start at -1.) *)
Definition incr (i : Z) : Z := if (i <? 2 ^ 53)%Z then (i + 1)%Z else i.

(** [for (let i = start; i < bound; i++) body] *)
Fixpoint for_lt {S : Type} (fuel : nat) (i : Z) (bound : num)
  (body : Z -> S -> option S) (s : S) : option S :=
  match fuel with
  | O => None
  | Datatypes.S fuel' =>
      if nlt (ofZ i) bound then
        match body i s with
        | Some s' => for_lt fuel' (incr i) bound body s'
        | None => None
        end
      else Some s
  end.

(** ** [addWatermark] *)

(** The values the tile branch computes before its loop (lines 458-485). *)
Record TileGeometry : Type := {
  angle : num;
  cos : num;
  sin : num;
  rotatedWidth : num;
  rotatedHeight : num;
  spacingPercent : num;
  spacingGap : num;
  cellWidth : num;
  cellHeight : num;
  cols : num;
  rows : num;
  offsetXPixels : num;
  offsetYPixels : num;
  startX : num;
  startY : num
}.

Section Compositor.

Variable B : Browser.

Definition measureText (ctx : Canvas) (t : string) : num :=
  measureText_width B (font (gstate ctx)) t.

Definition tile_geometry (canvas : Canvas) (options : WatermarkOptions)
  (textWidth textHeight : num) : TileGeometry :=
  let angle := (rotation options * Math_PI B) / Fin 180 in
  let cos := nabs (Math_cos B angle) in
  let sin := nabs (Math_sin B angle) in
  let rotatedWidth := textWidth * cos + textHeight * sin in
  let rotatedHeight := textWidth * sin + textHeight * cos in
  let spacingPercent := spacing options in
  let spacingGap := rotatedWidth * (spacingPercent / Fin 100) in
  let cellWidth := rotatedWidth + spacingGap in
  let cellHeight := rotatedHeight + spacingGap in
  let cols := nceil (ofN (width canvas) / cellWidth) + Fin 2 in
  let rows := nceil (ofN (height canvas) / cellHeight) + Fin 2 in
  let offsetXPixels := ofN (width canvas) * (offsetX options / Fin 100) in
  let offsetYPixels := ofN (height canvas) * (offsetY options / Fin 100) in
  let startX := (ofN (width canvas) - (cols - Fin 1) * cellWidth) / Fin 2 + offsetXPixels in
  let startY := (ofN (height canvas) - (rows - Fin 1) * cellHeight) / Fin 2 + offsetYPixels in
  {| angle := angle; cos := cos; sin := sin;
     rotatedWidth := rotatedWidth; rotatedHeight := rotatedHeight;
     spacingPercent := spacingPercent; spacingGap := spacingGap;
     cellWidth := cellWidth; cellHeight := cellHeight;
     cols := cols; rows := rows;
     offsetXPixels := offsetXPixels; offsetYPixels := offsetYPixels;
     startX := startX; startY := startY |}.

(** the center of the watermark in column [col] and row [row]
    (lines 493-494) *)
Definition centerX (g : TileGeometry) (col : Z) : num :=
  startX g + ofZ col * cellWidth g + rotatedWidth g / Fin 2.

Definition centerY (g : TileGeometry) (row : Z) : num :=
  startY g + ofZ row * cellHeight g + rotatedHeight g / Fin 2.

(** the body of the inner loop (lines 490-503) *)
Definition stamp (options : WatermarkOptions) (textWidth textHeight : num)
  (g : TileGeometry) (row col : Z) (ctx : Canvas) : Canvas :=
  let ctx := save ctx in
  let ctx := translate (centerX g col) (centerY g row) ctx in
  let ctx := rotate (angle g) ctx in
  let ctx := fillText (text options) (- textWidth / Fin 2) (textHeight / Fin 4) ctx in
  restore ctx.

(** the double loop (lines 488-505); the loop over the columns is run anew,
    with the whole fuel, in every row *)
Definition draw_tiles (fuel : nat) (options : WatermarkOptions)
  (textWidth textHeight : num) (g : TileGeometry) (ctx : Canvas) : option Canvas :=
  for_lt fuel (-1) (rows g)
    (fun row ctx =>
       for_lt fuel (-1) (cols g)
         (fun col ctx => Some (stamp options textWidth textHeight g row col ctx))
         ctx)
    ctx.

(** the base position of the single watermark (lines 508-533) *)
Definition base_position (canvas : Canvas) (options : WatermarkOptions)
  (textWidth textHeight : num) : num * num :=
  match position options with
  | center =>
      ((ofN (width canvas) - textWidth) / Fin 2,
       (ofN (height canvas) + textHeight) / Fin 2)
  | top_left => (Fin 20, Fin 20 + textHeight)
  | top_right => (ofN (width canvas) - textWidth - Fin 20, Fin 20 + textHeight)
  | bottom_left => (Fin 20, ofN (height canvas) - Fin 20)
  | bottom_right =>
      (ofN (width canvas) - textWidth - Fin 20, ofN (height canvas) - Fin 20)
  end.

(** the position after the offsets are applied (lines 536-539) *)
Definition single_anchor (canvas : Canvas) (options : WatermarkOptions)
  (textWidth textHeight : num) : num * num :=
  let '(x, y) := base_position canvas options textWidth textHeight in
  let offsetXPixels := ofN (width canvas) * (offsetX options / Fin 100) in
  let offsetYPixels := ofN (height canvas) * (offsetY options / Fin 100) in
  (x + offsetXPixels, y + offsetYPixels).

(** the single branch (lines 507-553) *)
Definition draw_single (options : WatermarkOptions) (textWidth textHeight : num)
  (ctx : Canvas) : Canvas :=
  let '(x, y) := single_anchor ctx options textWidth textHeight in
  let ctx := save ctx in
  let ctx := translate (x + textWidth / Fin 2) (y - textHeight / Fin 2) ctx in
  let ctx := rotate ((rotation options * Math_PI B) / Fin 180) ctx in
  let ctx := translate (- (x + textWidth / Fin 2)) (- (y - textHeight / Fin 2)) ctx in
  let ctx := fillText (text options) x y ctx in
  restore ctx.

(** lines 436-454: the fresh canvas with the source drawn and the style set,
    when the context is there and [drawImage] takes the image *)
Definition prepare (document : Document) (image : HTMLImageElement)
  (options : WatermarkOptions) : Canvas :=
  let canvas := createElement_canvas document in
  let canvas := set_width (img_width image) canvas in
  let canvas := set_height (img_height image) canvas in
  let ctx := drawImage image (Fin 0) (Fin 0) canvas in
  let ctx := set_font {| font_px := fontSize options; font_family := "Arial" |} ctx in
  let ctx := set_fillStyle (parses_as_color B) (color options) ctx in
  set_globalAlpha (opacity options) ctx.

(** lines 436-554: the surface as it is handed to the encoder, when the
    context is there and [drawImage] takes the image *)
Definition render_surface (fuel : nat) (document : Document)
  (image : HTMLImageElement) (options : WatermarkOptions) : option Canvas :=
  let ctx := prepare document image options in
  let textWidth := measureText ctx (text options) in
  let textHeight := fontSize options in
  match mode options with
  | tile =>
      draw_tiles fuel options textWidth textHeight
        (tile_geometry ctx options textWidth textHeight) ctx
  | single => Some (draw_single options textWidth textHeight ctx)
  end.

Definition mimeType_of (f : ImageFormat) : string :=
  match f with
  | jpeg => "image/jpeg"
  | webp => "image/webp"
  | png => "image/png"
  end.

(** lines 557-577 *)
Definition encode (canvas : Canvas) (exportOptions : option ExportOptions) : string :=
  let format :=
    match exportOptions with Some e => format e | None => png end in
  let quality :=
    match exportOptions with
    | Some {| quality := Some q |} => if nfalsy q then Fin (23 # 25) else q
    | _ => Fin (23 # 25)
    end in
  let mimeType := mimeType_of format in
  match format with
  | png => toDataURL B canvas mimeType None
  | _ => toDataURL B canvas mimeType (Some quality)
  end.

(** The executor handed to [new Promise]; it binds [resolve] only.  Three of
    its calls can throw: [ctx.drawImage] on a [null] context or on a broken
    image (line 444, before anything is drawn), and [canvas.toDataURL] on a
    canvas that is not origin-clean (lines 575-577). *)
Definition addWatermark_executor {A : Type} (fuel : nat) (document : Document)
  (image : HTMLImageElement) (options : WatermarkOptions)
  (exportOptions : option ExportOptions) (resolve : string -> A)
  : option (Completion A) :=
  if negb (context2d B) then Some (Throw "TypeError")
  else
    match drawImage_throws B image with
    | Some reason => Some (Throw reason)
    | None =>
        match render_surface fuel document image options with
        | Some canvas =>
            match toDataURL_throws B canvas with
            | Some reason => Some (Throw reason)
            | None => Some (Normal (resolve (encode canvas exportOptions)))
            end
        | None => None
        end
    end.

Definition addWatermark (fuel : nat) (document : Document)
  (image : HTMLImageElement) (options : WatermarkOptions)
  (exportOptions : option ExportOptions) : option (Promise string) :=
  new_Promise
    (fun resolve _ =>
       addWatermark_executor fuel document image options exportOptions resolve).

End Compositor.

(** ** [loadImage] *)

Local Open Scope string_scope.

Record Blob : Type := {
  blob_type : string;
  blob_bytes : list Byte.byte
}.

(** A [File] is a [Blob] with a name; [file.type] is the type of the blob. *)
Record File : Type := {
  name : string;
  file_blob : Blob
}.

Definition type (file : File) : string := blob_type (file_blob file).

(** [String.prototype.toLowerCase], on the ASCII letters *)
Definition lower_ascii (c : ascii) : ascii :=
  let n := nat_of_ascii c in
  if ((65 <=? n) && (n <=? 90))%nat then ascii_of_nat (n + 32) else c.

Fixpoint toLowerCase (s : string) : string :=
  match s with
  | EmptyString => EmptyString
  | String c rest => String (lower_ascii c) (toLowerCase rest)
  end.

(** [s.endsWith(suffix)] *)
Fixpoint endsWith (s suffix : string) : bool :=
  if String.eqb s suffix then true
  else match s with
       | EmptyString => false
       | String _ rest => endsWith rest suffix
       end.

(** what [loadImage] asks of its collaborators, in the order it asks *)
Inductive ExternalCall : Type :=
| CallHeic2any (blob : Blob) (toType : string) (quality : num)
| CallReadAsDataURL (blob : option Blob)
| CallDecode (src : string).

Record Loaded : Type := {
  calls : list ExternalCall;
  outcome : Promise HTMLImageElement
}.

Section Decoder.

(** [heic2any({ blob, toType, quality })]; [ConversionFailed] when its promise
    rejects *)
Variable heic2any : Blob -> string -> num -> Heic2anyResult Blob.
(** [FileReader.readAsDataURL]: the data URL handed to [onload], or [None]
    when [onerror] fires *)
Variable readAsDataURL : Blob -> option string.
(** assigning [img.src]: the image handed to [onload], or [None] when
    [onerror] fires *)
Variable decodeImage : string -> option HTMLImageElement.

(** lines 587-590 *)
Definition isHeic (file : File) : bool :=
  String.eqb (type file) "image/heic" ||
  String.eqb (type file) "image/heif" ||
  endsWith (toLowerCase (name file)) ".heic" ||
  endsWith (toLowerCase (name file)) ".heif".

(** lines 609-619; [processedFile] is [None] when it is [undefined], which
    [readAsDataURL] refuses with a [TypeError] *)
Definition read_and_decode (processedFile : option Blob) : Loaded :=
  match processedFile with
  | None =>
      {| calls := [CallReadAsDataURL None]; outcome := Rejected "TypeError" |}
  | Some blob =>
      match readAsDataURL blob with
      | None =>
          {| calls := [CallReadAsDataURL (Some blob)];
             outcome := Rejected "文件读取失败" |}
      | Some url =>
          {| calls := [CallReadAsDataURL (Some blob); CallDecode url];
             outcome := match decodeImage url with
                        | Some img => Fulfilled img
                        | None => Rejected "图片加载失败"
                        end |}
      end
  end.

Definition after (c : ExternalCall) (l : Loaded) : Loaded :=
  {| calls := c :: calls l; outcome := outcome l |}.

(** lines 583-620 *)
Definition loadImage (file : File) : Loaded :=
  if isHeic file then
    after (CallHeic2any (file_blob file) "image/jpeg" (Fin (19 # 20)))
      match heic2any (file_blob file) "image/jpeg" (Fin (19 # 20)) with
      | OneBlob convertedBlob => read_and_decode (Some convertedBlob)
      | BlobArray convertedBlob => read_and_decode (nth_error convertedBlob 0)
      | ConversionFailed =>
          {| calls := [];
             outcome := Rejected "HEIC 格式转换失败，请确保文件有效" |}
      end
  else read_and_decode (Some (file_blob file)).

End Decoder.

Local Close Scope string_scope.

(** ** A concrete browser for the examples *)

Module Example.

Local Open Scope string_scope.

(** A rational point of the unit circle for each finite angle, exact at [0]:
    [cos a = (1 - t^2) / (1 + t^2)] and [sin a = 2t / (1 + t^2)], [t = a/2]. *)
Definition unit_cos (a : num) : num :=
  match a with
  | Fin q => let t := (q / 2)%Q in Fin (Qred ((1 - t * t) / (1 + t * t)))
  | _ => NaN
  end.

Definition unit_sin (a : num) : num :=
  match a with
  | Fin q => let t := (q / 2)%Q in Fin (Qred ((2 * t) / (1 + t * t)))
  | _ => NaN
  end.

(** every glyph advances by half the font size (zero for a font size that is
    not a positive finite number) *)
Definition half_em_width (f : Font) (t : string) : num :=
  match font_px f with
  | Fin px =>
      if Qltb 0 px then Fin (Qred (px / 2 * inject_Z (Z.of_nat (String.length t))))
      else Fin 0
  | _ => Fin 0
  end.

(** the colours of the examples are written [#rrggbb] *)
Definition hex_color (s : string) : bool :=
  match s with
  | String c rest => Ascii.eqb c "#" && Nat.eqb (String.length rest) 6
  | EmptyString => false
  end.

Definition browser : Browser :=
  {| Math_PI := Fin (355 # 113);
     Math_cos := unit_cos;
     Math_sin := unit_sin;
     measureText_width := half_em_width;
     toDataURL := fun _ mimeType _ => "data:" ++ mimeType ++ ";base64,";
     parses_as_color := hex_color;
     context2d := true;
     drawImage_throws := fun _ => None;
     toDataURL_throws := fun _ => None |}.

(** the same browser with every image from another origin: the canvas is
    tainted once the image is drawn *)
Definition tainting_browser : Browser :=
  {| Math_PI := Fin (355 # 113);
     Math_cos := unit_cos;
     Math_sin := unit_sin;
     measureText_width := half_em_width;
     toDataURL := fun _ mimeType _ => "data:" ++ mimeType ++ ";base64,";
     parses_as_color := hex_color;
     context2d := true;
     drawImage_throws := fun _ => None;
     toDataURL_throws := fun _ => Some "SecurityError" |}.

(** the binary64 values of [Math.PI] and of [Math.sin(Math.PI)] *)
Definition PI64 : Q := 884279719003555 # 281474976710656.
Definition SIN_PI64 : Q := 4967757600021511 # 40564819207303340847894502572032.

(** the same browser with [Math.PI], [Math.cos(Math.PI)] and
    [Math.sin(Math.PI)] as binary64 has them *)
Definition browser64 : Browser :=
  {| Math_PI := Fin PI64;
     Math_cos := fun a =>
       match a with
       | Fin q => if Qeq_bool q PI64 then Fin (-1) else unit_cos a
       | _ => NaN
       end;
     Math_sin := fun a =>
       match a with
       | Fin q => if Qeq_bool q PI64 then Fin SIN_PI64 else unit_sin a
       | _ => NaN
       end;
     measureText_width := half_em_width;
     toDataURL := fun _ mimeType _ => "data:" ++ mimeType ++ ";base64,";
     parses_as_color := hex_color;
     context2d := true;
     drawImage_throws := fun _ => None;
     toDataURL_throws := fun _ => None |}.

Definition options0 : WatermarkOptions :=
  {| text := "SAMPLE"; fontSize := Fin 40; color := "#ff0000";
     opacity := Fin (1 # 2); position := center; rotation := Fin 0;
     mode := single; spacing := Fin 0; offsetX := Fin 0; offsetY := Fin 0 |}.

Definition with_mode (m : Mode) (o : WatermarkOptions) : WatermarkOptions :=
  {| text := text o; fontSize := fontSize o; color := color o;
     opacity := opacity o; position := position o; rotation := rotation o;
     mode := m; spacing := spacing o; offsetX := offsetX o;
     offsetY := offsetY o |}.

Definition with_text (t : string) (o : WatermarkOptions) : WatermarkOptions :=
  {| text := t; fontSize := fontSize o; color := color o;
     opacity := opacity o; position := position o; rotation := rotation o;
     mode := mode o; spacing := spacing o; offsetX := offsetX o;
     offsetY := offsetY o |}.

Definition with_fontSize (f : num) (o : WatermarkOptions) : WatermarkOptions :=
  {| text := text o; fontSize := f; color := color o;
     opacity := opacity o; position := position o; rotation := rotation o;
     mode := mode o; spacing := spacing o; offsetX := offsetX o;
     offsetY := offsetY o |}.

Definition with_offsets (ox oy : num) (o : WatermarkOptions) : WatermarkOptions :=
  {| text := text o; fontSize := fontSize o; color := color o;
     opacity := opacity o; position := position o; rotation := rotation o;
     mode := mode o; spacing := spacing o; offsetX := ox; offsetY := oy |}.

Definition image (w h : N) : HTMLImageElement :=
  {| img_width := w; img_height := h; img_src := "blob:source" |}.

Definition empty_document : Document := {| canvases := [] |}.

Definition with_rotation_spacing (r s : num) (o : WatermarkOptions) : WatermarkOptions :=
  {| text := text o; fontSize := fontSize o; color := color o;
     opacity := opacity o; position := position o; rotation := r;
     mode := mode o; spacing := s; offsetX := offsetX o;
     offsetY := offsetY o |}.

(** a conversion that keeps the bytes and relabels the blob *)
Definition heic2any (b : Blob) (toType : string) (quality : num) : Heic2anyResult Blob :=
  OneBlob {| blob_type := toType; blob_bytes := blob_bytes b |}.

Definition readAsDataURL (b : Blob) : option string :=
  Some ("data:" ++ blob_type b ++ ";base64,").

Definition decodeImage (src : string) : option HTMLImageElement :=
  Some {| img_width := 4032; img_height := 3024; img_src := src |}.

(** a photo as an iPhone names it; the browser reports no type for it *)
Definition photo : File :=
  {| name := "IMG_0001.HEIC";
     file_blob := {| blob_type := EmptyString; blob_bytes := [] |} |}.

End Example.

(** ** Derived notions used by the statements *)

(** [Zseq i n] is [i, i+1, ..., i+n-1] *)
Fixpoint Zseq (i : Z) (n : nat) : list Z :=
  match n with
  | O => []
  | S n' => i :: Zseq (i + 1) n'
  end.

Definition draw_all (ops : list DrawOp) (c : Canvas) : Canvas :=
  fold_left (fun c op => draw op c) ops c.

(** the state a tile is drawn under: the state of the context, rotated by
    [angle g] after the origin is moved to the center of the cell *)
Definition tile_state (g : TileGeometry) (base : GState) (row col : Z) : GState :=
  {| ctm := Rotate (angle g) :: Translate (centerX g col) (centerY g row) :: ctm base;
     font := font base;
     fillStyle := fillStyle base;
     globalAlpha := globalAlpha base |}.

Definition tile_op (options : WatermarkOptions) (textWidth textHeight : num)
  (g : TileGeometry) (base : GState) (row col : Z) : DrawOp :=
  FillText (text options) (- textWidth / Fin 2) (textHeight / Fin 4)
    (tile_state g base row col).

(** the tiles of rows [-1 .. r-1] and columns [-1 .. c-1], row by row *)
Definition tile_ops (options : WatermarkOptions) (textWidth textHeight : num)
  (g : TileGeometry) (base : GState) (r c : Z) : list DrawOp :=
  flat_map
    (fun row =>
       map (tile_op options textWidth textHeight g base row)
         (Zseq (-1) (Z.to_nat (c + 1))))
    (Zseq (-1) (Z.to_nat (r + 1))).

(** a number that is finite and not negative *)
Definition nonneg (a : num) : Prop := exists q, a = Fin q /\ (0 <= q)%Q.

(** the call is a call of [heic2any] *)
Definition is_heic2any_call (c : ExternalCall) : Prop :=
  match c with CallHeic2any _ _ _ => True | _ => False end.


(** a bound a loop counter reaches: a finite number, at most 2^53 *)
Definition counter_reaches (bound : num) : Prop :=
  exists q, bound = Fin q /\ (Qceiling q <= 2 ^ 53)%Z.

(** no call of the browser throws while this image is watermarked *)
Definition nothing_throws (B : Browser) (image : HTMLImageElement) : Prop :=
  context2d B = true /\ drawImage_throws B image = None /\
  forall canvas, toDataURL_throws B canvas = None.
(** ** What a transformation does to a point *)

Section Geometry.

Variable B : Browser.

Definition apply_transform (t : Transform) (p : num * num) : num * num :=
  match t with
  | Translate tx ty => (fst p + tx, snd p + ty)
  | Rotate a =>
      (fst p * Math_cos B a - snd p * Math_sin B a,
       fst p * Math_sin B a + snd p * Math_cos B a)
  end.

(** a point in the coordinates of the drawing call, mapped to the surface:
    the most recent transformation applies first *)
Definition apply_ctm (m : list Transform) (p : num * num) : num * num :=
  fold_left (fun p t => apply_transform t p) m p.

(** the rotation by [theta] about the point [c] *)
Definition rotate_about (theta : num) (c p : num * num) : num * num :=
  let dx := fst p - fst c in
  let dy := snd p - snd c in
  (fst c + (dx * Math_cos B theta - dy * Math_sin B theta),
   snd c + (dx * Math_sin B theta + dy * Math_cos B theta)).

(** where a point drawn at [off] from the center [c] lands, when the drawing
    is rotated by [theta] about [c] *)
Definition offset_about (theta : num) (c off : num * num) : num * num :=
  (fst c + (fst off * Math_cos B theta - snd off * Math_sin B theta),
   snd c + (fst off * Math_sin B theta + snd off * Math_cos B theta)).

End Geometry.

(** the left and right edge of the cell in column (or row) [k] of a grid that
    starts at [start] with cells of size [cell] *)
Definition cell_start (start cell : num) (k : Z) : num := start + ofZ k * cell.
Definition cell_end (start cell : num) (k : Z) : num := start + ofZ k * cell + cell.

(** ** The algorithm in the words of the specification *)

Module Spec.

(** one placement of the glyph run: rotated by [stamp_angle] about
    [stamp_center] and drawn at [stamp_offset] from that center *)
Record Stamp : Type := {
  stamp_text : string;
  stamp_center : num * num;
  stamp_angle : num;
  stamp_offset : num * num
}.

Section Words.

Variable B : Browser.
Variables W H : N.
Variable p : WatermarkOptions.
Variable textWidth : num.

Definition textHeight : num := fontSize p.

Definition theta : num := rotation p * Math_PI B / Fin 180.

Definition rotatedWidth : num :=
  textWidth * nabs (Math_cos B theta) + textHeight * nabs (Math_sin B theta).

Definition rotatedHeight : num :=
  textWidth * nabs (Math_sin B theta) + textHeight * nabs (Math_cos B theta).

Definition spacingGap : num := rotatedWidth * (spacing p / Fin 100).

Definition cellWidth : num := rotatedWidth + spacingGap.
Definition cellHeight : num := rotatedHeight + spacingGap.

Definition cols : num := nceil (ofN W / cellWidth) + Fin 2.
Definition rows : num := nceil (ofN H / cellHeight) + Fin 2.

Definition startX : num :=
  (ofN W - (cols - Fin 1) * cellWidth) / Fin 2 + (offsetX p / Fin 100) * ofN W.

Definition startY : num :=
  (ofN H - (rows - Fin 1) * cellHeight) / Fin 2 + (offsetY p / Fin 100) * ofN H.

Definition cell_center (row col : Z) : num * num :=
  (startX + ofZ col * cellWidth + rotatedWidth / Fin 2,
   startY + ofZ row * cellHeight + rotatedHeight / Fin 2).

Definition stamp_at (row col : Z) : Stamp :=
  {| stamp_text := text p;
     stamp_center := cell_center row col;
     stamp_angle := theta;
     stamp_offset := (- textWidth / Fin 2, textHeight / Fin 4) |}.

(** once per (row, col), row from -1 to [r]-1 and col from -1 to [c]-1 *)
Definition stamps (r c : Z) : list Stamp :=
  flat_map
    (fun row => map (stamp_at row) (Zseq (-1) (Z.to_nat (c + 1))))
    (Zseq (-1) (Z.to_nat (r + 1))).

(** single mode: the anchor by position *)
Definition anchor : num * num :=
  match position p with
  | center => ((ofN W - textWidth) / Fin 2, (ofN H + textHeight) / Fin 2)
  | top_left => (Fin 20, Fin 20 + textHeight)
  | top_right => (ofN W - textWidth - Fin 20, Fin 20 + textHeight)
  | bottom_left => (Fin 20, ofN H - Fin 20)
  | bottom_right => (ofN W - textWidth - Fin 20, ofN H - Fin 20)
  end.

(** shifted by the offsets *)
Definition shifted_anchor : num * num :=
  (fst anchor + (offsetX p / Fin 100) * ofN W,
   snd anchor + (offsetY p / Fin 100) * ofN H).

(** the point the glyph run is rotated about *)
Definition glyph_center : num * num :=
  (fst shifted_anchor + textWidth / Fin 2,
   snd shifted_anchor - textHeight / Fin 2).

End Words.

(** [s] ends in [suffix], letter case apart *)
Definition ends_with_ci (s suffix : string) : Prop :=
  exists pre tail,
    s = (pre ++ tail)%string /\ toLowerCase tail = toLowerCase suffix.

(** the declared type or the extension says HEIC or HEIF *)
Definition is_heic (file : File) : Prop :=
  type file = "image/heic"%string \/ type file = "image/heif"%string \/
  ends_with_ci (name file) ".heic" \/ ends_with_ci (name file) ".heif".

End Spec.

(** the placement a [fillText] of the tile branch stands for *)
Definition stamp_of_op (op : DrawOp) : option Spec.Stamp :=
  match op with
  | FillText t x y {| ctm := [Rotate a; Translate cx cy] |} =>
      Some {| Spec.stamp_text := t;
              Spec.stamp_center := (cx, cy);
              Spec.stamp_angle := a;
              Spec.stamp_offset := (x, y) |}
  | _ => None
  end.

(** every stamp of the log has its center at [x >= bound] *)
Definition centers_right_of (bound : num) (log : list DrawOp) : bool :=
  forallb
    (fun op =>
       match stamp_of_op op with
       | Some s => nle bound (fst (Spec.stamp_center s))
       | None => true
       end)
    log.


(** ** [Math.min] and [Math.max] *)

Definition nmin (a b : num) : num :=
  match a, b with
  | NaN, _ | _, NaN => NaN
  | _, _ => if nle a b then a else b
  end.

Definition nmax (a b : num) : num :=
  match a, b with
  | NaN, _ | _, NaN => NaN
  | _, _ => if nle a b then b else a
  end.

(** a number within the bounds [lo] and [hi], both included *)
Definition within (lo hi : Q) (a : num) : Prop :=
  exists q, a = Fin q /\ (lo <= q)%Q /\ (q <= hi)%Q.

(** ** [downloadImage] (lines 622-629 of the utilities) *)

Record Anchor : Type := { href : string; download : string }.

(** The part of the page [downloadImage] touches: the children of
    [document.body] by node, the next node [createElement] hands out, and the
    anchors that were clicked, most recent first. *)
Record Page : Type := {
  body : list nat;
  next_node : nat;
  clicked : list Anchor
}.

(** [parent.removeChild(node)] *)
Fixpoint removeChild (node : nat) (children : list nat) : list nat :=
  match children with
  | [] => []
  | c :: rest => if Nat.eqb c node then rest else c :: removeChild node rest
  end.

Definition downloadImage (dataUrl filename : string) (page : Page) : Page :=
  let link := next_node page in
  let anchor := {| href := dataUrl; download := filename |} in
  let appended := body page ++ [link] in
  {| body := removeChild link appended;
     next_node := S link;
     clicked := anchor :: clicked page |}.

(** every node of the body was handed out before *)
Definition page_ok (page : Page) : Prop :=
  Forall (fun n => (n < next_node page)%nat) (body page).

(** ** The image viewer ([ImageViewer.tsx], lines 14-185) *)

Module Viewer.

Record Point : Type := { x : num; y : num }.

Record Touch : Type := { clientX : num; clientY : num }.

(** The state of the component.  [wheelTimerRef] says that the throttle timer
    of the wheel is running; [frames] are the positions queued with
    [requestAnimationFrame], oldest first. *)
Record State : Type := {
  scale : num;
  rotation : num;
  position : Point;
  isDragging : bool;
  dragStart : Point;
  lastTouchDistance : option num;
  wheelTimerRef : bool;
  frames : list Point
}.

Definition ZOOM_STEP : num := Fin (1 # 5).
Definition WHEEL_ZOOM_STEP : num := Fin (1 # 20).
Definition MIN_SCALE : num := Fin (1 # 10).
Definition MAX_SCALE : num := Fin 5.

Definition initial : State :=
  {| scale := Fin 1; rotation := Fin 0;
     position := {| x := Fin 0; y := Fin 0 |};
     isDragging := false;
     dragStart := {| x := Fin 0; y := Fin 0 |};
     lastTouchDistance := None;
     wheelTimerRef := false;
     frames := [] |}.

Definition setScale (f : num -> num) (s : State) : State :=
  {| scale := f (scale s); rotation := rotation s; position := position s;
     isDragging := isDragging s; dragStart := dragStart s;
     lastTouchDistance := lastTouchDistance s;
     wheelTimerRef := wheelTimerRef s; frames := frames s |}.

Definition setRotation (f : num -> num) (s : State) : State :=
  {| scale := scale s; rotation := f (rotation s); position := position s;
     isDragging := isDragging s; dragStart := dragStart s;
     lastTouchDistance := lastTouchDistance s;
     wheelTimerRef := wheelTimerRef s; frames := frames s |}.

Definition setPosition (p : Point) (s : State) : State :=
  {| scale := scale s; rotation := rotation s; position := p;
     isDragging := isDragging s; dragStart := dragStart s;
     lastTouchDistance := lastTouchDistance s;
     wheelTimerRef := wheelTimerRef s; frames := frames s |}.

Definition setIsDragging (b : bool) (s : State) : State :=
  {| scale := scale s; rotation := rotation s; position := position s;
     isDragging := b; dragStart := dragStart s;
     lastTouchDistance := lastTouchDistance s;
     wheelTimerRef := wheelTimerRef s; frames := frames s |}.

Definition setDragStart (p : Point) (s : State) : State :=
  {| scale := scale s; rotation := rotation s; position := position s;
     isDragging := isDragging s; dragStart := p;
     lastTouchDistance := lastTouchDistance s;
     wheelTimerRef := wheelTimerRef s; frames := frames s |}.

Definition setLastTouchDistance (d : option num) (s : State) : State :=
  {| scale := scale s; rotation := rotation s; position := position s;
     isDragging := isDragging s; dragStart := dragStart s;
     lastTouchDistance := d;
     wheelTimerRef := wheelTimerRef s; frames := frames s |}.

Definition setWheelTimer (b : bool) (s : State) : State :=
  {| scale := scale s; rotation := rotation s; position := position s;
     isDragging := isDragging s; dragStart := dragStart s;
     lastTouchDistance := lastTouchDistance s;
     wheelTimerRef := b; frames := frames s |}.

(** [requestAnimationFrame(() => setPosition(p))] *)
Definition requestFrame (p : Point) (s : State) : State :=
  {| scale := scale s; rotation := rotation s; position := position s;
     isDragging := isDragging s; dragStart := dragStart s;
     lastTouchDistance := lastTouchDistance s;
     wheelTimerRef := wheelTimerRef s; frames := frames s ++ [p] |}.

(** the browser runs the queued callbacks, oldest first *)
Definition animationFrame (s : State) : State :=
  let s' := fold_left (fun s p => setPosition p s) (frames s) s in
  {| scale := scale s'; rotation := rotation s'; position := position s';
     isDragging := isDragging s'; dragStart := dragStart s';
     lastTouchDistance := lastTouchDistance s';
     wheelTimerRef := wheelTimerRef s'; frames := [] |}.

Definition zoomIn : State -> State :=
  setScale (fun prev => nmin (prev + ZOOM_STEP) MAX_SCALE).

Definition zoomOut : State -> State :=
  setScale (fun prev => nmax (prev - ZOOM_STEP) MIN_SCALE).

Definition rotateLeft : State -> State :=
  setRotation (fun prev => prev - Fin 90).

Definition rotateRight : State -> State :=
  setRotation (fun prev => prev + Fin 90).

Definition reset (s : State) : State :=
  setPosition {| x := Fin 0; y := Fin 0 |}
    (setRotation (fun _ => Fin 0) (setScale (fun _ => Fin 1) s)).

Definition fitToScreen (s : State) : State :=
  setPosition {| x := Fin 0; y := Fin 0 |} (setScale (fun _ => Fin 1) s).

Definition handleMouseDown (button : Z) (cX cY : num) (s : State) : State :=
  if negb (Z.eqb button 0) then s
  else
    setDragStart {| x := cX - x (position s); y := cY - y (position s) |}
      (setIsDragging true s).

Definition handleMouseMove (cX cY : num) (s : State) : State :=
  if negb (isDragging s) then s
  else requestFrame {| x := cX - x (dragStart s); y := cY - y (dragStart s) |} s.

Definition handleMouseUp : State -> State := setIsDragging false.

Section Touches.

(** [Math.hypot] of two numbers *)
Variable hypot : num -> num -> num.

Definition touchDistance (touch1 touch2 : Touch) : num :=
  hypot (clientX touch2 - clientX touch1) (clientY touch2 - clientY touch1).

Definition handleTouchStart (touches : list Touch) (s : State) : State :=
  match touches with
  | [t] =>
      setDragStart
        {| x := clientX t - x (position s); y := clientY t - y (position s) |}
        (setIsDragging true s)
  | [touch1; touch2] =>
      setIsDragging false
        (setLastTouchDistance (Some (touchDistance touch1 touch2)) s)
  | _ => s
  end.

Definition handleTouchMove (touches : list Touch) (s : State) : State :=
  match touches with
  | [t] =>
      if isDragging s then
        requestFrame
          {| x := clientX t - x (dragStart s); y := clientY t - y (dragStart s) |} s
      else s
  | [touch1; touch2] =>
      let distance := touchDistance touch1 touch2 in
      let s :=
        match lastTouchDistance s with
        | Some last =>
            let delta := (distance - last) * Fin (1 # 100) in
            setScale
              (fun prev =>
                 let newScale := prev + delta in
                 nmax MIN_SCALE (nmin newScale MAX_SCALE))
              s
        | None => s
        end in
      setLastTouchDistance (Some distance) s
  | _ => s
  end.

Definition handleTouchEnd (s : State) : State :=
  setLastTouchDistance None (setIsDragging false s).

Definition handleWheel (deltaY : num) (s : State) : State :=
  if wheelTimerRef s then s
  else
    let delta := if nlt (Fin 0) deltaY then - WHEEL_ZOOM_STEP else WHEEL_ZOOM_STEP in
    setWheelTimer true
      (setScale
         (fun prev =>
            let newScale := prev + delta in
            nmax MIN_SCALE (nmin newScale MAX_SCALE))
         s).

(** what can happen to the component *)
Inductive Event : Type :=
| ClickZoomIn
| ClickZoomOut
| ClickRotateLeft
| ClickRotateRight
| ClickReset
| ClickFitToScreen
| MouseDown (button : Z) (cX cY : num)
| MouseMove (cX cY : num)
| MouseUp
| MouseLeave
| TouchStart (touches : list Touch)
| TouchMove (touches : list Touch)
| TouchEnd
| Wheel (deltaY : num)
| WheelTimerFires
| AnimationFrame.

Definition step (s : State) (e : Event) : State :=
  match e with
  | ClickZoomIn => zoomIn s
  | ClickZoomOut => zoomOut s
  | ClickRotateLeft => rotateLeft s
  | ClickRotateRight => rotateRight s
  | ClickReset => reset s
  | ClickFitToScreen => fitToScreen s
  | MouseDown button cX cY => handleMouseDown button cX cY s
  | MouseMove cX cY => handleMouseMove cX cY s
  | MouseUp | MouseLeave => handleMouseUp s
  | TouchStart touches => handleTouchStart touches s
  | TouchMove touches => handleTouchMove touches s
  | TouchEnd => handleTouchEnd s
  | Wheel deltaY => handleWheel deltaY s
  | WheelTimerFires => setWheelTimer false s
  | AnimationFrame => animationFrame s
  end.

Definition run (s : State) (es : list Event) : State := fold_left step es s.

(** the touches of the event have finite coordinates *)
Definition finite_touch (t : Touch) : Prop :=
  is_finite (clientX t) /\ is_finite (clientY t).

Definition finite_event (e : Event) : Prop :=
  match e with
  | TouchStart touches | TouchMove touches => Forall finite_touch touches
  | _ => True
  end.

End Touches.

(** the scale is within its bounds and the distance kept between two
    touches, if any, is finite *)
Definition zoom_ok (s : State) : Prop :=
  within (1 # 10) 5 (scale s) /\
  forall d, lastTouchDistance s = Some d -> is_finite d.

(** the rotation is a whole number of quarter turns *)
Definition quarter_turns (s : State) : Prop :=
  exists k : Z, rotation s = ofZ (90 * k).

(** a [Math.hypot] for the examples: exact when one argument is zero, the sum
    of the absolute values otherwise *)
Definition example_hypot (a b : num) : num := nabs a + nabs b.

End Viewer.

(** ** Notions for the statements on the compositor *)


(** the text [t], in the font, colour and opacity of the state [g] *)
Definition text_in_state (t : string) (g : GState) (op : DrawOp) : Prop :=
  match op with
  | FillText t' _ _ gs =>
      t' = t /\ font gs = font g /\ fillStyle gs = fillStyle g /\
      globalAlpha gs = globalAlpha g
  | DrawImage _ _ _ => False
  end.


(** a number that is finite and positive *)
Definition positive (a : num) : Prop := exists q, a = Fin q /\ (0 < q)%Q.

(** what holds of the canvas between any two stamps: the state of the context
    is the one prepared, nothing is saved, and the log is the source image
    followed by the text in the style of that state *)
Definition drawing_invariant (B : Browser) (document : Document)
  (image : HTMLImageElement) (options : WatermarkOptions) (c : Canvas) : Prop :=
  gstate c = gstate (prepare B document image options) /\ saved c = [] /\
  exists texts,
    draw_log c = DrawImage image (Fin 0) (Fin 0) :: texts /\
    Forall (text_in_state (text options)
              (gstate (prepare B document image options))) texts.

(** ** The application ([App.tsx], lines 10-158) *)

Module App.

Local Open Scope string_scope.

(** [s.startsWith(prefix)] *)
Fixpoint startsWith (s prefix : string) : bool :=
  match prefix, s with
  | EmptyString, _ => true
  | String p prefix', String c s' => Ascii.eqb c p && startsWith s' prefix'
  | String _ _, EmptyString => false
  end.

(** lines 46-50: the file is taken for an image *)
Definition isImage (file : File) : bool :=
  startsWith (type file) "image/" ||
  endsWith (toLowerCase (name file)) ".heic" ||
  endsWith (toLowerCase (name file)) ".heif".

(** lines 56-58: the file is shown without a preview until it is converted *)
Definition isHeic (file : File) : bool :=
  endsWith (toLowerCase (name file)) ".heic" ||
  endsWith (toLowerCase (name file)) ".heif".

(** lines 65-72: what the handler shows first for a file it accepts; the
    object URL comes from [URL.createObjectURL] *)
Definition first_preview (createObjectURL : File -> string) (file : File) : string :=
  if isHeic file then EmptyString else createObjectURL file.

(** the class [[^/.]] of the pattern *)
Definition extension_char (c : ascii) : bool :=
  negb (Ascii.eqb c "/") && negb (Ascii.eqb c ".").

Fixpoint all_extension_chars (s : string) : bool :=
  match s with
  | EmptyString => true
  | String c rest => extension_char c && all_extension_chars rest
  end.

(** the pattern [\.[^/.]+$] matches [s] from its first character to its end *)
Definition matches_extension (s : string) : bool :=
  match s with
  | String c (String _ _ as rest) => Ascii.eqb c "." && all_extension_chars rest
  | _ => false
  end.

(** [originalName.replace(/\.[^/.]+$/, '')]: the leftmost position from which
    the pattern matches is cut off with what follows *)
Fixpoint replace_extension (s : string) : string :=
  if matches_extension s then EmptyString
  else match s with
       | EmptyString => EmptyString
       | String c rest => String c (replace_extension rest)
       end.

(** the name has a dot in it *)
Fixpoint has_dot (s : string) : bool :=
  match s with
  | EmptyString => false
  | String c rest => Ascii.eqb c "." || has_dot rest
  end.

(** line 139 *)
Definition extension (exportFormat : ImageFormat) : string :=
  match exportFormat with
  | jpeg => "jpg"
  | png => "png"
  | webp => "webp"
  end.

(** lines 137-140: the name the download is saved under *)
Definition download_filename (selectedFile : option File)
  (exportFormat : ImageFormat) : string :=
  let originalName :=
    match selectedFile with
    | Some file =>
        match name file with EmptyString => "image" | n => n end
    | None => "image"
    end in
  let nameWithoutExt := replace_extension originalName in
  "watermarked_" ++ nameWithoutExt ++ "." ++ extension exportFormat.

(** lines 111-114: the export options of the preview *)
Definition preview_options : ExportOptions :=
  {| format := png; quality := Some (Fin 1) |}.

(** lines 131-134: the export options of the download; [exportQuality] is the
    position of the quality slider *)
Definition download_options (exportFormat : ImageFormat) (exportQuality : num)
  : ExportOptions :=
  {| format := exportFormat; quality := Some (exportQuality / Fin 100)%num |}.

(** *** The debounced preview (lines 93-120) *)

(** what the callback of a timer has captured *)
Record Snapshot : Type := {
  snap_image : HTMLImageElement;
  snap_options : WatermarkOptions
}.

(** [timers] are the pending timeouts by identifier, [cleanup] is the timer
    the cleanup of the last run of the effect clears, [generated] are the
    calls of [generateWatermark] that went on to [addWatermark], most recent
    first. *)
Record State : Type := {
  originalImage : option HTMLImageElement;
  watermarkOptions : WatermarkOptions;
  timers : list (nat * Snapshot);
  cleanup : option nat;
  next_timer : nat;
  generated : list Snapshot
}.

(** lines 26-37 *)
Definition default_options : WatermarkOptions :=
  {| text := "仅供XXX使用"; fontSize := Fin 40; color := "#FF0000";
     opacity := Fin (1 # 2); position := center; rotation := Fin (-45);
     mode := tile; spacing := Fin 50; offsetX := Fin 0; offsetY := Fin 0 |}.

Definition initial : State :=
  {| originalImage := None; watermarkOptions := default_options;
     timers := []; cleanup := None; next_timer := 0; generated := [] |}.

Definition clearTimeout (id : nat) (ts : list (nat * Snapshot)) : list (nat * Snapshot) :=
  filter (fun t => negb (Nat.eqb (fst t) id)) ts.

(** The effect of lines 94-103 after a render in which [watermarkOptions] or
    [originalImage] changed: the cleanup of the previous run, then the body. *)
Definition run_effect (image : option HTMLImageElement)
  (options : WatermarkOptions) (s : State) : State :=
  let ts :=
    match cleanup s with
    | Some id => clearTimeout id (timers s)
    | None => timers s
    end in
  match image with
  | Some img =>
      {| originalImage := image; watermarkOptions := options;
         timers := ts ++ [(next_timer s,
                           {| snap_image := img; snap_options := options |})];
         cleanup := Some (next_timer s);
         next_timer := S (next_timer s);
         generated := generated s |}
  | None =>
      {| originalImage := image; watermarkOptions := options;
         timers := ts; cleanup := None;
         next_timer := next_timer s;
         generated := generated s |}
  end.

Fixpoint pending (id : nat) (ts : list (nat * Snapshot)) : option Snapshot :=
  match ts with
  | [] => None
  | (i, snap) :: rest => if Nat.eqb i id then Some snap else pending id rest
  end.

(** the timeout [id] elapses: its callback calls [generateWatermark] *)
Definition timer_fires (id : nat) (s : State) : State :=
  match pending id (timers s) with
  | Some snap =>
      {| originalImage := originalImage s;
         watermarkOptions := watermarkOptions s;
         timers := clearTimeout id (timers s);
         cleanup := cleanup s;
         next_timer := next_timer s;
         generated := snap :: generated s |}
  | None => s
  end.

Inductive Event : Type :=
| SetWatermarkOptions (options : WatermarkOptions)
| SetOriginalImage (image : option HTMLImageElement)
| TimerFires (id : nat).

Definition step (s : State) (e : Event) : State :=
  match e with
  | SetWatermarkOptions options => run_effect (originalImage s) options s
  | SetOriginalImage image => run_effect image (watermarkOptions s) s
  | TimerFires id => timer_fires id s
  end.

Definition run (s : State) (es : list Event) : State := fold_left step es s.

(** *** Choosing a file (lines 42-91) *)

Module Upload.

(** the state the handler reads and sets; [alerts] are the messages shown
    with [alert], most recent first *)
Record State : Type := {
  selectedFile : option File;
  originalImage : option HTMLImageElement;
  previewUrl : string;
  watermarkedUrl : string;
  isProcessing : bool;
  alerts : list string
}.

Section Handler.

(** [URL.createObjectURL] *)
Variable createObjectURL : File -> string.
(** how the promise of [loadImage(file)] is settled *)
Variable load : File -> Promise HTMLImageElement.

(** The state once the handler has run to its end, for the files of the
    input element; the states it passes through while it awaits the image
    are not kept. *)
Definition handleFileChange (files : list File) (s : State) : State :=
  match files with
  | [] => s
  | file :: _ =>
      if isImage file then
        match load file with
        | Fulfilled img =>
            {| selectedFile := Some file;
               originalImage := Some img;
               previewUrl := if isHeic file then img_src img
                             else createObjectURL file;
               watermarkedUrl := watermarkedUrl s;
               isProcessing := false;
               alerts := alerts s |}
        | Rejected message =>
            {| selectedFile := None;
               originalImage := originalImage s;
               previewUrl := EmptyString;
               watermarkedUrl := watermarkedUrl s;
               isProcessing := false;
               alerts := message :: alerts s |}
        end
      else
        {| selectedFile := selectedFile s;
           originalImage := originalImage s;
           previewUrl := previewUrl s;
           watermarkedUrl := watermarkedUrl s;
           isProcessing := isProcessing s;
           alerts := "请选择有效的图片文件" :: alerts s |}
  end.

End Handler.

End Upload.

(** at most one timeout is pending; it is the one the next cleanup clears,
    and its callback has captured the image and the options of the state *)
Definition debounced (s : State) : Prop :=
  timers s = [] \/
  exists id img,
    timers s = [(id, {| snap_image := img; snap_options := watermarkOptions s |})] /\
    cleanup s = Some id /\
    originalImage s = Some img.

End App.

(** a page with two nodes, for the examples *)
Definition example_page : Page :=
  {| body := [0; 1]%nat; next_node := 2; clicked := [] |}.
(** ** Facts on numbers *)

Unset Implicit Arguments.

Lemma Qltb_iff (a b : Q) : Qltb a b = true <-> (a < b)%Q.
Proof.
  unfold Qltb. rewrite negb_true_iff.
  split; intro H.
  - apply Qnot_le_lt. intro Hle. apply Qle_bool_iff in Hle. congruence.
  - destruct (Qle_bool b a) eqn:E; trivial.
    apply Qle_bool_iff in E. exfalso. exact (Qlt_not_le _ _ H E).
Qed.

Lemma Qis0_iff (a : Q) : Qis0 a = true <-> (a == 0)%Q.
Proof. apply Qeq_bool_iff. Qed.

Lemma Qred_inject_Z (z : Z) : Qred (inject_Z z) = inject_Z z.
Proof.
  unfold inject_Z, Qred.
  generalize (Z.ggcd_gcd z 1) (Z.ggcd_correct_divisors z 1).
  destruct (Z.ggcd z 1) as [g [aa bb]]. simpl.
  rewrite Z.gcd_1_r. intros -> [Ha Hb].
  rewrite Z.mul_1_l in Ha, Hb. subst. reflexivity.
Qed.

Lemma nadd_comm (a b : num) : a + b = b + a.
Proof.
  destruct a, b; cbn [nadd]; trivial.
  f_equal. apply Qred_complete. ring.
Qed.

Lemma nmul_comm (a b : num) : a * b = b * a.
Proof.
  destruct a, b; cbn [nmul]; trivial.
  f_equal. apply Qred_complete. ring.
Qed.

Lemma nadd_nneg (a b : num) : a + (- b) = a - b.
Proof.
  destruct a, b; cbn [nadd nneg nsub]; trivial.
  f_equal. apply Qred_complete. rewrite Qred_correct. ring.
Qed.

Lemma ofZ_add (a b : Z) : ofZ a + ofZ b = ofZ (a + b).
Proof.
  unfold ofZ. cbn [nadd]. f_equal.
  rewrite <- (Qred_inject_Z (a + b)). apply Qred_complete.
  rewrite inject_Z_plus. reflexivity.
Qed.

(** the loop test [i < bound] for a finite bound *)
Lemma nlt_ofZ_Fin (i : Z) (q : Q) :
  nlt (ofZ i) (Fin q) = true <-> (i < Qceiling q)%Z.
Proof.
  unfold ofZ. cbn [nlt]. rewrite Qltb_iff. split; intro H.
  - apply Z.lt_nge. intro Hle.
    apply (Qlt_not_le _ _ H).
    apply Qle_trans with (inject_Z (Qceiling q)); [apply Qle_ceiling|].
    rewrite <- Zle_Qle. exact Hle.
  - apply Qnot_le_lt. intro Hle.
    apply Qceiling_resp_le in Hle. rewrite Qceiling_Z in Hle. lia.
Qed.

Lemma nlt_ofZ_ofZ (i j : Z) : nlt (ofZ i) (ofZ j) = true <-> (i < j)%Z.
Proof.
  unfold ofZ at 2. rewrite nlt_ofZ_Fin, Qceiling_Z. reflexivity.
Qed.

(** a finite value of [Math.ceil(x) + 2] is an integer *)
Lemma nceil_plus2_integer (x : num) (q : Q) :
  nceil x + Fin 2 = Fin q -> exists z, q = inject_Z z /\ nceil x = ofZ (z - 2).
Proof.
  destruct x as [x| | |]; cbn [nceil nadd ofZ]; try discriminate.
  intro H. injection H as <-.
  exists (Qceiling x + 2)%Z. split.
  - rewrite <- (Qred_inject_Z (Qceiling x + 2)). apply Qred_complete.
    rewrite inject_Z_plus. reflexivity.
  - unfold ofZ. do 2 f_equal. lia.
Qed.

(** ** Facts on loops *)

Lemma Zseq_length (i : Z) (n : nat) : List.length (Zseq i n) = n.
Proof. revert i. induction n; intro i; simpl; auto. Qed.

Lemma Zseq_In (n : nat) : forall i k, In k (Zseq i n) <-> (i <= k < i + Z.of_nat n)%Z.
Proof.
  induction n as [|n IH]; intros i k; simpl.
  - lia.
  - rewrite IH. lia.
Qed.

Lemma incr_below (i : Z) : (i < 2 ^ 53)%Z -> incr i = (i + 1)%Z.
Proof.
  intro H. unfold incr. destruct (Z.ltb_spec i (2 ^ 53)); [reflexivity|lia].
Qed.

Lemma incr_stuck (i : Z) : (2 ^ 53 <= i)%Z -> incr i = i.
Proof.
  intro H. unfold incr. destruct (Z.ltb_spec i (2 ^ 53)); [lia|reflexivity].
Qed.

Lemma incr_le (i : Z) : (i <= 2 ^ 53)%Z -> (incr i <= 2 ^ 53)%Z.
Proof.
  intro H. unfold incr. destruct (Z.ltb_spec i (2 ^ 53)); lia.
Qed.

(** a bound above 2^53 is above every counter up to 2^53 *)
Lemma nlt_below_2p53 (bound : num) (i : Z) :
  nlt (ofZ (2 ^ 53)) bound = true -> (i <= 2 ^ 53)%Z ->
  nlt (ofZ i) bound = true.
Proof.
  destruct bound as [q| | |]; try (cbn [nlt ofZ]; congruence).
  rewrite !nlt_ofZ_Fin. lia.
Qed.

Section Loops.

Context {S : Type}.

(** A loop with a finite bound of at most 2^53 runs its body on
    [i, i+1, ...] up to the bound, given fuel for one test more than it has
    iterations. *)
Lemma for_lt_finite (body : Z -> S -> option S) (f : Z -> S -> S) (q : Q) :
  (forall i s, body i s = Some (f i s)) ->
  (Qceiling q <= 2 ^ 53)%Z ->
  forall (n : nat) (i : Z) (s : S) (fuel : nat),
    Z.of_nat n = Z.max 0 (Qceiling q - i) ->
    (n < fuel)%nat ->
    for_lt fuel i (Fin q) body s = Some (fold_left (fun s i => f i s) (Zseq i n) s).
Proof.
  intros Hbody Hq n. induction n as [|n IH]; intros i s fuel Hn Hfuel.
  - destruct fuel as [|fuel]; [lia|]. cbn [for_lt Zseq fold_left].
    destruct (nlt (ofZ i) (Fin q)) eqn:E; [|reflexivity].
    apply nlt_ofZ_Fin in E. lia.
  - destruct fuel as [|fuel]; [lia|].
    cbn [for_lt Zseq fold_left].
    assert (E : nlt (ofZ i) (Fin q) = true) by (apply nlt_ofZ_Fin; lia).
    rewrite E, Hbody, incr_below by lia. apply IH; lia.
Qed.

(** A loop whose body does not return does not return. *)
Lemma for_lt_body_None (body : Z -> S -> option S) (bound : num)
  (fuel : nat) (i : Z) (s : S) :
  nlt (ofZ i) bound = true -> body i s = None ->
  for_lt fuel i bound body s = None.
Proof.
  intros Ht Hb. destruct fuel as [|fuel]; trivial.
  cbn [for_lt]. rewrite Ht, Hb. reflexivity.
Qed.

(** A loop whose bound is above 2^53 never finishes: its counter stops at
    2^53, below the bound. *)
Lemma for_lt_stalls (body : Z -> S -> option S) (bound : num) :
  nlt (ofZ (2 ^ 53)) bound = true ->
  forall (fuel : nat) (i : Z) (s : S),
    (i <= 2 ^ 53)%Z -> for_lt fuel i bound body s = None.
Proof.
  intro Hb. induction fuel as [|fuel IH]; intros i s Hi; cbn [for_lt]; trivial.
  rewrite (nlt_below_2p53 bound i Hb Hi).
  destruct (body i s); trivial.
  apply IH. apply incr_le. exact Hi.
Qed.

(** A loop whose bound is [Infinity] never finishes. *)
Lemma for_lt_PInf (body : Z -> S -> option S) :
  forall (fuel : nat) (i : Z) (s : S), for_lt fuel i PInf body s = None.
Proof.
  induction fuel as [|fuel IH]; intros i s; simpl; trivial.
  destruct (body i s); auto.
Qed.

(** A loop whose bound is [NaN] does not run its body. *)
Lemma for_lt_NaN (body : Z -> S -> option S) (fuel : nat) (i : Z) (s : S) :
  for_lt (Datatypes.S fuel) i NaN body s = Some s.
Proof. reflexivity. Qed.

(** What a loop returns does not depend on the fuel it had. *)
Lemma for_lt_fuel_irrelevant (bound : num) (body1 body2 : Z -> S -> option S) :
  (forall i s r1 r2, body1 i s = Some r1 -> body2 i s = Some r2 -> r1 = r2) ->
  forall fuel1 fuel2 i s r1 r2,
    for_lt fuel1 i bound body1 s = Some r1 ->
    for_lt fuel2 i bound body2 s = Some r2 ->
    r1 = r2.
Proof.
  intros Hbody. induction fuel1 as [|fuel1 IH]; intros fuel2 i s r1 r2 H1 H2.
  - discriminate H1.
  - destruct fuel2 as [|fuel2]; [discriminate H2|].
    cbn [for_lt] in H1, H2.
    destruct (nlt (ofZ i) bound).
    + destruct (body1 i s) as [s1|] eqn:E1; [|discriminate].
      destruct (body2 i s) as [s2|] eqn:E2; [|discriminate].
      assert (s1 = s2) by (eapply Hbody; eauto). subst s2.
      eapply IH; eauto.
    + congruence.
Qed.

End Loops.

(** ** Facts on the canvas *)

Lemma draw_all_app (a b : list DrawOp) (c : Canvas) :
  draw_all (a ++ b) c = draw_all b (draw_all a c).
Proof. apply fold_left_app. Qed.

Lemma draw_all_frame (ops : list DrawOp) : forall c,
  width (draw_all ops c) = width c /\
  height (draw_all ops c) = height c /\
  gstate (draw_all ops c) = gstate c /\
  saved (draw_all ops c) = saved c /\
  drawn (draw_all ops c) = rev ops ++ drawn c.
Proof.
  induction ops as [|op ops IH]; intro c.
  - repeat split.
  - destruct (IH (draw op c)) as (Hw & Hh & Hg & Hs & Hd).
    change (draw_all (op :: ops) c) with (draw_all ops (draw op c)).
    rewrite Hw, Hh, Hg, Hs, Hd. repeat split.
    cbn [draw drawn rev]. rewrite <- app_assoc. reflexivity.
Qed.

Lemma draw_log_draw_all (ops : list DrawOp) (c : Canvas) :
  draw_log (draw_all ops c) = draw_log c ++ ops.
Proof.
  unfold draw_log. destruct (draw_all_frame ops c) as (_ & _ & _ & _ & ->).
  rewrite rev_app_distr, rev_involutive. reflexivity.
Qed.

Lemma flat_map_length_const {A C : Type} (f : A -> list C) (n : nat) (l : list A) :
  (forall a, List.length (f a) = n) ->
  List.length (flat_map f l) = (List.length l * n)%nat.
Proof.
  intro H. induction l as [|a l IH]; simpl; trivial.
  rewrite length_app, H, IH. reflexivity.
Qed.

Lemma tile_ops_length options textWidth textHeight g base (r c : Z) :
  List.length (tile_ops options textWidth textHeight g base r c)
  = (Z.to_nat (r + 1) * Z.to_nat (c + 1))%nat.
Proof.
  unfold tile_ops.
  rewrite flat_map_length_const with (n := Z.to_nat (c + 1)).
  - rewrite Zseq_length. reflexivity.
  - intro a. rewrite length_map, Zseq_length. reflexivity.
Qed.

(** one pass of the loop body leaves the context as it was, one [fillText]
    richer *)
Lemma stamp_draws options textWidth textHeight g row col ctx :
  stamp options textWidth textHeight g row col ctx
  = draw (tile_op options textWidth textHeight g (gstate ctx) row col) ctx.
Proof. destruct ctx. reflexivity. Qed.

Lemma fold_stamp_cols options textWidth textHeight g row (l : list Z) :
  forall ctx,
    fold_left (fun ctx col => stamp options textWidth textHeight g row col ctx) l ctx
    = draw_all (map (tile_op options textWidth textHeight g (gstate ctx) row) l) ctx.
Proof.
  induction l as [|col l IH]; intro ctx; trivial.
  cbn [fold_left map draw_all]. rewrite IH, stamp_draws. reflexivity.
Qed.

Lemma fold_stamp_rows options textWidth textHeight g (cs rs : list Z) :
  forall ctx,
    fold_left
      (fun ctx row =>
         fold_left (fun ctx col => stamp options textWidth textHeight g row col ctx) cs ctx)
      rs ctx
    = draw_all
        (flat_map
           (fun row => map (tile_op options textWidth textHeight g (gstate ctx) row) cs)
           rs)
        ctx.
Proof.
  induction rs as [|row rs IH]; intro ctx; trivial.
  cbn [fold_left flat_map]. rewrite draw_all_app, IH, fold_stamp_cols.
  destruct (draw_all_frame
              (map (tile_op options textWidth textHeight g (gstate ctx) row) cs) ctx)
    as (_ & _ & -> & _).
  reflexivity.
Qed.

(** With at most 2^53 columns and rows the double loop ends, having drawn
    the tiles of rows [-1 .. rows-1] and columns [-1 .. cols-1] in order. *)
Lemma draw_tiles_finite options textWidth textHeight g ctx (c r : Z) (fuel : nat) :
  cols g = ofZ c -> rows g = ofZ r ->
  (c <= 2 ^ 53)%Z -> (r <= 2 ^ 53)%Z ->
  (Z.to_nat (Z.max (r + 1) (c + 1)) < fuel)%nat ->
  draw_tiles fuel options textWidth textHeight g ctx
  = Some (draw_all (tile_ops options textWidth textHeight g (gstate ctx) r c) ctx).
Proof.
  intros Hc Hr Hcb Hrb Hfuel. unfold draw_tiles, tile_ops. rewrite Hc, Hr.
  rewrite <- fold_stamp_rows.
  unfold ofZ.
  apply for_lt_finite
    with (f := fun row ctx =>
                 fold_left
                   (fun ctx col => stamp options textWidth textHeight g row col ctx)
                   (Zseq (-1) (Z.to_nat (c + 1))) ctx).
  - intros row s.
    apply for_lt_finite with (f := fun col ctx => stamp options textWidth textHeight g row col ctx).
    + reflexivity.
    + rewrite Qceiling_Z. exact Hcb.
    + rewrite Qceiling_Z. lia.
    + lia.
  - rewrite Qceiling_Z. exact Hrb.
  - rewrite Qceiling_Z. lia.
  - lia.
Qed.

(** With more than 2^53 columns the first row is never finished, whether the
    number of columns is finite or not. *)
Lemma draw_tiles_stalls options textWidth textHeight g ctx :
  nlt (ofZ (2 ^ 53)) (cols g) = true -> nlt (ofZ (-1)) (rows g) = true ->
  forall fuel, draw_tiles fuel options textWidth textHeight g ctx = None.
Proof.
  intros Hc Hr fuel. unfold draw_tiles.
  destruct fuel as [|fuel]; trivial.
  apply for_lt_body_None; [exact Hr|].
  apply for_lt_stalls; [exact Hc|vm_compute; discriminate].
Qed.

(** With infinitely many columns the first row is never finished. *)
Lemma draw_tiles_diverges options textWidth textHeight g ctx :
  cols g = PInf -> nlt (ofZ (-1)) (rows g) = true ->
  forall fuel, draw_tiles fuel options textWidth textHeight g ctx = None.
Proof.
  intros Hc Hr fuel. unfold draw_tiles. rewrite Hc.
  destruct fuel as [|fuel]; trivial.
  cbn [for_lt]. rewrite Hr, for_lt_PInf. reflexivity.
Qed.

(** With more than 2^53 rows the loop over the rows is never finished. *)
Lemma draw_tiles_stalls_rows options textWidth textHeight g ctx :
  nlt (ofZ (2 ^ 53)) (rows g) = true ->
  forall fuel, draw_tiles fuel options textWidth textHeight g ctx = None.
Proof.
  intros Hr fuel. unfold draw_tiles.
  apply for_lt_stalls; [exact Hr|vm_compute; discriminate].
Qed.

Section Invariant.

Context {S : Type} (P : S -> Prop).

Lemma for_lt_invariant (body : Z -> S -> option S) :
  (forall i s s', P s -> body i s = Some s' -> P s') ->
  forall fuel i bound s s',
    P s -> for_lt fuel i bound body s = Some s' -> P s'.
Proof.
  intro Hbody. induction fuel as [|fuel IH]; intros i bound s s' Hs H.
  - discriminate H.
  - cbn [for_lt] in H. destruct (nlt (ofZ i) bound).
    + destruct (body i s) as [s1|] eqn:E; [|discriminate].
      eapply IH; [|exact H]. eapply Hbody; eauto.
    + injection H as <-. exact Hs.
Qed.

End Invariant.

(** ** Facts on [addWatermark] *)

Section RenderFacts.

Variable B : Browser.

(** a fact on the prepared canvas, whichever of its three settings took *)
Ltac prepare_cases :=
  unfold prepare, set_font, set_fillStyle, set_globalAlpha;
  destruct (font_parses _), (parses_as_color _ _), (alpha_in_range _);
  reflexivity.

Lemma prepare_width document image options :
  width (prepare B document image options) = img_width image.
Proof. prepare_cases. Qed.

Lemma prepare_height document image options :
  height (prepare B document image options) = img_height image.
Proof. prepare_cases. Qed.

Lemma prepare_log document image options :
  draw_log (prepare B document image options) = [DrawImage image (Fin 0) (Fin 0)].
Proof. prepare_cases. Qed.

Lemma prepare_ctm document image options :
  ctm (gstate (prepare B document image options)) = [].
Proof. prepare_cases. Qed.

Lemma prepare_saved document image options :
  saved (prepare B document image options) = [].
Proof. prepare_cases. Qed.


(** In tile mode with finitely many columns and rows, enough fuel yields the
    prepared canvas with every tile drawn on it. *)
Lemma render_tile_finite document image options (qc qr : Q) (fuel : nat) :
  mode options = tile ->
  let ctx := prepare B document image options in
  let textWidth := measureText B ctx (text options) in
  let g := tile_geometry B ctx options textWidth (fontSize options) in
  cols g = Fin qc -> rows g = Fin qr ->
  (Qceiling qc <= 2 ^ 53)%Z -> (Qceiling qr <= 2 ^ 53)%Z ->
  (Z.to_nat (Z.max (Qceiling qr + 1) (Qceiling qc + 1)) < fuel)%nat ->
  render_surface B fuel document image options
  = Some (draw_all
            (tile_ops options textWidth (fontSize options) g (gstate ctx)
               (Qceiling qr) (Qceiling qc))
            ctx).
Proof.
  intros Hmode ctx textWidth g Hc Hr Hcb Hrb Hfuel.
  unfold render_surface. rewrite Hmode.
  fold ctx. fold textWidth. fold g.
  apply draw_tiles_finite; trivial.
  - rewrite Hc. unfold g, tile_geometry in Hc. cbn [cols] in Hc.
    apply nceil_plus2_integer in Hc. destruct Hc as (z & -> & _).
    rewrite Qceiling_Z. reflexivity.
  - rewrite Hr. unfold g, tile_geometry in Hr. cbn [rows] in Hr.
    apply nceil_plus2_integer in Hr. destruct Hr as (z & -> & _).
    rewrite Qceiling_Z. reflexivity.
Qed.

(** every operation of the compositor keeps the size of the surface *)
Lemma stamp_size options textWidth textHeight g row col ctx :
  width (stamp options textWidth textHeight g row col ctx) = width ctx /\
  height (stamp options textWidth textHeight g row col ctx) = height ctx.
Proof. rewrite stamp_draws. split; reflexivity. Qed.

Lemma draw_tiles_size options textWidth textHeight g (w h : N) :
  forall fuel ctx out,
    width ctx = w /\ height ctx = h ->
    draw_tiles fuel options textWidth textHeight g ctx = Some out ->
    width out = w /\ height out = h.
Proof.
  intros fuel ctx out Hctx. unfold draw_tiles.
  apply for_lt_invariant with (P := fun c => width c = w /\ height c = h); trivial.
  intros row s s' Hs.
  apply for_lt_invariant with (P := fun c => width c = w /\ height c = h); trivial.
  intros col c c' Hc Heq. injection Heq as <-.
  destruct (stamp_size options textWidth textHeight g row col c) as [-> ->].
  exact Hc.
Qed.

Lemma draw_single_size options textWidth textHeight ctx :
  width (draw_single B options textWidth textHeight ctx) = width ctx /\
  height (draw_single B options textWidth textHeight ctx) = height ctx.
Proof.
  unfold draw_single.
  destruct (single_anchor ctx options textWidth textHeight) as [x y].
  destruct ctx. split; reflexivity.
Qed.

(** the result of the double loop does not depend on the fuel *)
Lemma draw_tiles_fuel_irrelevant options textWidth textHeight g ctx fuel1 fuel2 r1 r2 :
  draw_tiles fuel1 options textWidth textHeight g ctx = Some r1 ->
  draw_tiles fuel2 options textWidth textHeight g ctx = Some r2 ->
  r1 = r2.
Proof.
  unfold draw_tiles. apply for_lt_fuel_irrelevant.
  intros row s. apply for_lt_fuel_irrelevant.
  intros col c a b Ha Hb. congruence.
Qed.

End RenderFacts.

(** ** Tile mode against the specification *)

Section TileRefinement.

Variable B : Browser.
Variable document : Document.
Variable image : HTMLImageElement.
Variable options : WatermarkOptions.

Let ctx := prepare B document image options.
Let textWidth := measureText B ctx (text options).
Let g := tile_geometry B ctx options textWidth (fontSize options).
Let W := img_width image.
Let H := img_height image.

Lemma tile_geometry_fields :
  angle g = Spec.theta B options /\
  rotatedWidth g = Spec.rotatedWidth B options textWidth /\
  rotatedHeight g = Spec.rotatedHeight B options textWidth /\
  spacingGap g = Spec.spacingGap B options textWidth /\
  cellWidth g = Spec.cellWidth B options textWidth /\
  cellHeight g = Spec.cellHeight B options textWidth /\
  cols g = Spec.cols B W options textWidth /\
  rows g = Spec.rows B H options textWidth /\
  startX g = Spec.startX B W options textWidth /\
  startY g = Spec.startY B H options textWidth.
Proof.
  assert (Hw : width ctx = W) by apply prepare_width.
  assert (Hh : height ctx = H) by apply prepare_height.
  unfold g, tile_geometry.
  cbn [angle rotatedWidth rotatedHeight spacingGap cellWidth cellHeight
       cols rows startX startY].
  rewrite Hw, Hh.
  repeat split; try reflexivity.
  - unfold Spec.startX. rewrite (nmul_comm (ofN W)). reflexivity.
  - unfold Spec.startY. rewrite (nmul_comm (ofN H)). reflexivity.
Qed.

Lemma tile_op_stamp row col :
  stamp_of_op (tile_op options textWidth (fontSize options) g (gstate ctx) row col)
  = Some (Spec.stamp_at B W H options textWidth row col).
Proof.
  destruct tile_geometry_fields
    as (Ha & Hrw & Hrh & _ & Hcw & Hch & _ & _ & Hsx & Hsy).
  unfold tile_op, tile_state, stamp_of_op, Spec.stamp_at, Spec.cell_center.
  unfold centerX, centerY. cbn [ctm].
  rewrite (prepare_ctm B document image options : ctm (gstate ctx) = []).
  rewrite Ha, Hrw, Hrh, Hcw, Hch, Hsx, Hsy. reflexivity.
Qed.

Lemma tile_ops_stamps (r c : Z) :
  map stamp_of_op (tile_ops options textWidth (fontSize options) g (gstate ctx) r c)
  = map Some (Spec.stamps B W H options textWidth r c).
Proof.
  unfold tile_ops, Spec.stamps.
  induction (Zseq (-1) (Z.to_nat (r + 1))) as [|row rs IH]; trivial.
  cbn [flat_map]. rewrite !map_app, IH. f_equal.
  rewrite !map_map. apply map_ext. intro col. apply tile_op_stamp.
Qed.

End TileRefinement.

(** the transformation a tile is drawn under places what is drawn at an
    offset from the origin at that offset, rotated, from the center of the
    cell *)
Lemma tile_state_places_about_center (B : Browser) (g : TileGeometry)
  (base : GState) (row col : Z) (p : num * num) :
  ctm base = [] ->
  apply_ctm B (ctm (tile_state g base row col)) p
  = offset_about B (angle g) (centerX g col, centerY g row) p.
Proof.
  intro Hbase. unfold tile_state, apply_ctm, offset_about.
  cbn [ctm]. rewrite Hbase.
  cbn [fold_left apply_transform fst snd].
  rewrite (nadd_comm _ (centerX g col)), (nadd_comm _ (centerY g row)).
  reflexivity.
Qed.

(** C1. In tile mode [addWatermark] computes the values of the specification
    (the angle, the rotated bounding box, the spacing gap, the cell size, the
    numbers of columns and rows, the start of the grid), and, when the numbers
    of columns and rows are finite and at most 2^53 (the largest value a loop
    counter reaches), it draws the source image and then stamps the text once
    per (row, col), row from -1 to rows-1 and col from -1 to cols-1, each
    rotated by the angle about the center of its cell and drawn at
    (-textWidth/2, textHeight/4) from that center. *)
Theorem tile_mode_computes_spec_algorithm
  (B : Browser) (document : Document) (image : HTMLImageElement)
  (options : WatermarkOptions) :
  mode options = tile ->
  let W := img_width image in
  let H := img_height image in
  let ctx := prepare B document image options in
  let textWidth := measureText B ctx (text options) in
  let g := tile_geometry B ctx options textWidth (fontSize options) in
  (angle g = Spec.theta B options /\
   rotatedWidth g = Spec.rotatedWidth B options textWidth /\
   rotatedHeight g = Spec.rotatedHeight B options textWidth /\
   spacingGap g = Spec.spacingGap B options textWidth /\
   cellWidth g = Spec.cellWidth B options textWidth /\
   cellHeight g = Spec.cellHeight B options textWidth /\
   cols g = Spec.cols B W options textWidth /\
   rows g = Spec.rows B H options textWidth /\
   startX g = Spec.startX B W options textWidth /\
   startY g = Spec.startY B H options textWidth) /\
  (forall (row col : Z) (p : num * num),
     apply_ctm B (ctm (tile_state g (gstate ctx) row col)) p
     = offset_about B (Spec.theta B options)
         (Spec.cell_center B W H options textWidth row col) p) /\
  forall c r : Q,
    Spec.cols B W options textWidth = Fin c ->
    Spec.rows B H options textWidth = Fin r ->
    exists nc nr : Z,
      Fin c = ofZ nc /\ Fin r = ofZ nr /\
      let ops := tile_ops options textWidth (fontSize options) g (gstate ctx) nr nc in
      map stamp_of_op ops = map Some (Spec.stamps B W H options textWidth nr nc) /\
      forall fuel,
        (nc <= 2 ^ 53)%Z -> (nr <= 2 ^ 53)%Z ->
        (Z.to_nat (Z.max (nr + 1) (nc + 1)) < fuel)%nat ->
        exists out,
          render_surface B fuel document image options = Some out /\
          draw_log out = DrawImage image (Fin 0) (Fin 0) :: ops.
Proof.
  intros Hmode W H ctx textWidth g.
  pose proof (tile_geometry_fields B document image options) as Hg.
  split; [exact Hg|]. split.
  { intros row col p.
    rewrite tile_state_places_about_center by apply prepare_ctm.
    destruct Hg as (Ha & Hrw & Hrh & _ & Hcw & Hch & _ & _ & Hsx & Hsy).
    fold ctx textWidth g W H in Ha, Hrw, Hrh, Hcw, Hch, Hsx, Hsy.
    unfold centerX, centerY, Spec.cell_center.
    rewrite Ha, Hrw, Hrh, Hcw, Hch, Hsx, Hsy. reflexivity. }
  destruct Hg as (_ & _ & _ & _ & _ & _ & Hcols & Hrows & _).
  fold ctx textWidth g W H in Hcols, Hrows.
  intros c r Hc Hr. rewrite <- Hcols in Hc. rewrite <- Hrows in Hr.
  exists (Qceiling c), (Qceiling r).
  assert (Ic : Fin c = ofZ (Qceiling c)).
  { pose proof Hc as Hc'. unfold g, tile_geometry in Hc'. cbn [cols] in Hc'.
    apply nceil_plus2_integer in Hc'. destruct Hc' as (z & -> & _).
    rewrite Qceiling_Z. reflexivity. }
  assert (Ir : Fin r = ofZ (Qceiling r)).
  { pose proof Hr as Hr'. unfold g, tile_geometry in Hr'. cbn [rows] in Hr'.
    apply nceil_plus2_integer in Hr'. destruct Hr' as (z & -> & _).
    rewrite Qceiling_Z. reflexivity. }
  split; [exact Ic|]. split; [exact Ir|]. split.
  - apply tile_ops_stamps.
  - intros fuel Hcb Hrb Hfuel. eexists. split.
    + apply render_tile_finite; eassumption.
    + rewrite draw_log_draw_all, prepare_log. reflexivity.
Qed.

Lemma tile_mode_computes_spec_algorithm_witness :
  let o := Example.with_mode tile Example.options0 in
  exists out,
    render_surface Example.browser 30 Example.empty_document
      (Example.image 1000 1000) o = Some out /\
    map stamp_of_op (tl (draw_log out))
    = map Some (Spec.stamps Example.browser 1000 1000 o (Fin 120) 27 11).
Proof.
  intro o.
  destruct (tile_mode_computes_spec_algorithm Example.browser
              Example.empty_document (Example.image 1000 1000) o eq_refl)
    as (_ & _ & Hs).
  destruct (Hs 11%Q 27%Q eq_refl eq_refl)
    as (nc & nr & Hc & Hr & Hops & Hrun).
  injection Hc as Hc. injection Hr as Hr.
  assert (nc = 11%Z) by congruence. assert (nr = 27%Z) by congruence.
  subst nc nr.
  destruct (Hrun 30%nat) as (out & Hout & Hlog).
  - vm_compute. discriminate.
  - vm_compute. discriminate.
  - vm_compute. lia.
  - exists out. split; [exact Hout|].
    rewrite Hlog. exact Hops.
Defined.

(** ** Numbers that are finite and not negative *)

Lemma nonneg_finite a : nonneg a -> is_finite a.
Proof. intros (q & -> & _). exists q. reflexivity. Qed.

Lemma nonneg_add a b : nonneg a -> nonneg b -> nonneg (a + b).
Proof.
  intros (x & -> & Hx) (y & -> & Hy). exists (Qred (x + y)). split; trivial.
  rewrite Qred_correct. lra.
Qed.

Lemma nonneg_mul a b : nonneg a -> nonneg b -> nonneg (a * b).
Proof.
  intros (x & -> & Hx) (y & -> & Hy). exists (Qred (x * y)). split; trivial.
  rewrite Qred_correct. apply Qmult_le_0_compat; trivial.
Qed.

Lemma nonneg_abs a : is_finite a -> nonneg (nabs a).
Proof.
  intros (x & ->). exists (Qred (Qabs x)). split; trivial.
  rewrite Qred_correct. apply Qabs_nonneg.
Qed.

Lemma ndiv_Fin (x y : Q) :
  Qis0 y = false -> Fin x / Fin y = Fin (Qred (x / y)).
Proof. intro H. cbn [ndiv]. rewrite H. reflexivity. Qed.

Lemma nonneg_div_pos a (y : Q) : nonneg a -> (0 < y)%Q -> nonneg (a / Fin y).
Proof.
  intros (x & -> & Hx) Hy. rewrite ndiv_Fin.
  - exists (Qred (x / y)). split; trivial.
    rewrite Qred_correct. apply Qle_shift_div_l; trivial. lra.
  - destruct (Qis0 y) eqn:E; trivial. apply Qis0_iff in E. lra.
Qed.

Lemma nle_add_nonneg a b : is_finite a -> nonneg b -> nle a (a + b) = true.
Proof.
  intros (x & ->) (y & -> & Hy). cbn [nadd nle].
  apply Qle_bool_iff. rewrite Qred_correct. lra.
Qed.

Lemma is_finite_mul a b : is_finite a -> is_finite b -> is_finite (a * b).
Proof. intros (x & ->) (y & ->). eexists. reflexivity. Qed.

Lemma is_finite_div_const a (y : Q) :
  is_finite a -> Qis0 y = false -> is_finite (a / Fin y).
Proof. intros (x & ->) Hy. rewrite ndiv_Fin by trivial. eexists. reflexivity. Qed.

Section CellSize.

Variable B : Browser.
Hypothesis sane : BrowserSane B.
Variable canvas : Canvas.
Variable options : WatermarkOptions.
Variable textWidth : num.
Hypothesis textWidth_nonneg : nonneg textWidth.
Hypothesis fontSize_nonneg : nonneg (fontSize options).
Hypothesis rotation_finite : is_finite (rotation options).
Hypothesis spacing_nonneg : nonneg (spacing options).

Let g := tile_geometry B canvas options textWidth (fontSize options).

Lemma angle_finite : is_finite (angle g).
Proof.
  unfold g, tile_geometry. cbn [angle].
  apply is_finite_div_const; [|reflexivity].
  apply is_finite_mul; trivial. apply (PI_finite sane).
Qed.

Lemma cos_sin_nonneg : nonneg (cos g) /\ nonneg (sin g).
Proof.
  destruct angle_finite as (a & Ha).
  unfold g, tile_geometry in *. cbn [angle cos sin] in *. rewrite Ha.
  split; apply nonneg_abs.
  - apply (cos_finite sane).
  - apply (sin_finite sane).
Qed.

Lemma rotated_nonneg : nonneg (rotatedWidth g) /\ nonneg (rotatedHeight g).
Proof.
  destruct cos_sin_nonneg as [Hc Hs].
  split; apply nonneg_add; apply nonneg_mul; trivial.
Qed.

Lemma spacingGap_nonneg : nonneg (spacingGap g).
Proof.
  destruct rotated_nonneg as [Hw _].
  apply nonneg_mul; trivial.
  apply nonneg_div_pos; trivial. reflexivity.
Qed.

Lemma cell_at_least_rotated :
  nle (rotatedWidth g) (cellWidth g) = true /\
  nle (rotatedHeight g) (cellHeight g) = true.
Proof.
  destruct rotated_nonneg as [Hw Hh].
  split; apply nle_add_nonneg;
    auto using nonneg_finite, spacingGap_nonneg.
Qed.

End CellSize.

(** two boxes of size [box] centered at consecutive positions of a grid with
    finite start and cells of size [cell] at least [box]: the first ends
    where the second begins, or before *)
Lemma consecutive_boxes_apart (start cell box : num) (k : Z) :
  is_finite start -> is_finite cell -> is_finite box ->
  nle box cell = true ->
  nle (start + ofZ k * cell + box / Fin 2 + box / Fin 2)
      (start + ofZ (k + 1) * cell + box / Fin 2 - box / Fin 2) = true.
Proof.
  intros (s & ->) (c & ->) (b & ->) Hle.
  cbn [nle] in Hle. apply Qle_bool_iff in Hle.
  rewrite !ndiv_Fin by reflexivity.
  unfold ofZ. cbn [nadd nsub nmul nle].
  apply Qle_bool_iff. rewrite !Qred_correct.
  rewrite inject_Z_plus.
  assert (E : ((inject_Z k + inject_Z 1) * c == inject_Z k * c + c)%Q)
    by (change (inject_Z 1) with 1%Q; ring).
  rewrite E. generalize (inject_Z k * c)%Q. intro kc.
  assert (Hb : (b / 2 == b * (1 # 2))%Q) by field.
  rewrite Hb. lra.
Qed.

Lemma example_browser_sane : BrowserSane Example.browser.
Proof.
  split.
  - eexists. reflexivity.
  - intro q. eexists. reflexivity.
  - intro q. eexists. reflexivity.
  - intros f t. cbn [measureText_width Example.browser].
    unfold Example.half_em_width.
    destruct (font_px f) as [px| | |]; try (exists 0%Q; split; [reflexivity|lra]).
    destruct (Qltb 0 px) eqn:E; [|exists 0%Q; split; [reflexivity|lra]].
    apply Qltb_iff in E.
    eexists. split; [reflexivity|].
    rewrite Qred_correct.
    apply Qmult_le_0_compat.
    + apply Qle_shift_div_l; lra.
    + change 0%Q with (inject_Z 0). rewrite <- Zle_Qle. lia.
Qed.

(** C5. For a finite rotation, a spacing that is not negative and a font size
    that is not negative, the cell is at least as wide and as high as the
    rotated bounding box; so the boxes of this size centered at the centers of
    adjacent columns (rows) do not overlap: the one ends where the next
    begins, or before. *)
Theorem tile_cells_do_not_overlap
  (B : Browser) (document : Document) (image : HTMLImageElement)
  (options : WatermarkOptions) :
  BrowserSane B ->
  nonneg (fontSize options) ->
  is_finite (rotation options) ->
  nonneg (spacing options) ->
  let ctx := prepare B document image options in
  let textWidth := measureText B ctx (text options) in
  let g := tile_geometry B ctx options textWidth (fontSize options) in
  nle (rotatedWidth g) (cellWidth g) = true /\
  nle (rotatedHeight g) (cellHeight g) = true /\
  (is_finite (startX g) ->
   forall col,
     nle (centerX g col + rotatedWidth g / Fin 2)
         (centerX g (col + 1) - rotatedWidth g / Fin 2) = true) /\
  (is_finite (startY g) ->
   forall row,
     nle (centerY g row + rotatedHeight g / Fin 2)
         (centerY g (row + 1) - rotatedHeight g / Fin 2) = true).
Proof.
  intros sane Hfs Hrot Hsp ctx textWidth g.
  assert (Htw : nonneg textWidth).
  { destruct (width_finite sane (font (gstate ctx)) (text options))
      as (w & Hw & Hpos).
    exists w. split; trivial. }
  destruct (cell_at_least_rotated B sane ctx options textWidth Htw Hfs Hrot Hsp) as [Hw Hh].
  destruct (rotated_nonneg B sane ctx options textWidth Htw Hfs Hrot) as [Rw Rh].
  pose proof (spacingGap_nonneg B sane ctx options textWidth Htw Hfs Hrot Hsp) as Hgap.
  fold g in Hw, Hh, Rw, Rh, Hgap.
  repeat split; trivial.
  - intros Hsx col. unfold centerX.
    apply consecutive_boxes_apart; trivial.
    + apply nonneg_finite. apply nonneg_add; trivial.
    + apply nonneg_finite; trivial.
  - intros Hsy row. unfold centerY.
    apply consecutive_boxes_apart; trivial.
    + apply nonneg_finite. apply nonneg_add; trivial.
    + apply nonneg_finite; trivial.
Qed.

Lemma tile_cells_do_not_overlap_witness :
  let o := Example.with_mode tile Example.options0 in
  let ctx := prepare Example.browser Example.empty_document (Example.image 1000 1000) o in
  let g := tile_geometry Example.browser ctx o (Fin 120) (Fin 40) in
  nle (rotatedWidth g) (cellWidth g) = true /\
  nle (rotatedHeight g) (cellHeight g) = true /\
  nle (centerX g 0 + rotatedWidth g / Fin 2)
      (centerX g 1 - rotatedWidth g / Fin 2) = true.
Proof.
  intros o ctx g.
  destruct (tile_cells_do_not_overlap Example.browser
              Example.empty_document (Example.image 1000 1000) o)
    as (Hw & Hh & Hx & _).
  - exact example_browser_sane.
  - exists 40%Q. split; [reflexivity|]. vm_compute. discriminate.
  - exists 0%Q. reflexivity.
  - exists 0%Q. split; [reflexivity|]. vm_compute. discriminate.
  - split; [exact Hw|]. split; [exact Hh|].
    apply (Hx (ex_intro _ (-100)%Q eq_refl) 0%Z).
Defined.
(** ** Dimensions and settlement *)

Lemma render_surface_size (B : Browser) fuel document image options out :
  render_surface B fuel document image options = Some out ->
  width out = img_width image /\ height out = img_height image.
Proof.
  unfold render_surface. destruct (mode options).
  - intro H. injection H as <-.
    destruct (draw_single_size B options
                (measureText B (prepare B document image options) (text options))
                (fontSize options) (prepare B document image options)) as [-> ->].
    split; [apply prepare_width|apply prepare_height].
  - apply draw_tiles_size. split; [apply prepare_width|apply prepare_height].
Qed.

Lemma addWatermark_unfold (B : Browser) fuel document image options exportOptions :
  addWatermark B fuel document image options exportOptions
  = if negb (context2d B) then Some (Rejected "TypeError")
    else
      match drawImage_throws B image with
      | Some reason => Some (Rejected reason)
      | None =>
          match render_surface B fuel document image options with
          | Some out =>
              match toDataURL_throws B out with
              | Some reason => Some (Rejected reason)
              | None => Some (Fulfilled (encode B out exportOptions))
              end
          | None => None
          end
      end.
Proof.
  unfold addWatermark, new_Promise, addWatermark_executor.
  destruct (negb (context2d B)); trivial.
  destruct (drawImage_throws B image); trivial.
  destruct (render_surface B fuel document image options) as [out|]; trivial.
  destruct (toDataURL_throws B out); reflexivity.
Qed.

(** when no call throws, the promise is fulfilled once the drawing has ended *)
Lemma addWatermark_fulfilled (B : Browser) fuel document image options
  exportOptions out :
  context2d B = true -> drawImage_throws B image = None ->
  render_surface B fuel document image options = Some out ->
  toDataURL_throws B out = None ->
  addWatermark B fuel document image options exportOptions
  = Some (Fulfilled (encode B out exportOptions)).
Proof.
  intros Hc Hd Hr Ht. rewrite addWatermark_unfold, Hc, Hd, Hr, Ht. reflexivity.
Qed.

(** while the drawing has not ended, the promise is not settled *)
Lemma addWatermark_pending (B : Browser) fuel document image options exportOptions :
  context2d B = true -> drawImage_throws B image = None ->
  render_surface B fuel document image options = None ->
  addWatermark B fuel document image options exportOptions = None.
Proof.
  intros Hc Hd Hr. rewrite addWatermark_unfold, Hc, Hd, Hr. reflexivity.
Qed.

(** once the drawing has ended, the promise is settled *)
Lemma addWatermark_settled (B : Browser) fuel document image options
  exportOptions out :
  render_surface B fuel document image options = Some out ->
  exists p, addWatermark B fuel document image options exportOptions = Some p.
Proof.
  intro Hr. rewrite addWatermark_unfold, Hr.
  destruct (negb (context2d B)); [eexists; reflexivity|].
  destruct (drawImage_throws B image); [eexists; reflexivity|].
  destruct (toDataURL_throws B out); eexists; reflexivity.
Qed.

(** C6. The surface [addWatermark] encodes has the width and the height of the
    source image, in single and in tile mode, whatever the options and the
    export options, and a promise that is fulfilled carries the data URL of
    such a surface.  In single mode the surface is always produced; in tile
    mode it is produced whenever the numbers of columns and rows are finite
    and at most 2^53; the promise is then settled. *)
Theorem output_has_input_dimensions
  (B : Browser) (document : Document) (image : HTMLImageElement)
  (options : WatermarkOptions) (exportOptions : option ExportOptions) :
  (forall fuel out,
     render_surface B fuel document image options = Some out ->
     width out = img_width image /\ height out = img_height image) /\
  (forall fuel url,
     addWatermark B fuel document image options exportOptions
     = Some (Fulfilled url) ->
     exists out,
       render_surface B fuel document image options = Some out /\
       url = encode B out exportOptions /\
       width out = img_width image /\ height out = img_height image) /\
  (mode options = single ->
   forall fuel,
     (exists out, render_surface B fuel document image options = Some out) /\
     exists p,
       addWatermark B fuel document image options exportOptions = Some p) /\
  (mode options = tile ->
   let ctx := prepare B document image options in
   let g := tile_geometry B ctx options (measureText B ctx (text options))
              (fontSize options) in
   counter_reaches (cols g) -> counter_reaches (rows g) ->
   exists fuel,
     (exists out, render_surface B fuel document image options = Some out) /\
     exists p,
       addWatermark B fuel document image options exportOptions = Some p).
Proof.
  split; [|split; [|split]].
  - intros fuel out. apply render_surface_size.
  - intros fuel url. rewrite addWatermark_unfold.
    destruct (negb (context2d B)); [discriminate|].
    destruct (drawImage_throws B image); [discriminate|].
    destruct (render_surface B fuel document image options) as [out|] eqn:E;
      [|discriminate].
    destruct (toDataURL_throws B out); [discriminate|].
    intro H. injection H as <-. exists out.
    destruct (render_surface_size B fuel document image options out E) as [Hw Hh].
    repeat split; trivial.
  - intros Hmode fuel.
    assert (Hr : exists out,
               render_surface B fuel document image options = Some out).
    { unfold render_surface. rewrite Hmode. eexists. reflexivity. }
    split; [exact Hr|].
    destruct Hr as (out & Hr).
    exact (addWatermark_settled B fuel document image options exportOptions out Hr).
  - intros Hmode ctx g (qc & Hc & Hcb) (qr & Hr & Hrb).
    exists (S (Z.to_nat (Z.max (Qceiling qr + 1) (Qceiling qc + 1)))).
    assert (Hs : exists out,
               render_surface B
                 (S (Z.to_nat (Z.max (Qceiling qr + 1) (Qceiling qc + 1))))
                 document image options = Some out).
    { eexists. apply render_tile_finite; eauto. }
    split; [exact Hs|].
    destruct Hs as (out & Hs).
    exact (addWatermark_settled B _ document image options exportOptions out Hs).
Qed.

Lemma output_has_input_dimensions_witness :
  exists out,
    render_surface Example.browser 1 Example.empty_document
      (Example.image 800 600) Example.options0 = Some out /\
    width out = 800%N /\ height out = 600%N.
Proof.
  destruct (output_has_input_dimensions Example.browser Example.empty_document
              (Example.image 800 600) Example.options0 None)
    as (Hsize & _ & Hsingle & _).
  destruct (Hsingle eq_refl 1%nat) as ((out & Hout) & _).
  destruct (Hsize 1%nat out Hout) as (Hw & Hh).
  exists out. split; [exact Hout|]. split; [exact Hw|exact Hh].
Defined.

(** ** Single mode *)

Section SingleRefinement.

Variable B : Browser.
Variable document : Document.
Variable image : HTMLImageElement.
Variable options : WatermarkOptions.

Let ctx := prepare B document image options.
Let textWidth := measureText B ctx (text options).
Let W := img_width image.
Let H := img_height image.

Lemma single_anchor_spec :
  single_anchor ctx options textWidth (fontSize options)
  = Spec.shifted_anchor W H options textWidth.
Proof.
  unfold single_anchor, Spec.shifted_anchor, base_position, Spec.anchor.
  rewrite (prepare_width B document image options : width ctx = W).
  rewrite (prepare_height B document image options : height ctx = H).
  rewrite (nmul_comm (ofN W)), (nmul_comm (ofN H)).
  destruct (position options); reflexivity.
Qed.

(** translating to [c], rotating and translating back is the rotation
    about [c] *)
Lemma rotation_about_center (theta cx cy : num) (p : num * num) :
  apply_ctm B [Translate (- cx) (- cy); Rotate theta; Translate cx cy] p
  = rotate_about B theta (cx, cy) p.
Proof.
  destruct p as [px py]. unfold apply_ctm, rotate_about.
  cbn [fold_left apply_transform fst snd].
  rewrite !nadd_nneg.
  rewrite (nadd_comm _ cx), (nadd_comm _ cy). reflexivity.
Qed.

(** on a context with no transformation, the single branch adds one
    [fillText] to the log, drawn under the three transformations of the
    source *)
Lemma draw_single_on (c : Canvas) (tw th x y : num) :
  ctm (gstate c) = [] ->
  single_anchor c options tw th = (x, y) ->
  exists gs,
    draw_log (draw_single B options tw th c)
    = (draw_log c ++ [FillText (text options) x y gs])%list /\
    ctm gs
    = [Translate (- (x + tw / Fin 2)) (- (y - th / Fin 2));
       Rotate ((rotation options * Math_PI B) / Fin 180);
       Translate (x + tw / Fin 2) (y - th / Fin 2)].
Proof.
  intros Hctm Hxy. unfold draw_single. rewrite Hxy.
  destruct c as [w h [ct f fs ga] sv dr]. cbn [gstate ctm] in Hctm. subst ct.
  eexists. split; reflexivity.
Qed.

Lemma draw_single_log :
  exists gs,
    draw_log (draw_single B options textWidth (fontSize options) ctx)
    = [DrawImage image (Fin 0) (Fin 0);
       FillText (text options)
         (fst (Spec.shifted_anchor W H options textWidth))
         (snd (Spec.shifted_anchor W H options textWidth)) gs] /\
    forall p,
      apply_ctm B (ctm gs) p
      = rotate_about B (Spec.theta B options)
          (Spec.glyph_center W H options textWidth) p.
Proof.
  pose proof single_anchor_spec as Hxy.
  unfold Spec.glyph_center.
  destruct (Spec.shifted_anchor W H options textWidth) as [x y].
  destruct (draw_single_on ctx textWidth (fontSize options) x y
              (prepare_ctm B document image options) Hxy)
    as (gs & Hlog & Hctm).
  exists gs. split.
  - rewrite Hlog.
    rewrite (prepare_log B document image options
             : draw_log ctx = [DrawImage image (Fin 0) (Fin 0)]).
    reflexivity.
  - intro p. rewrite Hctm. cbn [fst snd].
    apply rotation_about_center.
Qed.

End SingleRefinement.

(** C7. In single mode [addWatermark] draws the source image and then the text
    once, at the anchor of the specification (by position, then shifted by the
    offsets), under a transformation that is the rotation by
    rotation * pi / 180 about (x + textWidth/2, y - textHeight/2).  On an
    800 x 600 image with font size 40, position center and zero offsets the
    anchor is ((800 - textWidth)/2, 320), hence within one pixel of it. *)
Theorem single_mode_placement
  (B : Browser) (document : Document) (image : HTMLImageElement)
  (options : WatermarkOptions) :
  mode options = single ->
  let W := img_width image in
  let H := img_height image in
  let ctx := prepare B document image options in
  let textWidth := measureText B ctx (text options) in
  let xy := Spec.shifted_anchor W H options textWidth in
  (forall fuel, exists out gs,
     render_surface B fuel document image options = Some out /\
     draw_log out
     = [DrawImage image (Fin 0) (Fin 0);
        FillText (text options) (fst xy) (snd xy) gs] /\
     forall p,
       apply_ctm B (ctm gs) p
       = rotate_about B (Spec.theta B options)
           (Spec.glyph_center W H options textWidth) p) /\
  (forall tw : Q,
     W = 800%N -> H = 600%N ->
     fontSize options = Fin 40 -> position options = center ->
     offsetX options = Fin 0 -> offsetY options = Fin 0 ->
     textWidth = Fin tw ->
     exists x y : Q,
       xy = (Fin x, Fin y) /\
       (x == (800 - tw) / 2)%Q /\ (y == 320)%Q /\
       (Qabs (x - (800 - tw) / 2) <= 1)%Q /\ (Qabs (y - 320) <= 1)%Q).
Proof.
  intros Hmode W H ctx textWidth xy. split.
  - intro fuel.
    destruct (draw_single_log B document image options) as (gs & Hlog & Hrot).
    eexists. exists gs. split; [|split].
    + unfold render_surface. rewrite Hmode. reflexivity.
    + exact Hlog.
    + exact Hrot.
  - intros tw HW HH Hfs Hpos Hox Hoy Htw.
    unfold xy, Spec.shifted_anchor, Spec.anchor, Spec.textHeight.
    rewrite Hpos, Hox, Hoy, Hfs, Htw, HW, HH.
    unfold ofN, ofZ. rewrite !ndiv_Fin by reflexivity.
    cbn [nadd nsub nmul fst snd].
    eexists. eexists. split; [reflexivity|].
    assert (Ex : (Qred (Qred (Qred (inject_Z (Z.of_N 800) - tw) / 2)
                        + Qred (Qred (0 / 100) * inject_Z (Z.of_N 800)))
                  == (800 - tw) / 2)%Q).
    { rewrite !Qred_correct. change (inject_Z (Z.of_N 800)) with 800%Q. field. }
    assert (Ey : (Qred (Qred (Qred (inject_Z (Z.of_N 600) + 40) / 2)
                        + Qred (Qred (0 / 100) * inject_Z (Z.of_N 600)))
                  == 320)%Q).
    { rewrite !Qred_correct. reflexivity. }
    split; [exact Ex|]. split; [exact Ey|].
    rewrite Ex, Ey. split.
    + setoid_replace ((800 - tw) / 2 - (800 - tw) / 2)%Q with 0%Q by ring.
      discriminate.
    + discriminate.
Qed.

Lemma single_mode_placement_witness :
  exists out gs,
    render_surface Example.browser 1 Example.empty_document
      (Example.image 800 600) Example.options0 = Some out /\
    draw_log out
    = [DrawImage (Example.image 800 600) (Fin 0) (Fin 0);
       FillText "SAMPLE" (Fin 340) (Fin 320) gs].
Proof.
  destruct (single_mode_placement Example.browser Example.empty_document
              (Example.image 800 600) Example.options0 eq_refl)
    as [Hrun _].
  destruct (Hrun 1%nat) as (out & gs & Hout & Hlog & _).
  exists out, gs. split; [exact Hout|exact Hlog].
Defined.

(** ** The decoder *)

Local Open Scope string_scope.

Lemma endsWith_suffix (s suffix : string) :
  endsWith s suffix = true <-> exists pre, s = pre ++ suffix.
Proof.
  induction s as [|c s IH]; cbn [endsWith].
  - destruct (String.eqb EmptyString suffix) eqn:E.
    + apply String.eqb_eq in E. subst. split; trivial.
      intros _. exists EmptyString. reflexivity.
    + split; [discriminate|]. intros (pre & H).
      destruct pre; [|discriminate].
      simpl in H. subst. rewrite String.eqb_refl in E. discriminate.
  - destruct (String.eqb (String c s) suffix) eqn:E.
    + apply String.eqb_eq in E. split; trivial.
      intros _. exists EmptyString. exact E.
    + rewrite IH. split.
      * intros (pre & ->). exists (String c pre). reflexivity.
      * intros (pre & H). destruct pre as [|d pre].
        -- simpl in H. subst. rewrite String.eqb_refl in E. discriminate.
        -- injection H as _ ->. exists pre. reflexivity.
Qed.

Lemma toLowerCase_app (a b : string) :
  toLowerCase (a ++ b) = toLowerCase a ++ toLowerCase b.
Proof.
  induction a as [|c a IH]; simpl; trivial. rewrite IH. reflexivity.
Qed.

Lemma toLowerCase_split (a b : string) : forall s,
  toLowerCase s = a ++ b ->
  exists a' b', s = a' ++ b' /\ toLowerCase a' = a /\ toLowerCase b' = b.
Proof.
  induction a as [|c a IH]; intros s H.
  - exists EmptyString, s. repeat split. exact H.
  - destruct s as [|d s]; [discriminate|].
    simpl in H. injection H as Hc Hs.
    destruct (IH s Hs) as (a' & b' & -> & Ha & Hb).
    exists (String d a'), b'. repeat split; trivial.
    simpl. rewrite Hc, Ha. reflexivity.
Qed.

(** the test of the code on the lowered name is the test letter case apart *)
Lemma endsWith_lower_ci (s suffix : string) :
  toLowerCase suffix = suffix ->
  endsWith (toLowerCase s) suffix = true <-> Spec.ends_with_ci s suffix.
Proof.
  intro Hlow. rewrite endsWith_suffix. unfold Spec.ends_with_ci. split.
  - intros (pre & H). apply toLowerCase_split in H.
    destruct H as (a & b & -> & _ & Hb).
    exists a, b. split; trivial. congruence.
  - intros (pre & tail & -> & H).
    exists (toLowerCase pre). rewrite toLowerCase_app. congruence.
Qed.

Section DecoderFacts.

Variable readAsDataURL : Blob -> option string.
Variable decodeImage : string -> option HTMLImageElement.

Lemma isHeic_spec (file : File) : isHeic file = true <-> Spec.is_heic file.
Proof.
  unfold isHeic, Spec.is_heic.
  rewrite !orb_true_iff, !String.eqb_eq.
  rewrite !endsWith_lower_ci by reflexivity.
  tauto.
Qed.

Lemma read_and_decode_calls (b : option Blob) :
  hd_error (calls (read_and_decode readAsDataURL decodeImage b))
  = Some (CallReadAsDataURL b) /\
  forall c, In c (calls (read_and_decode readAsDataURL decodeImage b)) ->
            ~ is_heic2any_call c.
Proof.
  unfold read_and_decode. destruct b as [b|].
  - destruct (readAsDataURL b); split; trivial;
      intros c Hc; simpl in Hc; intuition (subst; auto).
  - split; trivial. intros c Hc; simpl in Hc; intuition (subst; auto).
Qed.

End DecoderFacts.

(** C9. [loadImage] asks [heic2any] for a conversion exactly when the type of
    the file is image/heic or image/heif or its name ends, letter case apart,
    in .heic or .heif; it does so first, with the blob of the file, target
    type image/jpeg and quality 0.95, and reads what the conversion returned.
    Otherwise the first thing it does is to read the blob of the file itself,
    and [heic2any] is not called. *)
Theorem loadImage_converts_exactly_heic
  (heic2any : Blob -> string -> num -> Heic2anyResult Blob)
  (readAsDataURL : Blob -> option string)
  (decodeImage : string -> option HTMLImageElement)
  (file : File) :
  let loaded := loadImage heic2any readAsDataURL decodeImage file in
  (Spec.is_heic file ->
   hd_error (calls loaded)
   = Some (CallHeic2any (file_blob file) "image/jpeg" (Fin (19 # 20))) /\
   loaded
   = after (CallHeic2any (file_blob file) "image/jpeg" (Fin (19 # 20)))
       match heic2any (file_blob file) "image/jpeg" (Fin (19 # 20)) with
       | OneBlob b => read_and_decode readAsDataURL decodeImage (Some b)
       | BlobArray bs => read_and_decode readAsDataURL decodeImage (nth_error bs 0)
       | ConversionFailed =>
           {| calls := [];
              outcome := Rejected "HEIC 格式转换失败，请确保文件有效" |}
       end) /\
  (~ Spec.is_heic file ->
   loaded = read_and_decode readAsDataURL decodeImage (Some (file_blob file)) /\
   hd_error (calls loaded) = Some (CallReadAsDataURL (Some (file_blob file))) /\
   forall c, In c (calls loaded) -> ~ is_heic2any_call c) /\
  ((exists c, In c (calls loaded) /\ is_heic2any_call c) <-> Spec.is_heic file).
Proof.
  intro loaded. unfold loaded, loadImage.
  pose proof (isHeic_spec file) as Hiff.
  destruct (isHeic file) eqn:E.
  - assert (Hh : Spec.is_heic file) by (apply Hiff; reflexivity).
    split; [|split].
    + intros _. split; reflexivity.
    + intro Hn. contradiction.
    + split; trivial. intros _. eexists. split; [left; reflexivity|exact I].
  - assert (Hn : ~ Spec.is_heic file).
    { intro Hh. apply Hiff in Hh. discriminate. }
    destruct (read_and_decode_calls readAsDataURL decodeImage
                (Some (file_blob file))) as [Hhd Hno].
    split; [|split].
    + intro Hh. contradiction.
    + intros _. repeat split; trivial.
    + split; [|intro Hh; contradiction].
      intros (c & Hin & Hc). exfalso. exact (Hno c Hin Hc).
Qed.

Local Close Scope string_scope.

Lemma loadImage_converts_exactly_heic_witness :
  hd_error (calls (loadImage Example.heic2any Example.readAsDataURL
                     Example.decodeImage Example.photo))
  = Some (CallHeic2any (file_blob Example.photo) "image/jpeg" (Fin (19 # 20))).
Proof.
  destruct (loadImage_converts_exactly_heic Example.heic2any
              Example.readAsDataURL Example.decodeImage Example.photo)
    as (Hheic & _ & _).
  apply Hheic.
  right. right. left. exists "IMG_0001"%string, ".HEIC"%string.
  split; reflexivity.
Defined.

(** ** Degenerate cells *)

Lemma Qred_zero (q : Q) : (q == 0)%Q -> Qred q = 0%Q.
Proof. intro H. apply (Qred_complete q 0 H). Qed.

Section Upright.

Variable B : Browser.
Variable document : Document.
Variable image : HTMLImageElement.
Variable options : WatermarkOptions.

Let ctx := prepare B document image options.
Let textWidth := measureText B ctx (text options).
Let g := tile_geometry B ctx options textWidth (fontSize options).

Hypothesis PI_fin : is_finite (Math_PI B).
Hypothesis cos_0 : Math_cos B (Fin 0) = Fin 1.
Hypothesis sin_0 : Math_sin B (Fin 0) = Fin 0.
Hypothesis no_width : textWidth = Fin 0.
Hypothesis upright : rotation options = Fin 0.
Hypothesis spacing_finite : is_finite (spacing options).
Variable fs : Q.
Hypothesis font : fontSize options = Fin fs.
Hypothesis font_pos : (0 < fs)%Q.

Lemma upright_angle : angle g = Fin 0.
Proof.
  unfold g, tile_geometry. cbn [angle]. rewrite upright.
  destruct PI_fin as (pi & ->). cbn [nmul].
  rewrite ndiv_Fin by reflexivity.
  reflexivity.
Qed.

Lemma upright_empty_cell :
  cellWidth g = Fin 0 /\ cellHeight g = Fin (Qred fs).
Proof.
  pose proof upright_angle as Ha.
  unfold g, tile_geometry in *. cbn [angle cellWidth cellHeight] in *.
  rewrite Ha, cos_0, sin_0, no_width, font.
  destruct spacing_finite as (sp & ->).
  rewrite ndiv_Fin by reflexivity.
  cbn [nabs nmul nadd]. split; f_equal.
  - apply Qred_zero. rewrite !Qred_correct.
    change (Qabs 1) with 1%Q. change (Qabs 0) with 0%Q. field.
  - apply Qred_complete. rewrite !Qred_correct.
    change (Qabs 1) with 1%Q. change (Qabs 0) with 0%Q. field.
Qed.

(** an empty text at rotation 0 on an image that has a width: the cell has no
    width, the number of columns is [Infinity] *)
Lemma upright_empty_cols :
  (0 < img_width image)%N -> cols g = PInf.
Proof.
  intro HW. destruct upright_empty_cell as [Hcw _].
  unfold g, tile_geometry in *. cbn [cellWidth cols] in *.
  rewrite Hcw.
  rewrite (prepare_width B document image options
           : width ctx = img_width image).
  unfold ofN, ofZ. cbn [ndiv].
  change (Qis0 0) with true. cbn iota.
  assert (Hpos : (0 < inject_Z (Z.of_N (img_width image)))%Q).
  { change 0%Q with (inject_Z 0). rewrite <- Zlt_Qlt. lia. }
  destruct (Qis0 (inject_Z (Z.of_N (img_width image)))) eqn:E.
  - apply Qis0_iff in E. rewrite E in Hpos. discriminate.
  - apply Qltb_iff in Hpos. rewrite Hpos. reflexivity.
Qed.

Lemma upright_empty_rows : nlt (ofZ (-1)) (rows g) = true.
Proof.
  destruct upright_empty_cell as [_ Hch].
  unfold g, tile_geometry in *. cbn [cellHeight rows] in *.
  rewrite Hch.
  rewrite (prepare_height B document image options
           : height ctx = img_height image).
  unfold ofN. unfold ofZ at 2. rewrite ndiv_Fin.
  - cbn [nceil]. change (Fin 2) with (ofZ 2).
    rewrite ofZ_add. apply nlt_ofZ_ofZ.
    assert (0 <= Qceiling (Qred (inject_Z (Z.of_N (img_height image)) / Qred fs)))%Z;
      [|lia].
    rewrite <- (Qceiling_Z 0). apply Qceiling_resp_le.
    rewrite !Qred_correct. apply Qle_shift_div_l; trivial.
    rewrite Qmult_0_l. change 0%Q with (inject_Z 0). rewrite <- Zle_Qle. lia.
  - destruct (Qis0 (Qred fs)) eqn:E; trivial.
    apply Qis0_iff in E. rewrite Qred_correct in E. rewrite E in font_pos.
    discriminate.
Qed.

Lemma upright_empty_text_hangs :
  mode options = tile -> (0 < img_width image)%N ->
  forall fuel, render_surface B fuel document image options = None.
Proof.
  intros Hmode HW fuel. unfold render_surface. rewrite Hmode.
  apply draw_tiles_diverges.
  - apply upright_empty_cols. exact HW.
  - apply upright_empty_rows.
Qed.

End Upright.

(** C2, at the failing input.  Tile mode, the text empty, rotation 0, font
    size 40, on an 800 x 600 image: the rotated width and with it the width of
    the cell is 0, the division of the width of the canvas by it is
    [Infinity], so is the number of columns, and the loop over the columns of
    the first row does not end: with whatever fuel, the promise is not
    settled.  No surface is produced. *)
Theorem empty_text_upright_never_settles :
  let o := Example.with_text EmptyString (Example.with_mode tile Example.options0) in
  let ctx := prepare Example.browser Example.empty_document (Example.image 800 600) o in
  let g := tile_geometry Example.browser ctx o
             (measureText Example.browser ctx (text o)) (fontSize o) in
  rotatedWidth g = Fin 0 /\ nadd (rotatedWidth g) (rotatedHeight g) = Fin 40 /\
  cellWidth g = Fin 0 /\ cols g = PInf /\
  forall fuel exportOptions,
    addWatermark Example.browser fuel Example.empty_document
      (Example.image 800 600) o exportOptions = None.
Proof.
  intros o ctx g. repeat split.
  intros fuel exportOptions.
  apply addWatermark_pending; [reflexivity|reflexivity|].
  apply (upright_empty_text_hangs Example.browser Example.empty_document
           (Example.image 800 600) o) with (fs := 40%Q).
  - eexists. reflexivity.
  - reflexivity.
  - reflexivity.
  - reflexivity.
  - reflexivity.
  - eexists. reflexivity.
  - reflexivity.
  - reflexivity.
  - reflexivity.
  - reflexivity.
Qed.

(** ** Settlement *)

(** C10, as stated, fails in two ways.  The promise is not settled for every
    input: with an empty text at rotation 0 (here on a 640 x 480 image, with
    spacing 50, exported as JPEG) it stays pending, whatever the fuel.  And it
    can be rejected: when the browser has tainted the canvas, [toDataURL]
    throws inside the executor and the promise is rejected with that
    exception. *)
Lemma promise_is_not_always_fulfilled :
  (let o := Example.with_rotation_spacing (Fin 0) (Fin 50)
              (Example.with_text EmptyString
                 (Example.with_mode tile Example.options0)) in
   forall fuel,
     addWatermark Example.browser fuel Example.empty_document
       (Example.image 640 480) o
       (Some {| format := jpeg; quality := Some (Fin (9 # 10)) |}) = None) /\
  addWatermark Example.tainting_browser 1 Example.empty_document
    (Example.image 800 600) Example.options0 None
  = Some (Rejected "SecurityError"%string).
Proof.
  split; [|reflexivity].
  intros o fuel.
  apply addWatermark_pending; [reflexivity|reflexivity|].
  apply (upright_empty_text_hangs Example.browser Example.empty_document
           (Example.image 640 480) o) with (fs := 40%Q).
  - eexists. reflexivity.
  - reflexivity.
  - reflexivity.
  - reflexivity.
  - reflexivity.
  - eexists. reflexivity.
  - reflexivity.
  - reflexivity.
  - reflexivity.
  - reflexivity.
Qed.

(** C10, amended.  [addWatermark] has no reject path and no error of its own:
    a promise that is rejected carries what a call of the browser threw inside
    the executor ([drawImage] on a missing context or on a broken image,
    [toDataURL] on a tainted canvas); a promise that is fulfilled carries the
    data URL of the surface drawn.  When no call throws, the promise is
    fulfilled as soon as the drawing has ended, and it is not settled while
    the drawing has not ended.  The executor calls nothing but [resolve], and
    with nothing but that data URL. *)
Theorem addWatermark_rejects_only_what_the_browser_throws
  (B : Browser) (fuel : nat) (document : Document) (image : HTMLImageElement)
  (options : WatermarkOptions) (exportOptions : option ExportOptions) :
  (forall reason,
     addWatermark B fuel document image options exportOptions
     = Some (Rejected reason) ->
     (context2d B = false /\ reason = "TypeError"%string) \/
     drawImage_throws B image = Some reason \/
     exists out,
       render_surface B fuel document image options = Some out /\
       toDataURL_throws B out = Some reason) /\
  (forall url,
     addWatermark B fuel document image options exportOptions
     = Some (Fulfilled url) ->
     exists out,
       render_surface B fuel document image options = Some out /\
       url = encode B out exportOptions) /\
  (nothing_throws B image ->
   match render_surface B fuel document image options with
   | Some out =>
       addWatermark B fuel document image options exportOptions
       = Some (Fulfilled (encode B out exportOptions))
   | None =>
       addWatermark B fuel document image options exportOptions = None
   end) /\
  forall (A : Type) (resolve : string -> A) (a : A),
    addWatermark_executor B fuel document image options exportOptions resolve
    = Some (Normal a) ->
    exists out,
      render_surface B fuel document image options = Some out /\
      a = resolve (encode B out exportOptions).
Proof.
  split; [|split; [|split]].
  - intro reason. rewrite addWatermark_unfold.
    destruct (context2d B) eqn:Hc; cbn [negb].
    + destruct (drawImage_throws B image) as [r|] eqn:Hd.
      * intro H. injection H as <-. right. left. reflexivity.
      * destruct (render_surface B fuel document image options) as [out|];
          [|discriminate].
        destruct (toDataURL_throws B out) as [r|] eqn:Ht; [|discriminate].
        intro H. injection H as <-. right. right.
        exists out. split; [reflexivity|exact Ht].
    + intro H. injection H as <-. left. split; reflexivity.
  - intro url. rewrite addWatermark_unfold.
    destruct (negb (context2d B)); [discriminate|].
    destruct (drawImage_throws B image); [discriminate|].
    destruct (render_surface B fuel document image options) as [out|];
      [|discriminate].
    destruct (toDataURL_throws B out); [discriminate|].
    intro H. injection H as <-. exists out. split; reflexivity.
  - intros (Hc & Hd & Ht).
    destruct (render_surface B fuel document image options) as [out|] eqn:E.
    + apply addWatermark_fulfilled; trivial.
    + apply addWatermark_pending; trivial.
  - intros A resolve a. unfold addWatermark_executor.
    destruct (negb (context2d B)); [discriminate|].
    destruct (drawImage_throws B image); [discriminate|].
    destruct (render_surface B fuel document image options) as [out|];
      [|discriminate].
    destruct (toDataURL_throws B out); [discriminate|].
    intro H. injection H as <-. exists out. split; reflexivity.
Qed.

Lemma addWatermark_rejects_only_what_the_browser_throws_witness :
  exists out,
    render_surface Example.browser 1 Example.empty_document
      (Example.image 800 600) Example.options0 = Some out /\
    addWatermark Example.browser 1 Example.empty_document
      (Example.image 800 600) Example.options0 None
    = Some (Fulfilled (encode Example.browser out None)).
Proof.
  destruct (addWatermark_rejects_only_what_the_browser_throws Example.browser
              1 Example.empty_document (Example.image 800 600)
              Example.options0 None) as (_ & _ & Hrun & _).
  assert (Hn : nothing_throws Example.browser (Example.image 800 600)).
  { split; [reflexivity|]. split; [reflexivity|]. intro canvas. reflexivity. }
  specialize (Hrun Hn).
  destruct (render_surface Example.browser 1 Example.empty_document
              (Example.image 800 600) Example.options0) as [out|] eqn:E;
    [|vm_compute in E; discriminate E].
  exists out. split; [reflexivity|exact Hrun].
Defined.

(** ** The number of tiles *)

Lemma of_nat_to_nat_max (x : Z) : Z.of_nat (Z.to_nat x) = Z.max 0 x.
Proof. lia. Qed.

Lemma tile_ops_count options textWidth textHeight g base (r c : Z) :
  Z.of_nat (List.length (tile_ops options textWidth textHeight g base r c))
  = (Z.max 0 (r + 1) * Z.max 0 (c + 1))%Z.
Proof.
  rewrite tile_ops_length, Nat2Z.inj_mul, !of_nat_to_nat_max. reflexivity.
Qed.

(** In tile mode with [cols] and [rows] finite and at most 2^53,
    [addWatermark] stamps [(rows + 1) * (cols + 1)] times and, when no call
    of the browser throws, fulfils. *)
Lemma tile_mode_stamps_every_cell
  (B : Browser) (document : Document) (image : HTMLImageElement)
  (options : WatermarkOptions) (exportOptions : option ExportOptions)
  (qc qr : Q) :
  mode options = tile ->
  let ctx := prepare B document image options in
  let textWidth := measureText B ctx (text options) in
  let g := tile_geometry B ctx options textWidth (fontSize options) in
  cols g = Fin qc -> rows g = Fin qr ->
  (Qceiling qc <= 2 ^ 53)%Z -> (Qceiling qr <= 2 ^ 53)%Z ->
  nothing_throws B image ->
  exists ops : list DrawOp,
    Z.of_nat (List.length ops)
    = (Z.max 0 (Qceiling qr + 1) * Z.max 0 (Qceiling qc + 1))%Z /\
    forall fuel,
      (Z.to_nat (Z.max (Qceiling qr + 1) (Qceiling qc + 1)) < fuel)%nat ->
      exists out,
        addWatermark B fuel document image options exportOptions
        = Some (Fulfilled (encode B out exportOptions)) /\
        draw_log out = DrawImage image (Fin 0) (Fin 0) :: ops.
Proof.
  intros Hmode ctx textWidth g Hc Hr Hcb Hrb (Hctx & Hdraw & Hurl).
  exists (tile_ops options textWidth (fontSize options) g (gstate ctx)
            (Qceiling qr) (Qceiling qc)).
  split; [apply tile_ops_count|].
  intros fuel Hfuel. eexists. split.
  - apply addWatermark_fulfilled; [exact Hctx|exact Hdraw| |apply Hurl].
    exact (render_tile_finite B document image options qc qr fuel
             Hmode Hc Hr Hcb Hrb Hfuel).
  - rewrite draw_log_draw_all, prepare_log. reflexivity.
Qed.

Lemma example_nothing_throws (image : HTMLImageElement) :
  nothing_throws Example.browser image.
Proof.
  split; [reflexivity|]. split; [reflexivity|]. intro canvas. reflexivity.
Qed.

(** C3, refuted.  A dot at font size 20, upright, spacing 0, tiled over a
    16000 x 16000 image: 1602 columns and 802 rows, that is 1603 * 803 =
    1287209 stamps, more than twelve times 100000; all of them are drawn and
    the promise is fulfilled.  No bound, no error. *)
Lemma tile_count_exceeds_cap :
  let o := Example.with_fontSize (Fin 20)
             (Example.with_text "." (Example.with_mode tile Example.options0)) in
  exists ops : list DrawOp,
    Z.of_nat (List.length ops) = 1287209%Z /\
    (12 * 100000 < Z.of_nat (List.length ops))%Z /\
    forall fuel,
      (1603 < fuel)%nat ->
      exists out,
        addWatermark Example.browser fuel Example.empty_document
          (Example.image 16000 16000) o None
        = Some (Fulfilled (encode Example.browser out None)) /\
        draw_log out
        = DrawImage (Example.image 16000 16000) (Fin 0) (Fin 0) :: ops.
Proof.
  intro o.
  destruct (tile_mode_stamps_every_cell Example.browser Example.empty_document
              (Example.image 16000 16000) o None 1602%Q 802%Q eq_refl)
    as (ops & Hlen & Hrun).
  - vm_compute. reflexivity.
  - vm_compute. reflexivity.
  - vm_compute. discriminate.
  - vm_compute. discriminate.
  - apply example_nothing_throws.
  - exists ops.
    change (Qceiling 802 + 1)%Z with 803%Z in Hlen, Hrun.
    change (Qceiling 1602 + 1)%Z with 1603%Z in Hlen, Hrun.
    change (Z.max 803 1603) with 1603%Z in Hrun.
    split; [exact Hlen|]. split; [rewrite Hlen; reflexivity|].
    intros fuel Hfuel. apply Hrun.
    change (Z.to_nat 1603) with 1603%nat. exact Hfuel.
Qed.

(** C3, amended.  In tile mode [addWatermark] puts no cap on the number of
    tiles and has no error for too many: whenever the numbers of columns and
    rows are at most 2^53 (as far as a loop counter goes) and no call of the
    browser throws, it draws the source image and then stamps once per cell,
    [(rows + 1) * (cols + 1)] times in all, and fulfils the promise. *)
Theorem tile_count_is_not_capped
  (B : Browser) (document : Document) (image : HTMLImageElement)
  (options : WatermarkOptions) (exportOptions : option ExportOptions)
  (nc nr : Z) :
  mode options = tile ->
  let ctx := prepare B document image options in
  let textWidth := measureText B ctx (text options) in
  let g := tile_geometry B ctx options textWidth (fontSize options) in
  cols g = ofZ nc -> rows g = ofZ nr ->
  (nc <= 2 ^ 53)%Z -> (nr <= 2 ^ 53)%Z ->
  nothing_throws B image ->
  exists ops : list DrawOp,
    Z.of_nat (List.length ops) = (Z.max 0 (nr + 1) * Z.max 0 (nc + 1))%Z /\
    forall fuel,
      (Z.to_nat (Z.max (nr + 1) (nc + 1)) < fuel)%nat ->
      exists out,
        addWatermark B fuel document image options exportOptions
        = Some (Fulfilled (encode B out exportOptions)) /\
        draw_log out = DrawImage image (Fin 0) (Fin 0) :: ops.
Proof.
  intros Hmode ctx textWidth g Hc Hr Hcb Hrb Hquiet.
  destruct (tile_mode_stamps_every_cell B document image options exportOptions
              (inject_Z nc) (inject_Z nr) Hmode Hc Hr) as (ops & Hlen & Hrun).
  - rewrite Qceiling_Z. exact Hcb.
  - rewrite Qceiling_Z. exact Hrb.
  - exact Hquiet.
  - rewrite !Qceiling_Z in Hlen, Hrun.
    exists ops. split; [exact Hlen|exact Hrun].
Qed.

Lemma tile_count_is_not_capped_witness :
  let o := Example.with_mode tile Example.options0 in
  exists ops : list DrawOp,
    Z.of_nat (List.length ops) = 336%Z /\
    exists out,
      addWatermark Example.browser 30 Example.empty_document
        (Example.image 1000 1000) o None
      = Some (Fulfilled (encode Example.browser out None)) /\
      draw_log out = DrawImage (Example.image 1000 1000) (Fin 0) (Fin 0) :: ops.
Proof.
  intro o.
  destruct (tile_count_is_not_capped Example.browser Example.empty_document
              (Example.image 1000 1000) o None 11 27 eq_refl eq_refl eq_refl)
    as (ops & Hlen & Hrun).
  - vm_compute. discriminate.
  - vm_compute. discriminate.
  - split; [reflexivity|]. split; [reflexivity|]. intro canvas. reflexivity.
  - exists ops. split; [exact Hlen|].
    apply (Hrun 30%nat). vm_compute. lia.
Defined.

(** ** Coverage under the largest offsets *)

(** C4, at the failing input.  A text 100 wide (HELLO at font size 40),
    upright, spacing 0, tiled over a 1000 x 1000 image, so that the cell is
    100 x 40 with 12 columns and 27 rows.  With both offsets at +50 the grid
    starts at (450, 480): the first column begins at x = 350 and the first row
    at y = 440, not at or before 0, and no stamp is centered left of x = 400.
    With both offsets at -50 the last column ends at x = 650 and the last row
    at y = 560, short of 1000. *)
Theorem extreme_offsets_leave_border_untiled :
  let base := Example.with_text "HELLO" (Example.with_mode tile Example.options0) in
  let img := Example.image 1000 1000 in
  let geometry o :=
    let ctx := prepare Example.browser Example.empty_document img o in
    tile_geometry Example.browser ctx o
      (measureText Example.browser ctx (text o)) (fontSize o) in
  let plus := geometry (Example.with_offsets (Fin 50) (Fin 50) base) in
  let minus := geometry (Example.with_offsets (Fin (-50)) (Fin (-50)) base) in
  (cellWidth plus = Fin 100 /\ cellHeight plus = Fin 40 /\
   cols plus = Fin 12 /\ rows plus = Fin 27) /\
  (cell_start (startX plus) (cellWidth plus) (-1) = Fin 350 /\
   cell_start (startY plus) (cellHeight plus) (-1) = Fin 440 /\
   nle (cell_start (startX plus) (cellWidth plus) (-1)) (Fin 0) = false /\
   nle (cell_start (startY plus) (cellHeight plus) (-1)) (Fin 0) = false) /\
  (cell_end (startX minus) (cellWidth minus) 11 = Fin 650 /\
   cell_end (startY minus) (cellHeight minus) 26 = Fin 560 /\
   nle (Fin 1000) (cell_end (startX minus) (cellWidth minus) 11) = false /\
   nle (Fin 1000) (cell_end (startY minus) (cellHeight minus) 26) = false) /\
  exists out,
    render_surface Example.browser 30 Example.empty_document img
      (Example.with_offsets (Fin 50) (Fin 50) base) = Some out /\
    List.length (draw_log out) = 365%nat /\
    centers_right_of (Fin 400) (tl (draw_log out)) = true.
Proof.
  cbv zeta. split; [|split; [|split]].
  - vm_compute. repeat split.
  - vm_compute. repeat split.
  - vm_compute. repeat split.
  - eexists. split; [vm_compute; reflexivity|].
    split; vm_compute; reflexivity.
Qed.

(** What the pad of two cells does cover: a shift of up to one cell and a
    half either way.  [w] is the size of the canvas along one axis, [cw] the
    size of the cell, [off] the offset in pixels. *)
Lemma axis_covered_up_to_three_half_cells (w : N) (cw off : Q) :
  (0 < cw)%Q ->
  (- ((3 # 2) * cw) <= off)%Q -> (off <= (3 # 2) * cw)%Q ->
  let count := nceil (ofN w / Fin cw) + Fin 2 in
  let start := (ofN w - (count - Fin 1) * Fin cw) / Fin 2 + Fin off in
  exists n : Z,
    count = ofZ n /\
    nle (cell_start start (Fin cw) (-1)) (Fin 0) = true /\
    nle (ofN w) (cell_end start (Fin cw) (n - 1)) = true.
Proof.
  intros Hcw Hlo Hhi count start.
  assert (Hnz : Qis0 cw = false).
  { destruct (Qis0 cw) eqn:E; trivial.
    apply Qis0_iff in E. rewrite E in Hcw. discriminate. }
  set (x := inject_Z (Z.of_N w)).
  set (n0 := Qceiling (Qred (x / cw))).
  assert (Hcount : count = ofZ (n0 + 2)).
  { unfold count, ofN, ofZ at 1. rewrite ndiv_Fin by exact Hnz.
    cbn [nceil]. change (Fin 2) with (ofZ 2). apply ofZ_add. }
  exists (n0 + 2)%Z. split; [exact Hcount|].
  assert (Hx : (x <= inject_Z n0 * cw)%Q).
  { assert (H1 : (x / cw <= inject_Z n0)%Q).
    { unfold n0. rewrite <- (Qred_correct (x / cw)) at 1. apply Qle_ceiling. }
    assert (E : (x / cw * cw == x)%Q) by (field; lra).
    rewrite <- E. apply Qmult_le_compat_r; [exact H1|lra]. }
  unfold start, cell_start, cell_end. rewrite Hcount.
  unfold ofN, ofZ. fold x.
  cbn [nsub nmul]. rewrite ndiv_Fin by reflexivity.
  cbn [nadd nle].
  replace (n0 + 2 - 1)%Z with (n0 + 1)%Z by lia.
  rewrite !Qle_bool_iff, !Qred_correct, !inject_Z_plus.
  change (inject_Z 2) with 2%Q. change (inject_Z 1) with 1%Q.
  change (inject_Z (-1)) with (-1)%Q.
  set (K := (inject_Z n0 * cw)%Q) in *.
  assert (E2 : ((inject_Z n0 + 2 - 1) * cw == K + cw)%Q) by (unfold K; ring).
  assert (E1 : ((inject_Z n0 + 1) * cw == K + cw)%Q) by (unfold K; ring).
  rewrite E2, E1.
  assert (Eh : forall q : Q, (q / 2 == q * (1 # 2))%Q) by (intro q; field).
  rewrite !Eh. split; lra.
Qed.

(** the same on the geometry the code computes, along the horizontal axis *)
Lemma small_offsets_are_covered
  (B : Browser) (canvas : Canvas) (options : WatermarkOptions)
  (textWidth textHeight : num) (cw off : Q) :
  let g := tile_geometry B canvas options textWidth textHeight in
  cellWidth g = Fin cw -> (0 < cw)%Q ->
  offsetXPixels g = Fin off ->
  (- ((3 # 2) * cw) <= off)%Q -> (off <= (3 # 2) * cw)%Q ->
  exists n : Z,
    cols g = ofZ n /\
    nle (cell_start (startX g) (cellWidth g) (-1)) (Fin 0) = true /\
    nle (ofN (width canvas)) (cell_end (startX g) (cellWidth g) (n - 1)) = true.
Proof.
  intros g Hcw Hpos Hoff Hlo Hhi.
  unfold g, tile_geometry in *.
  cbn [cellWidth offsetXPixels cols startX] in *.
  rewrite Hcw, Hoff.
  apply axis_covered_up_to_three_half_cells; trivial.
Qed.

(** * Further properties *)

(** ** The compositor: what is drawn, and the state it leaves *)

Lemma draw_log_draw (op : DrawOp) (c : Canvas) :
  draw_log (draw op c) = draw_log c ++ [op].
Proof. reflexivity. Qed.

Section Trace.

Variable B : Browser.
Variable document : Document.
Variable image : HTMLImageElement.
Variable options : WatermarkOptions.

Let ctx := prepare B document image options.

Let between_stamps := drawing_invariant B document image options.

Lemma between_stamps_prepare : between_stamps ctx.
Proof.
  split; [reflexivity|]. split; [apply prepare_saved|].
  exists []. split; [apply prepare_log|constructor].
Qed.

Lemma between_stamps_stamp textWidth textHeight g row col c :
  between_stamps c ->
  between_stamps (stamp options textWidth textHeight g row col c).
Proof.
  intros (Hg & Hs & texts & Hlog & Hall).
  rewrite stamp_draws. split; [exact Hg|]. split; [exact Hs|].
  exists (texts ++ [tile_op options textWidth textHeight g (gstate c) row col]).
  split.
  - rewrite draw_log_draw, Hlog. reflexivity.
  - apply Forall_app. split; [exact Hall|].
    constructor; [|constructor].
    rewrite Hg. repeat split.
Qed.

Lemma between_stamps_tiles fuel textWidth textHeight g c out :
  between_stamps c ->
  draw_tiles fuel options textWidth textHeight g c = Some out ->
  between_stamps out.
Proof.
  unfold draw_tiles.
  apply for_lt_invariant with (P := between_stamps).
  intros row s s' Hs.
  apply for_lt_invariant with (P := between_stamps); [|exact Hs].
  intros col a b Ha Heq. injection Heq as <-.
  apply between_stamps_stamp. exact Ha.
Qed.

Lemma between_stamps_single textWidth textHeight c :
  between_stamps c ->
  let out := draw_single B options textWidth textHeight c in
  between_stamps out /\
  List.length (draw_log out) = S (List.length (draw_log c)).
Proof.
  intros (Hg & Hs & texts & Hlog & Hall).
  unfold draw_single.
  destruct (single_anchor c options textWidth textHeight) as [x0 y0].
  destruct c as [w h gs sv dr].
  cbn [gstate saved] in Hg, Hs. subst sv.
  unfold draw_log in Hlog. cbn [drawn] in Hlog.
  cbv zeta. split.
  - split; [exact Hg|]. split; [reflexivity|].
    eexists. split.
    + unfold draw_log. cbn. rewrite Hlog. cbn [app]. reflexivity.
    + apply Forall_app. split; [exact Hall|].
      constructor; [|constructor].
      cbn. rewrite Hg. repeat split.
  - unfold draw_log. cbn. rewrite length_app, Nat.add_comm. reflexivity.
Qed.

Lemma draw_single_trace textWidth textHeight :
  let out := draw_single B options textWidth textHeight ctx in
  between_stamps out /\ List.length (draw_log out) = 2%nat.
Proof.
  destruct (between_stamps_single textWidth textHeight ctx
              between_stamps_prepare) as [Hinv Hlen].
  split; [exact Hinv|].
  rewrite Hlen.
  rewrite (prepare_log B document image options
           : draw_log ctx = [DrawImage image (Fin 0) (Fin 0)]).
  reflexivity.
Qed.


Lemma render_between_stamps fuel out :
  render_surface B fuel document image options = Some out ->
  between_stamps out.
Proof.
  unfold render_surface. fold ctx. destruct (mode options).
  - intro H. injection H as <-. apply draw_single_trace.
  - apply between_stamps_tiles. apply between_stamps_prepare.
Qed.

End Trace.



(** X2. Whenever the drawing ends, every [save] has met its [restore]: the
    stack of saved states is empty and the context is in the state it was
    given before the first stamp, with no transformation left on it. *)
Theorem watermark_leaves_context_clean
  (B : Browser) (fuel : nat) (document : Document) (image : HTMLImageElement)
  (options : WatermarkOptions) (out : Canvas) :
  render_surface B fuel document image options = Some out ->
  saved out = [] /\
  ctm (gstate out) = [] /\
  gstate out = gstate (prepare B document image options).
Proof.
  intro H.
  destruct (render_between_stamps B document image options fuel out H)
    as (Hg & Hs & _).
  split; [exact Hs|]. split; [rewrite Hg; apply prepare_ctm|exact Hg].
Qed.

Lemma watermark_leaves_context_clean_witness :
  exists out,
    render_surface Example.browser 1 Example.empty_document
      (Example.image 800 600) Example.options0 = Some out /\
    saved out = [] /\ ctm (gstate out) = [].
Proof.
  destruct (render_surface Example.browser 1 Example.empty_document
              (Example.image 800 600) Example.options0) as [out|] eqn:E;
    [|vm_compute in E; discriminate E].
  destruct (watermark_leaves_context_clean Example.browser 1
              Example.empty_document (Example.image 800 600)
              Example.options0 out E) as (Hs & Hc & _).
  exists out. split; [reflexivity|]. split; [exact Hs|exact Hc].
Defined.

(** ** The compositor: when the tiling ends *)

Lemma positive_nonneg a : positive a -> nonneg a.
Proof. intros (q & -> & Hq). exists q. split; trivial. lra. Qed.

Lemma positive_add_nonneg a b : positive a -> nonneg b -> positive (a + b).
Proof.
  intros (p & -> & Hp) (q & -> & Hq). exists (Qred (p + q)). split; trivial.
  rewrite Qred_correct. lra.
Qed.

Lemma nonneg_add_positive a b : nonneg a -> positive b -> positive (a + b).
Proof. intros Ha Hb. rewrite nadd_comm. apply positive_add_nonneg; trivial. Qed.

Lemma positive_mul a b : positive a -> positive b -> positive (a * b).
Proof.
  intros (p & -> & Hp) (q & -> & Hq). exists (Qred (p * q)). split; trivial.
  rewrite Qred_correct. apply Qmult_lt_0_compat; trivial.
Qed.

(** of two numbers that are not negative and whose sum is positive, one is
    positive *)
Lemma positive_sum_split a b :
  nonneg a -> nonneg b -> positive (a + b) -> positive a \/ positive b.
Proof.
  intros (p & -> & Hp) (q & -> & Hq) (r & Hr & Hpos).
  cbn [nadd] in Hr. injection Hr as <-. rewrite Qred_correct in Hpos.
  destruct (Qlt_le_dec 0 p) as [H|H].
  - left. exists p. split; trivial.
  - right. exists q. split; trivial. lra.
Qed.

(** a positive weight on each of two such numbers gives a positive sum *)
Lemma weighted_sum_positive u v a b :
  positive u -> positive v -> nonneg a -> nonneg b -> positive (a + b) ->
  positive (u * a + v * b).
Proof.
  intros Hu Hv Ha Hb Hab.
  destruct (positive_sum_split a b Ha Hb Hab) as [H|H].
  - apply positive_add_nonneg.
    + apply positive_mul; trivial.
    + apply nonneg_mul; trivial. apply positive_nonneg; trivial.
  - apply nonneg_add_positive.
    + apply nonneg_mul; trivial. apply positive_nonneg; trivial.
    + apply positive_mul; trivial.
Qed.

(** over a positive cell the count of columns (or rows) is an integer, two
    at least *)
Lemma count_over_positive_cell (w : N) (cell : num) :
  positive cell ->
  exists n : Z, nceil (ofN w / cell) + Fin 2 = ofZ n /\ (2 <= n)%Z.
Proof.
  intros (cw & -> & Hcw).
  assert (Hnz : Qis0 cw = false).
  { destruct (Qis0 cw) eqn:E; trivial.
    apply Qis0_iff in E. rewrite E in Hcw. discriminate. }
  unfold ofN. unfold ofZ at 1. rewrite ndiv_Fin by exact Hnz.
  cbn [nceil]. change (Fin 2) with (ofZ 2). rewrite ofZ_add.
  eexists. split; [reflexivity|].
  assert (0 <= Qceiling (Qred (inject_Z (Z.of_N w) / cw)))%Z; [|lia].
  rewrite <- (Qceiling_Z 0). apply Qceiling_resp_le.
  rewrite Qred_correct. apply Qle_shift_div_l; trivial.
  rewrite Qmult_0_l. change 0%Q with (inject_Z 0). rewrite <- Zle_Qle. lia.
Qed.

(** X3. In tile mode, with a text of positive measured width, a positive
    font size, a finite rotation, a spacing that is not negative, and the
    absolute cosine and sine of the angle not both zero, the cell has a
    positive width and height and the numbers of columns and rows are
    integers, two at least.  When both are at most 2^53 and no call of the
    browser throws, [addWatermark] fulfils its promise once it is given fuel
    for the longer of the two loops; when one of them is above 2^53, the
    drawing never ends. *)
Theorem tile_mode_settles_on_visible_text
  (B : Browser) (document : Document) (image : HTMLImageElement)
  (options : WatermarkOptions) (exportOptions : option ExportOptions) :
  BrowserSane B ->
  mode options = tile ->
  let ctx := prepare B document image options in
  let textWidth := measureText B ctx (text options) in
  let g := tile_geometry B ctx options textWidth (fontSize options) in
  positive textWidth ->
  positive (fontSize options) ->
  is_finite (rotation options) ->
  nonneg (spacing options) ->
  positive (cos g + sin g) ->
  positive (cellWidth g) /\ positive (cellHeight g) /\
  exists nc nr : Z,
    cols g = ofZ nc /\ rows g = ofZ nr /\ (2 <= nc)%Z /\ (2 <= nr)%Z /\
    (forall fuel,
       (nc <= 2 ^ 53)%Z -> (nr <= 2 ^ 53)%Z -> nothing_throws B image ->
       (Z.to_nat (Z.max (nr + 1) (nc + 1)) < fuel)%nat ->
       exists url,
         addWatermark B fuel document image options exportOptions
         = Some (Fulfilled url)) /\
    ((2 ^ 53 < nc)%Z \/ (2 ^ 53 < nr)%Z ->
     forall fuel, render_surface B fuel document image options = None).
Proof.
  intros sane Hmode ctx textWidth g Htw Hfs Hrot Hsp Htrig.
  pose proof (positive_nonneg _ Htw) as Htw0.
  pose proof (positive_nonneg _ Hfs) as Hfs0.
  destruct (cos_sin_nonneg B sane ctx options textWidth Hrot) as [Hc Hs].
  pose proof (spacingGap_nonneg B sane ctx options textWidth Htw0 Hfs0 Hrot Hsp)
    as Hgap.
  fold g in Hc, Hs, Hgap.
  assert (Hcw : positive (cellWidth g)).
  { apply positive_add_nonneg; trivial.
    apply weighted_sum_positive; trivial. }
  assert (Hch : positive (cellHeight g)).
  { apply positive_add_nonneg; trivial.
    apply weighted_sum_positive; trivial.
    rewrite nadd_comm. exact Htrig. }
  split; [exact Hcw|]. split; [exact Hch|].
  destruct (count_over_positive_cell (width ctx) (cellWidth g) Hcw)
    as (nc & Hnc & Hnc2).
  destruct (count_over_positive_cell (height ctx) (cellHeight g) Hch)
    as (nr & Hnr & Hnr2).
  exists nc, nr.
  split; [exact Hnc|]. split; [exact Hnr|].
  split; [exact Hnc2|]. split; [exact Hnr2|]. split.
  - intros fuel Hcb Hrb (Hctx & Hdraw & Hurl) Hfuel. eexists.
    apply addWatermark_fulfilled; [exact Hctx|exact Hdraw| |apply Hurl].
    apply (render_tile_finite B document image options
             (inject_Z nc) (inject_Z nr) fuel Hmode Hnc Hnr);
      rewrite ?Qceiling_Z; trivial.
  - intros Hbig fuel. unfold render_surface. rewrite Hmode.
    fold ctx. fold textWidth. fold g.
    assert (Ec : cols g = ofZ nc) by exact Hnc.
    assert (Er : rows g = ofZ nr) by exact Hnr.
    destruct Hbig as [Hbig|Hbig].
    + apply draw_tiles_stalls.
      * rewrite Ec. apply nlt_ofZ_ofZ. exact Hbig.
      * rewrite Er. apply nlt_ofZ_ofZ. lia.
    + apply draw_tiles_stalls_rows.
      rewrite Er. apply nlt_ofZ_ofZ. exact Hbig.
Qed.

Lemma tile_mode_settles_on_visible_text_witness :
  let o := Example.with_rotation_spacing (Fin (-45)) (Fin 50)
             (Example.with_mode tile Example.options0) in
  exists url,
    addWatermark Example.browser 40 Example.empty_document
      (Example.image 1000 1000) o None = Some (Fulfilled url).
Proof.
  intro o.
  destruct (tile_mode_settles_on_visible_text Example.browser
              Example.empty_document (Example.image 1000 1000) o None
              example_browser_sane eq_refl)
    as (_ & _ & nc & nr & Hc & Hr & _ & _ & Hrun & _).
  - exists 120%Q. split; [reflexivity|reflexivity].
  - exists 40%Q. split; [reflexivity|reflexivity].
  - exists (-45)%Q. reflexivity.
  - exists 50%Q. split; [reflexivity|]. vm_compute. discriminate.
  - eexists. split; [vm_compute; reflexivity|reflexivity].
  - vm_compute in Hc, Hr. injection Hc as <-. injection Hr as <-.
    apply Hrun.
    + vm_compute. discriminate.
    + vm_compute. discriminate.
    + split; [reflexivity|]. split; [reflexivity|]. intro canvas. reflexivity.
    + vm_compute. lia.
Defined.

Local Open Scope string_scope.

(** ** The encoder as the application calls it *)

(** X4. The export options of the download reach the encoder as follows: for
    PNG the quality is dropped; for JPEG and WebP a slider value other than
    zero arrives as value/100, and zero is replaced by 0.92.  The preview is
    always encoded as PNG, without a quality. *)
Theorem download_quality_reaches_encoder
  (B : Browser) (canvas : Canvas) (exportFormat : ImageFormat) (q : Q) :
  let url := encode B canvas (Some (App.download_options exportFormat (Fin q))) in
  (exportFormat = png -> url = toDataURL B canvas "image/png" None) /\
  (exportFormat <> png -> ~ (q == 0)%Q ->
   url = toDataURL B canvas (mimeType_of exportFormat) (Some (Fin (Qred (q / 100))))) /\
  (exportFormat <> png -> (q == 0)%Q ->
   url = toDataURL B canvas (mimeType_of exportFormat) (Some (Fin (23 # 25)))) /\
  encode B canvas (Some App.preview_options) = toDataURL B canvas "image/png" None.
Proof.
  cbv zeta. unfold App.download_options, encode. cbn [format quality].
  rewrite ndiv_Fin by reflexivity. cbn [nfalsy].
  split; [|split; [|split]].
  - intros ->. reflexivity.
  - intros Hf Hq.
    assert (E : Qis0 (Qred (q / 100)) = false).
    { destruct (Qis0 (Qred (q / 100))) eqn:E; trivial.
      apply Qis0_iff in E. rewrite Qred_correct in E.
      exfalso. apply Hq.
      assert (H : (q == q / 100 * 100)%Q) by field.
      rewrite H, E. reflexivity. }
    rewrite E. destruct exportFormat; [contradiction| |]; reflexivity.
  - intros Hf Hq.
    assert (E : Qis0 (Qred (q / 100)) = true).
    { apply Qis0_iff. rewrite Qred_correct, Hq. reflexivity. }
    rewrite E. destruct exportFormat; [contradiction| |]; reflexivity.
  - reflexivity.
Qed.

Lemma download_quality_reaches_encoder_witness :
  let canvas := createElement_canvas Example.empty_document in
  encode Example.browser canvas (Some (App.download_options webp (Fin 80)))
  = toDataURL Example.browser canvas "image/webp" (Some (Fin (4 # 5))).
Proof.
  intro canvas.
  destruct (download_quality_reaches_encoder Example.browser canvas webp 80)
    as (_ & H & _).
  apply H; discriminate.
Defined.

(** ** The decoder: failures and fulfilment *)

(** X5. When the file is HEIC and the conversion is refused, [loadImage]
    rejects with the conversion message and reads nothing; when the conversion
    returns an empty array, there is no blob to read and the load is rejected
    as well.  In neither case are the bytes of the original file read as a
    fallback. *)
Theorem loadImage_failed_conversion
  (heic2any : Blob -> string -> num -> Heic2anyResult Blob)
  (readAsDataURL : Blob -> option string)
  (decodeImage : string -> option HTMLImageElement)
  (file : File) :
  Spec.is_heic file ->
  let result := heic2any (file_blob file) "image/jpeg" (Fin (19 # 20)) in
  let loaded := loadImage heic2any readAsDataURL decodeImage file in
  (result = ConversionFailed ->
   loaded
   = {| calls := [CallHeic2any (file_blob file) "image/jpeg" (Fin (19 # 20))];
        outcome := Rejected "HEIC 格式转换失败，请确保文件有效" |}) /\
  (result = BlobArray [] ->
   loaded
   = {| calls := [CallHeic2any (file_blob file) "image/jpeg" (Fin (19 # 20));
                  CallReadAsDataURL None];
        outcome := Rejected "TypeError" |}) /\
  (result = ConversionFailed \/ result = BlobArray [] ->
   ~ In (CallReadAsDataURL (Some (file_blob file))) (calls loaded)).
Proof.
  intros Hh result loaded.
  apply (isHeic_spec file) in Hh.
  unfold loaded, loadImage. rewrite Hh. fold result.
  split; [|split].
  - intros ->. reflexivity.
  - intros ->. reflexivity.
  - intros [-> | ->]; cbn; intuition discriminate.
Qed.

Lemma loadImage_failed_conversion_witness :
  outcome (loadImage (fun _ _ _ => ConversionFailed) Example.readAsDataURL
             Example.decodeImage Example.photo)
  = Rejected "HEIC 格式转换失败，请确保文件有效".
Proof.
  destruct (loadImage_failed_conversion (fun _ _ _ => ConversionFailed)
              Example.readAsDataURL Example.decodeImage Example.photo)
    as (H & _).
  - right. right. left. exists "IMG_0001", ".HEIC".
    split; reflexivity.
  - rewrite (H eq_refl). reflexivity.
Defined.

Lemma read_and_decode_fulfilled
  (readAsDataURL : Blob -> option string)
  (decodeImage : string -> option HTMLImageElement)
  (b : option Blob) (img : HTMLImageElement) :
  outcome (read_and_decode readAsDataURL decodeImage b) = Fulfilled img ->
  exists blob url,
    b = Some blob /\ readAsDataURL blob = Some url /\ decodeImage url = Some img /\
    calls (read_and_decode readAsDataURL decodeImage b)
    = [CallReadAsDataURL (Some blob); CallDecode url].
Proof.
  unfold read_and_decode. destruct b as [blob|]; [|discriminate].
  destruct (readAsDataURL blob) as [url|] eqn:Er; [|discriminate].
  cbn [outcome calls].
  destruct (decodeImage url) as [i|] eqn:Ed; [|discriminate].
  intro H. injection H as <-. exists blob, url. repeat split; trivial.
Qed.

(** X6. When [loadImage] is fulfilled, the image is the one decoded from the
    data URL that was read from one blob: the blob of the file itself when
    the file is not HEIC, the blob the conversion returned (the first of the
    array, if it returned an array) when it is.  Reading and decoding are the
    last two things it did. *)
Theorem loadImage_fulfilled_with_decoded_blob
  (heic2any : Blob -> string -> num -> Heic2anyResult Blob)
  (readAsDataURL : Blob -> option string)
  (decodeImage : string -> option HTMLImageElement)
  (file : File) (img : HTMLImageElement) :
  let loaded := loadImage heic2any readAsDataURL decodeImage file in
  outcome loaded = Fulfilled img ->
  exists blob url,
    readAsDataURL blob = Some url /\ decodeImage url = Some img /\
    (exists before,
       calls loaded = (before ++ [CallReadAsDataURL (Some blob); CallDecode url])%list) /\
    (isHeic file = false -> blob = file_blob file) /\
    (isHeic file = true ->
     let result := heic2any (file_blob file) "image/jpeg" (Fin (19 # 20)) in
     result = OneBlob blob \/ exists rest, result = BlobArray (blob :: rest)).
Proof.
  intro loaded. unfold loaded, loadImage.
  destruct (isHeic file) eqn:E.
  - destruct (heic2any (file_blob file) "image/jpeg" (Fin (19 # 20)))
      as [b|bs|] eqn:Eh; cbn [after outcome calls].
    + intro H. apply read_and_decode_fulfilled in H.
      destruct H as (blob & url & Hb & Hr & Hd & Hc).
      injection Hb as <-.
      exists b, url. repeat split; trivial.
      * eexists [_]. rewrite Hc. reflexivity.
      * discriminate.
      * intros _. left. reflexivity.
    + intro H. apply read_and_decode_fulfilled in H.
      destruct H as (blob & url & Hb & Hr & Hd & Hc).
      destruct bs as [|b0 rest]; [discriminate|].
      cbn in Hb. injection Hb as <-.
      exists b0, url. repeat split; trivial.
      * eexists [_]. rewrite Hc. reflexivity.
      * discriminate.
      * intros _. right. exists rest. reflexivity.
    + discriminate.
  - intro H. apply read_and_decode_fulfilled in H.
    destruct H as (blob & url & Hb & Hr & Hd & Hc).
    injection Hb as <-.
    exists (file_blob file), url. repeat split; trivial.
    + exists []. rewrite Hc. reflexivity.
    + discriminate.
Qed.

Lemma loadImage_fulfilled_with_decoded_blob_witness :
  exists blob url,
    Example.readAsDataURL blob = Some url /\
    blob_type blob = "image/jpeg" /\
    Example.decodeImage url
    = Some {| img_width := 4032; img_height := 3024; img_src := url |}.
Proof.
  destruct (loadImage_fulfilled_with_decoded_blob Example.heic2any
              Example.readAsDataURL Example.decodeImage Example.photo
              {| img_width := 4032; img_height := 3024;
                 img_src := "data:image/jpeg;base64," |} eq_refl)
    as (blob & url & Hr & Hd & _ & _ & Hh).
  exists blob, url. split; [exact Hr|].
  destruct (Hh eq_refl) as [H | (rest & H)].
  - injection H as <-. split; [reflexivity|].
    cbn in Hr. injection Hr as <-. reflexivity.
  - discriminate H.
Defined.

(** ** [downloadImage] *)

Lemma removeChild_appended (node : nat) (children : list nat) :
  ~ In node children -> removeChild node (children ++ [node])%list = children.
Proof.
  induction children as [|c rest IH]; intro Hin; cbn [removeChild app].
  - rewrite Nat.eqb_refl. reflexivity.
  - destruct (Nat.eqb c node) eqn:E.
    + apply Nat.eqb_eq in E. exfalso. apply Hin. left. exact E.
    + rewrite IH; trivial. intro H. apply Hin. right. exact H.
Qed.

(** X7. [downloadImage] clicks one anchor, with the data URL as its [href]
    and the file name as its [download], and leaves the children of the body
    as it found them: the link it appends is removed again.  The page stays
    well formed, so this holds of every later call as well. *)
Theorem downloadImage_leaves_body_unchanged
  (dataUrl filename : string) (page : Page) :
  page_ok page ->
  let page' := downloadImage dataUrl filename page in
  body page' = body page /\
  clicked page' = {| href := dataUrl; download := filename |} :: clicked page /\
  page_ok page'.
Proof.
  intros Hok page'. unfold page', downloadImage. cbn [body clicked].
  assert (Hfresh : ~ In (next_node page) (body page)).
  { intro Hin. unfold page_ok in Hok. rewrite Forall_forall in Hok.
    specialize (Hok _ Hin). lia. }
  split; [apply removeChild_appended; exact Hfresh|]. split; [reflexivity|].
  unfold page_ok in *. cbn [body next_node].
  rewrite removeChild_appended by exact Hfresh.
  eapply Forall_impl; [|exact Hok]. cbn. intros n Hn. lia.
Qed.

Lemma downloadImage_leaves_body_unchanged_witness :
  body (downloadImage "data:image/png;base64," "watermarked_id.png" example_page)
  = [0; 1]%nat.
Proof.
  destruct (downloadImage_leaves_body_unchanged "data:image/png;base64,"
              "watermarked_id.png" example_page) as (H & _).
  - repeat constructor.
  - exact H.
Defined.

Local Close Scope string_scope.

Local Open Scope string_scope.

(** ** The file picker against the decoder *)

(** X8. A file that [loadImage] converts is never refused by the file picker
    as not being an image, and a file the picker treats as HEIC is converted
    by [loadImage].  The two tests differ on a file whose type says HEIC or
    HEIF while its name does not: [loadImage] converts it, and the picker
    previews it from its object URL as if the browser could show it. *)
Theorem picker_accepts_what_decoder_converts
  (createObjectURL : File -> string) (file : File) :
  (isHeic file = true -> App.isImage file = true) /\
  (App.isHeic file = true -> isHeic file = true) /\
  (type file = "image/heic" \/ type file = "image/heif" ->
   App.isHeic file = false ->
   isHeic file = true /\
   App.first_preview createObjectURL file = createObjectURL file).
Proof.
  unfold isHeic, App.isImage, App.first_preview, App.isHeic.
  unfold App.isHeic.
  set (a := endsWith (toLowerCase (name file)) ".heic").
  set (b := endsWith (toLowerCase (name file)) ".heif").
  split; [|split].
  - intro H. rewrite !orb_true_iff in H. rewrite !orb_true_iff.
    destruct H as [[[H|H]|H]|H].
    + apply String.eqb_eq in H. rewrite H. left. left. reflexivity.
    + apply String.eqb_eq in H. rewrite H. left. left. reflexivity.
    + left. right. exact H.
    + right. exact H.
  - intro H. rewrite orb_true_iff in H. rewrite !orb_true_iff. tauto.
  - intros Ht Hab. destruct a, b; try discriminate Hab.
    split; [|reflexivity].
    rewrite !orb_true_iff, !String.eqb_eq. tauto.
Qed.

Lemma picker_accepts_what_decoder_converts_witness :
  isHeic Example.photo = true /\ App.isImage Example.photo = true.
Proof.
  destruct (picker_accepts_what_decoder_converts (fun f => name f) Example.photo)
    as (_ & H & _).
  split; [apply H; reflexivity|reflexivity].
Defined.

(** ** The name of the download *)

Lemma all_extension_chars_dot (a b : string) :
  App.all_extension_chars (a ++ String "." b) = false.
Proof.
  induction a as [|c a IH]; cbn [append App.all_extension_chars].
  - reflexivity.
  - rewrite IH. apply andb_false_r.
Qed.

Lemma matches_extension_before_dot (c : ascii) (a b : string) :
  App.matches_extension (String c (a ++ String "." b)) = false.
Proof.
  unfold App.matches_extension.
  destruct (a ++ String "." b) eqn:E.
  - reflexivity.
  - rewrite <- E, all_extension_chars_dot. apply andb_false_r.
Qed.

(** the pattern cuts off the last dot and what follows it, when that is not
    empty and has no slash in it *)
Lemma replace_extension_cuts (base ext : string) :
  ext <> EmptyString -> App.all_extension_chars ext = true ->
  App.replace_extension (base ++ String "." ext) = base.
Proof.
  intros Hne Hall. induction base as [|c base IH].
  - cbn [append App.replace_extension].
    destruct ext as [|e ext]; [contradiction|].
    unfold App.matches_extension. rewrite Hall. reflexivity.
  - cbn [append App.replace_extension].
    rewrite matches_extension_before_dot, IH. reflexivity.
Qed.

Lemma matches_extension_needs_dot (s : string) :
  App.has_dot s = false -> App.matches_extension s = false.
Proof.
  destruct s as [|c [|d s]]; trivial.
  cbn [App.has_dot App.matches_extension].
  destruct (Ascii.eqb c "."); [discriminate|reflexivity].
Qed.

Lemma replace_extension_keeps (s : string) :
  App.has_dot s = false -> App.replace_extension s = s.
Proof.
  induction s as [|c s IH]; intro H; trivial.
  cbn [App.replace_extension].
  rewrite (matches_extension_needs_dot _ H).
  cbn [App.has_dot] in H. apply orb_false_iff in H. destruct H as [_ H].
  rewrite IH; trivial.
Qed.

(** X9. When the name of the selected file is a base, a dot and an
    extension (not empty, without dot or slash), the download is named
    [watermarked_], the base, a dot and the extension of the export format,
    with [jpg] for JPEG; only the last extension of the name is replaced. *)
Theorem download_filename_replaces_extension
  (file : File) (base ext : string) (exportFormat : ImageFormat) :
  name file = base ++ String "." ext ->
  ext <> EmptyString ->
  App.all_extension_chars ext = true ->
  App.download_filename (Some file) exportFormat
  = "watermarked_" ++ base ++ "." ++ App.extension exportFormat /\
  App.extension jpeg = "jpg".
Proof.
  intros Hname Hne Hall. split; [|reflexivity].
  unfold App.download_filename. rewrite Hname.
  cbv zeta.
  replace (match base ++ String "." ext with
           | EmptyString => "image"
           | String a s => String a s
           end) with (base ++ String "." ext)
    by (destruct base; reflexivity).
  rewrite replace_extension_cuts by trivial. reflexivity.
Qed.

Lemma download_filename_replaces_extension_witness :
  App.download_filename
    (Some {| name := "id.card.front.JPEG";
             file_blob := {| blob_type := "image/jpeg"; blob_bytes := [] |} |})
    jpeg
  = "watermarked_id.card.front.jpg".
Proof.
  destruct (download_filename_replaces_extension
              {| name := "id.card.front.JPEG";
                 file_blob := {| blob_type := "image/jpeg"; blob_bytes := [] |} |}
              "id.card.front" "JPEG" jpeg eq_refl) as [H _].
  - discriminate.
  - reflexivity.
  - exact H.
Defined.

(** X10. When the name of the selected file has no dot, the whole name is
    kept: the download is named [watermarked_], the name, a dot and the
    extension of the format.  When no file is selected, or its name is empty,
    the download is named [watermarked_image] with that extension. *)
Theorem download_filename_without_extension
  (file : File) (exportFormat : ImageFormat) :
  (name file <> EmptyString -> App.has_dot (name file) = false ->
   App.download_filename (Some file) exportFormat
   = "watermarked_" ++ name file ++ "." ++ App.extension exportFormat) /\
  (name file = EmptyString ->
   App.download_filename (Some file) exportFormat
   = "watermarked_image." ++ App.extension exportFormat) /\
  App.download_filename None exportFormat
  = "watermarked_image." ++ App.extension exportFormat.
Proof.
  unfold App.download_filename. split; [|split].
  - intros Hne Hdot. destruct (name file) as [|c n] eqn:E; [contradiction|].
    cbv zeta. rewrite replace_extension_keeps by exact Hdot. reflexivity.
  - intros ->. reflexivity.
  - reflexivity.
Qed.

Lemma download_filename_without_extension_witness :
  App.download_filename
    (Some {| name := "scan";
             file_blob := {| blob_type := "image/png"; blob_bytes := [] |} |})
    webp
  = "watermarked_scan.webp".
Proof.
  destruct (download_filename_without_extension
              {| name := "scan";
                 file_blob := {| blob_type := "image/png"; blob_bytes := [] |} |}
              webp) as (H & _).
  apply H; [discriminate|reflexivity].
Defined.

Local Close Scope string_scope.

(** ** The debounced preview *)

Lemma clearTimeout_single (id : nat) (snap : App.Snapshot) :
  App.clearTimeout id [(id, snap)] = [].
Proof. unfold App.clearTimeout. cbn. rewrite Nat.eqb_refl. reflexivity. Qed.

(** whatever was pending is cleared when the effect runs again *)
Lemma debounced_cleared (s : App.State) :
  App.debounced s ->
  match App.cleanup s with
  | Some id => App.clearTimeout id (App.timers s)
  | None => App.timers s
  end = [].
Proof.
  intros [H | (id & img & Ht & Hc & _)].
  - rewrite H. destruct (App.cleanup s); reflexivity.
  - rewrite Hc, Ht. apply clearTimeout_single.
Qed.

Lemma debounced_run_effect image options (s : App.State) :
  App.debounced s -> App.debounced (App.run_effect image options s).
Proof.
  intro H. unfold App.run_effect. rewrite (debounced_cleared s H).
  destruct image as [img|].
  - right. exists (App.next_timer s), img. repeat split.
  - left. reflexivity.
Qed.

Lemma debounced_timer_fires id (s : App.State) :
  App.debounced s -> App.debounced (App.timer_fires id s).
Proof.
  intro H. unfold App.timer_fires.
  destruct (App.pending id (App.timers s)) as [snap|] eqn:E; [|exact H].
  left. cbn [App.timers].
  destruct H as [H | (i & img & Ht & _)].
  - rewrite H in E. discriminate.
  - rewrite Ht in *. cbn [App.pending] in E.
    destruct (Nat.eqb i id) eqn:Ei; [|discriminate].
    apply Nat.eqb_eq in Ei. subst i. apply clearTimeout_single.
Qed.

Lemma debounced_step (s : App.State) (e : App.Event) :
  App.debounced s -> App.debounced (App.step s e).
Proof.
  destruct e; cbn [App.step].
  - apply debounced_run_effect.
  - apply debounced_run_effect.
  - apply debounced_timer_fires.
Qed.

Lemma debounced_run (es : list App.Event) : forall s,
  App.debounced s -> App.debounced (App.run s es).
Proof.
  induction es as [|e es IH]; intros s H; [exact H|].
  apply IH. apply debounced_step. exact H.
Qed.

(** X11. Whatever the changes of options and image and whenever the timers
    elapse, at most one preview timer is pending, and its callback renders
    the image and the options of the current state, never older ones; when
    the pending timer elapses, [generateWatermark] is called once with these
    and no timer is left pending; a timer that is not pending changes
    nothing. *)
Theorem preview_debounce_keeps_one_timer (es : list App.Event) :
  let s := App.run App.initial es in
  (List.length (App.timers s) <= 1)%nat /\
  (forall id snap,
     In (id, snap) (App.timers s) ->
     App.originalImage s = Some (App.snap_image snap) /\
     App.snap_options snap = App.watermarkOptions s) /\
  (forall id snap,
     In (id, snap) (App.timers s) ->
     let s' := App.step s (App.TimerFires id) in
     exists img,
       App.originalImage s = Some img /\
       App.generated s'
       = {| App.snap_image := img; App.snap_options := App.watermarkOptions s |}
           :: App.generated s /\
       App.timers s' = [] /\
       App.originalImage s' = App.originalImage s /\
       App.watermarkOptions s' = App.watermarkOptions s) /\
  (forall id,
     (forall snap, ~ In (id, snap) (App.timers s)) ->
     App.step s (App.TimerFires id) = s).
Proof.
  intro s.
  assert (H : App.debounced s).
  { apply debounced_run. left. reflexivity. }
  destruct H as [H | (i & img & Ht & Hc & Hi)].
  - rewrite H. split; [cbn; lia|]. split; [|split].
    + intros id snap [].
    + intros id snap [].
    + intros id _. cbn [App.step]. unfold App.timer_fires.
      rewrite H. reflexivity.
  - rewrite Ht. split; [cbn; lia|]. split; [|split].
    + intros id snap [Heq | []]. injection Heq as <- <-.
      split; [exact Hi|reflexivity].
    + intros id snap [Heq | []]. injection Heq as <- <-.
      cbn [App.step]. unfold App.timer_fires. rewrite Ht.
      cbn [App.pending]. rewrite Nat.eqb_refl.
      exists img. cbn [App.generated App.timers App.originalImage
                       App.watermarkOptions].
      split; [exact Hi|]. split; [reflexivity|].
      split; [apply clearTimeout_single|]. split; reflexivity.
    + intros id Hnot. cbn [App.step]. unfold App.timer_fires. rewrite Ht.
      cbn [App.pending]. destruct (Nat.eqb i id) eqn:E; [|reflexivity].
      apply Nat.eqb_eq in E. subst i.
      exfalso. apply (Hnot _ (or_introl eq_refl)).
Qed.

Lemma burst_pending (img : HTMLImageElement) (os : list WatermarkOptions) :
  forall (s : App.State) (o : WatermarkOptions),
    App.debounced s -> App.originalImage s = Some img ->
    let s' := App.run s (map App.SetWatermarkOptions (os ++ [o])) in
    exists id,
      App.timers s' = [(id, {| App.snap_image := img; App.snap_options := o |})] /\
      App.generated s' = App.generated s.
Proof.
  induction os as [|o1 os IH]; intros s o Hd Hi.
  - cbn [app map App.run fold_left App.step]. unfold App.run_effect.
    rewrite (debounced_cleared s Hd), Hi.
    exists (App.next_timer s). split; reflexivity.
  - cbv zeta.
    change (App.run s (map App.SetWatermarkOptions ((o1 :: os) ++ [o])))
      with (App.run (App.step s (App.SetWatermarkOptions o1))
              (map App.SetWatermarkOptions (os ++ [o]))).
    specialize (IH (App.step s (App.SetWatermarkOptions o1)) o).
    cbv zeta in IH.
    destruct IH as (id & Ht & Hg).
    + apply debounced_step. exact Hd.
    + cbn [App.step]. unfold App.run_effect. rewrite Hi. reflexivity.
    + exists id. split; [exact Ht|].
      rewrite Hg. cbn [App.step]. unfold App.run_effect. rewrite Hi. reflexivity.
Qed.

(** X12. With an image loaded, a burst of changes of the options, however
    long, with no timer elapsing in between, calls [generateWatermark] not
    once; it leaves one timer pending, and when that one elapses
    [generateWatermark] is called once, with the options of the last
    change. *)
Theorem preview_debounce_renders_last_change
  (es : list App.Event) (img : HTMLImageElement)
  (os : list WatermarkOptions) (o : WatermarkOptions) :
  let s := App.run App.initial es in
  App.originalImage s = Some img ->
  let s' := App.run s (map App.SetWatermarkOptions (os ++ [o])) in
  exists id,
    App.timers s' = [(id, {| App.snap_image := img; App.snap_options := o |})] /\
    App.generated s' = App.generated s /\
    App.generated (App.step s' (App.TimerFires id))
    = {| App.snap_image := img; App.snap_options := o |} :: App.generated s.
Proof.
  intros s Hi s'.
  destruct (burst_pending img os s o) as (id & Ht & Hg); trivial.
  { apply debounced_run. left. reflexivity. }
  fold s' in Ht, Hg.
  exists id. split; [exact Ht|]. split; [exact Hg|].
  cbn [App.step]. unfold App.timer_fires. rewrite Ht.
  cbn [App.pending]. rewrite Nat.eqb_refl. cbn [App.generated].
  rewrite Hg. reflexivity.
Qed.

Lemma preview_debounce_renders_last_change_witness :
  let img := Example.image 800 600 in
  let o1 := Example.with_text "DRAFT" App.default_options in
  let o2 := Example.with_text "COPY" App.default_options in
  let s := App.run App.initial
             [App.SetOriginalImage (Some img); App.TimerFires 0;
              App.SetWatermarkOptions o1; App.SetWatermarkOptions o2;
              App.TimerFires 2] in
  App.generated s
  = [{| App.snap_image := img; App.snap_options := o2 |};
     {| App.snap_image := img; App.snap_options := App.default_options |}].
Proof.
  intros img o1 o2 s.
  destruct (preview_debounce_renders_last_change
              [App.SetOriginalImage (Some img); App.TimerFires 0]
              img [o1] o2 eq_refl) as (id & Ht & _ & Hg).
  injection Ht as <-. exact Hg.
Defined.

Lemma preview_debounce_keeps_one_timer_witness :
  let img := Example.image 800 600 in
  let s := App.run App.initial
             [App.SetOriginalImage (Some img);
              App.SetWatermarkOptions Example.options0] in
  App.timers s
  = [(1%nat, {| App.snap_image := img; App.snap_options := Example.options0 |})] /\
  App.originalImage s = Some img /\
  App.watermarkOptions s = Example.options0.
Proof.
  intros img s.
  destruct (preview_debounce_keeps_one_timer
              [App.SetOriginalImage (Some img);
               App.SetWatermarkOptions Example.options0]) as (_ & H & _).
  split; [reflexivity|].
  destruct (H 1%nat {| App.snap_image := img; App.snap_options := Example.options0 |})
    as [Hi Ho].
  - left. reflexivity.
  - split; [exact Hi|symmetry; exact Ho].
Defined.

(** ** The image viewer *)

Lemma ofZ_sub (a b : Z) : ofZ a - ofZ b = ofZ (a - b).
Proof.
  unfold ofZ. cbn [nsub]. f_equal.
  rewrite <- (Qred_inject_Z (a - b)). apply Qred_complete.
  unfold Z.sub. rewrite inject_Z_plus, inject_Z_opp. reflexivity.
Qed.

Lemma nmin_Fin (a b : Q) :
  nmin (Fin a) (Fin b) = if Qle_bool a b then Fin a else Fin b.
Proof. reflexivity. Qed.

Lemma nmax_Fin (a b : Q) :
  nmax (Fin a) (Fin b) = if Qle_bool a b then Fin b else Fin a.
Proof. reflexivity. Qed.

Lemma Qle_bool_false (a b : Q) : Qle_bool a b = false -> (b < a)%Q.
Proof.
  intro H. apply Qnot_le_lt. intro Hle. apply Qle_bool_iff in Hle. congruence.
Qed.

(** [Math.max(MIN_SCALE, Math.min(newScale, MAX_SCALE))] of a finite number
    is within the bounds *)
Lemma clamp_within (a : num) :
  is_finite a ->
  within (1 # 10) 5 (nmax Viewer.MIN_SCALE (nmin a Viewer.MAX_SCALE)).
Proof.
  intros (q & ->). unfold Viewer.MIN_SCALE, Viewer.MAX_SCALE.
  rewrite nmin_Fin. destruct (Qle_bool q 5) eqn:E5; rewrite nmax_Fin.
  - apply Qle_bool_iff in E5.
    destruct (Qle_bool (1 # 10) q) eqn:E1.
    + apply Qle_bool_iff in E1. exists q. repeat split; trivial.
    + exists (1 # 10)%Q. repeat split; discriminate.
  - change (Qle_bool (1 # 10) 5) with true. cbn iota.
    exists 5%Q. repeat split; discriminate.
Qed.

Lemma zoomIn_within (a : num) :
  within (1 # 10) 5 a ->
  within (1 # 10) 5 (nmin (a + Viewer.ZOOM_STEP) Viewer.MAX_SCALE).
Proof.
  intros (q & -> & Hlo & Hhi). unfold Viewer.ZOOM_STEP, Viewer.MAX_SCALE.
  cbn [nadd]. rewrite nmin_Fin.
  destruct (Qle_bool (Qred (q + (1 # 5))) 5) eqn:E.
  - apply Qle_bool_iff in E. eexists. split; [reflexivity|].
    split; [|exact E]. rewrite Qred_correct. lra.
  - exists 5%Q. repeat split; discriminate.
Qed.

Lemma zoomOut_within (a : num) :
  within (1 # 10) 5 a ->
  within (1 # 10) 5 (nmax (a - Viewer.ZOOM_STEP) Viewer.MIN_SCALE).
Proof.
  intros (q & -> & Hlo & Hhi). unfold Viewer.ZOOM_STEP, Viewer.MIN_SCALE.
  cbn [nsub]. rewrite nmax_Fin.
  destruct (Qle_bool (Qred (q - (1 # 5))) (1 # 10)) eqn:E.
  - exists (1 # 10)%Q. repeat split; discriminate.
  - apply Qle_bool_false in E. eexists. split; [reflexivity|].
    split; [lra|]. rewrite Qred_correct. lra.
Qed.

Lemma positions_keep_zoom (ps : list Viewer.Point) : forall s,
  Viewer.scale (fold_left (fun s p => Viewer.setPosition p s) ps s) = Viewer.scale s /\
  Viewer.rotation (fold_left (fun s p => Viewer.setPosition p s) ps s) = Viewer.rotation s /\
  Viewer.lastTouchDistance (fold_left (fun s p => Viewer.setPosition p s) ps s)
  = Viewer.lastTouchDistance s.
Proof.
  induction ps as [|p ps IH]; intro s; [repeat split|].
  cbn [fold_left]. destruct (IH (Viewer.setPosition p s)) as (-> & -> & ->).
  repeat split.
Qed.

Section ViewerFacts.

Variable hypot : num -> num -> num.
Hypothesis hypot_finite :
  forall a b, is_finite a -> is_finite b -> is_finite (hypot a b).

Lemma touchDistance_finite (t1 t2 : Viewer.Touch) :
  Viewer.finite_touch t1 -> Viewer.finite_touch t2 ->
  is_finite (Viewer.touchDistance hypot t1 t2).
Proof.
  intros [(a1 & H1) (b1 & H2)] [(a2 & H3) (b2 & H4)].
  unfold Viewer.touchDistance. rewrite H1, H2, H3, H4.
  apply hypot_finite; eexists; reflexivity.
Qed.

Lemma zoom_ok_step (s : Viewer.State) (e : Viewer.Event) :
  Viewer.finite_event e -> Viewer.zoom_ok s ->
  Viewer.zoom_ok (Viewer.step hypot s e).
Proof.
  intros He [Hs Hd]. destruct e; cbn [Viewer.step]; try (split; assumption).
  - split; [|exact Hd]. apply zoomIn_within. exact Hs.
  - split; [|exact Hd]. apply zoomOut_within. exact Hs.
  - split; [|exact Hd]. exists 1%Q. repeat split; discriminate.
  - split; [|exact Hd]. exists 1%Q. repeat split; discriminate.
  - unfold Viewer.handleMouseDown.
    destruct (negb (button =? 0)%Z); split; assumption.
  - unfold Viewer.handleMouseMove.
    destruct (negb (Viewer.isDragging s)); split; assumption.
  - cbn in He. unfold Viewer.handleTouchStart.
    destruct touches as [|t1 [|t2 [|t3 rest]]]; try (split; assumption).
    split; [exact Hs|]. cbn. intros d Heq. injection Heq as <-.
    inversion He as [|? ? H1 He']. inversion He' as [|? ? H2 _].
    apply touchDistance_finite; trivial.
  - cbn in He. unfold Viewer.handleTouchMove.
    destruct touches as [|t1 [|t2 [|t3 rest]]]; try (split; assumption).
    + destruct (Viewer.isDragging s); split; assumption.
    + inversion He as [|? ? H1 He']. inversion He' as [|? ? H2 _].
      pose proof (touchDistance_finite t1 t2 H1 H2) as Hfin.
      split.
      * destruct (Viewer.lastTouchDistance s) as [last|] eqn:El; [|exact Hs].
        cbn. apply clamp_within.
        destruct Hs as (q & -> & _). destruct (Hd last eq_refl) as (lq & ->).
        destruct Hfin as (d & ->). eexists. reflexivity.
      * cbn. intros d Heq. injection Heq as <-. exact Hfin.
  - split; [exact Hs|]. cbn. discriminate.
  - unfold Viewer.handleWheel. destruct (Viewer.wheelTimerRef s);
      [split; assumption|].
    split; [|exact Hd].
    cbn [Viewer.scale Viewer.setWheelTimer Viewer.setScale].
    apply clamp_within.
    destruct Hs as (q & -> & _).
    destruct (nlt (Fin 0) deltaY); eexists; reflexivity.
  - unfold Viewer.animationFrame.
    destruct (positions_keep_zoom (Viewer.frames s) s) as (Es & _ & El).
    split; cbn; [rewrite Es; exact Hs|rewrite El; exact Hd].
Qed.

Lemma zoom_ok_run (es : list Viewer.Event) : forall s,
  Forall Viewer.finite_event es -> Viewer.zoom_ok s ->
  Viewer.zoom_ok (Viewer.run hypot s es).
Proof.
  induction es as [|e es IH]; intros s Hes Hs; [exact Hs|].
  inversion Hes as [|? ? He Hes']. subst.
  apply IH; trivial. apply zoom_ok_step; trivial.
Qed.

Lemma quarter_turns_step (s : Viewer.State) (e : Viewer.Event) :
  Viewer.quarter_turns s -> Viewer.quarter_turns (Viewer.step hypot s e).
Proof.
  intros (k & Hk). destruct e; cbn [Viewer.step]; try (exists k; exact Hk).
  - exists (k - 1)%Z.
    cbn [Viewer.rotateLeft Viewer.setRotation Viewer.rotation].
    rewrite Hk. change (Fin 90) with (ofZ 90). rewrite ofZ_sub.
    replace (90 * (k - 1))%Z with (90 * k - 90)%Z by lia. reflexivity.
  - exists (k + 1)%Z.
    cbn [Viewer.rotateRight Viewer.setRotation Viewer.rotation].
    rewrite Hk. change (Fin 90) with (ofZ 90). rewrite ofZ_add.
    replace (90 * (k + 1))%Z with (90 * k + 90)%Z by lia. reflexivity.
  - exists 0%Z. reflexivity.
  - unfold Viewer.handleMouseDown.
    destruct (negb (button =? 0)%Z); exists k; exact Hk.
  - unfold Viewer.handleMouseMove.
    destruct (negb (Viewer.isDragging s)); exists k; exact Hk.
  - unfold Viewer.handleTouchStart.
    destruct touches as [|t1 [|t2 [|t3 rest]]]; exists k; exact Hk.
  - unfold Viewer.handleTouchMove.
    destruct touches as [|t1 [|t2 [|t3 rest]]]; try (exists k; exact Hk).
    + destruct (Viewer.isDragging s); exists k; exact Hk.
    + destruct (Viewer.lastTouchDistance s); exists k; exact Hk.
  - unfold Viewer.handleWheel.
    destruct (Viewer.wheelTimerRef s); exists k; exact Hk.
  - unfold Viewer.animationFrame.
    destruct (positions_keep_zoom (Viewer.frames s) s) as (_ & Er & _).
    exists k. cbn. rewrite Er. exact Hk.
Qed.

End ViewerFacts.

(** X13. Whatever the user does in the viewer (buttons, mouse, wheel,
    touches with finite coordinates, in any order), the scale stays between
    [MIN_SCALE] = 0.1 and [MAX_SCALE] = 5, both included. *)
Theorem viewer_scale_stays_within_bounds
  (hypot : num -> num -> num) (es : list Viewer.Event) :
  (forall a b, is_finite a -> is_finite b -> is_finite (hypot a b)) ->
  Forall Viewer.finite_event es ->
  within (1 # 10) 5 (Viewer.scale (Viewer.run hypot Viewer.initial es)).
Proof.
  intros Hh Hes.
  apply (zoom_ok_run hypot Hh es Viewer.initial Hes).
  split.
  - exists 1%Q. repeat split; discriminate.
  - discriminate.
Qed.

Lemma example_hypot_finite (a b : num) :
  is_finite a -> is_finite b -> is_finite (Viewer.example_hypot a b).
Proof. intros (p & ->) (q & ->). eexists. reflexivity. Qed.

Lemma viewer_scale_stays_within_bounds_witness :
  let pinch_out :=
    [Viewer.TouchStart [{| Viewer.clientX := Fin 100; Viewer.clientY := Fin 100 |};
                        {| Viewer.clientX := Fin 200; Viewer.clientY := Fin 100 |}];
     Viewer.TouchMove [{| Viewer.clientX := Fin 0; Viewer.clientY := Fin 100 |};
                       {| Viewer.clientX := Fin 900; Viewer.clientY := Fin 100 |}];
     Viewer.TouchEnd; Viewer.ClickZoomIn] in
  within (1 # 10) 5
    (Viewer.scale (Viewer.run Viewer.example_hypot Viewer.initial pinch_out)).
Proof.
  intro pinch_out.
  apply (viewer_scale_stays_within_bounds Viewer.example_hypot pinch_out
           example_hypot_finite).
  repeat constructor; eexists; reflexivity.
Defined.

(** X14. Whatever the user does in the viewer, the rotation is a whole number
    of quarter turns: a multiple of 90 degrees. *)
Theorem viewer_rotation_is_quarter_turns
  (hypot : num -> num -> num) (es : list Viewer.Event) :
  exists k : Z,
    Viewer.rotation (Viewer.run hypot Viewer.initial es) = ofZ (90 * k).
Proof.
  assert (H : forall es s, Viewer.quarter_turns s ->
                           Viewer.quarter_turns (Viewer.run hypot s es)).
  { clear es. induction es as [|e es IH]; intros s Hs; [exact Hs|].
    apply IH. apply quarter_turns_step. exact Hs. }
  apply H. exists 0%Z. reflexivity.
Qed.

Lemma viewer_run_app (hypot : num -> num -> num) (s : Viewer.State)
  (es1 es2 : list Viewer.Event) :
  Viewer.run hypot s (es1 ++ es2) = Viewer.run hypot (Viewer.run hypot s es1) es2.
Proof. apply fold_left_app. Qed.

(** X15. The wheel is throttled: once a wheel event has been taken, with the
    scale moved by 0.05 (down when [deltaY] is positive, up otherwise) and
    clamped, the wheel events that follow change nothing until the throttle
    timer elapses. *)
Theorem viewer_wheel_is_throttled
  (hypot : num -> num -> num) (s : Viewer.State) (deltaY : num)
  (later : list num) :
  Viewer.wheelTimerRef s = false ->
  let s1 := Viewer.step hypot s (Viewer.Wheel deltaY) in
  Viewer.scale s1
  = nmax Viewer.MIN_SCALE
      (nmin (Viewer.scale s
             + (if nlt (Fin 0) deltaY
                then - Viewer.WHEEL_ZOOM_STEP else Viewer.WHEEL_ZOOM_STEP))
         Viewer.MAX_SCALE) /\
  Viewer.run hypot s1 (map Viewer.Wheel later) = s1 /\
  Viewer.wheelTimerRef (Viewer.step hypot s1 Viewer.WheelTimerFires) = false.
Proof.
  intros Ht s1.
  assert (H1 : Viewer.wheelTimerRef s1 = true).
  { unfold s1. cbn [Viewer.step]. unfold Viewer.handleWheel. rewrite Ht.
    reflexivity. }
  split; [|split].
  - unfold s1. cbn [Viewer.step]. unfold Viewer.handleWheel. rewrite Ht.
    reflexivity.
  - induction later as [|d later IH]; [reflexivity|].
    cbn [map Viewer.run fold_left Viewer.step].
    assert (E : Viewer.handleWheel d s1 = s1)
      by (unfold Viewer.handleWheel; rewrite H1; reflexivity).
    rewrite E. exact IH.
  - reflexivity.
Qed.

Lemma viewer_wheel_is_throttled_witness :
  let s1 := Viewer.step Viewer.example_hypot Viewer.initial (Viewer.Wheel (Fin 120)) in
  Viewer.scale s1 = Fin (19 # 20) /\
  Viewer.run Viewer.example_hypot s1
    (map Viewer.Wheel [Fin 120; Fin 120; Fin (-120)]) = s1.
Proof.
  intro s1.
  destruct (viewer_wheel_is_throttled Viewer.example_hypot Viewer.initial
              (Fin 120) [Fin 120; Fin 120; Fin (-120)] eq_refl) as (Hs & Hr & _).
  split; [exact Hs|exact Hr].
Defined.

Section Dragging.

Variable hypot : num -> num -> num.

(** the frame a move of the mouse queues while dragging *)
Let dragged (s : Viewer.State) (m : num * num) : Viewer.Point :=
  {| Viewer.x := fst m - Viewer.x (Viewer.dragStart s);
     Viewer.y := snd m - Viewer.y (Viewer.dragStart s) |}.

Let mouse_moves (ms : list (num * num)) : list Viewer.Event :=
  map (fun m => Viewer.MouseMove (fst m) (snd m)) ms.

Lemma moves_while_dragging (ms : list (num * num)) : forall s,
  Viewer.isDragging s = true ->
  let s' := Viewer.run hypot s (mouse_moves ms) in
  Viewer.isDragging s' = true /\
  Viewer.dragStart s' = Viewer.dragStart s /\
  Viewer.scale s' = Viewer.scale s /\
  Viewer.frames s' = Viewer.frames s ++ map (dragged s) ms.
Proof.
  induction ms as [|m ms IH]; intros s Hd.
  - cbn. rewrite app_nil_r. repeat split; trivial.
  - cbv zeta. cbn [mouse_moves map Viewer.run fold_left Viewer.step].
    unfold Viewer.handleMouseMove. rewrite Hd. cbn [negb].
    destruct (IH (Viewer.requestFrame
                    {| Viewer.x := fst m - Viewer.x (Viewer.dragStart s);
                       Viewer.y := snd m - Viewer.y (Viewer.dragStart s) |} s)
                Hd) as (H1 & H2 & H3 & H4).
    unfold mouse_moves, Viewer.run in *.
    rewrite H1, H2, H3, H4. repeat split.
    cbn [Viewer.frames Viewer.requestFrame map]. rewrite <- app_assoc.
    reflexivity.
Qed.

Lemma moves_without_press (ms : list (num * num)) (s : Viewer.State) :
  Viewer.isDragging s = false ->
  Viewer.run hypot s (mouse_moves ms) = s.
Proof.
  intro Hd. induction ms as [|m ms IH]; [reflexivity|].
  cbn [mouse_moves map Viewer.run fold_left Viewer.step].
  unfold Viewer.handleMouseMove. rewrite Hd. exact IH.
Qed.

Lemma last_position_wins (ps : list Viewer.Point) (p : Viewer.Point)
  (s : Viewer.State) :
  Viewer.position
    (fold_left (fun s p => Viewer.setPosition p s) (ps ++ [p]) s) = p.
Proof. rewrite fold_left_app. reflexivity. Qed.

End Dragging.

(** X16. Dragging moves the image with the pointer.  After the left button
    goes down at a point, the mouse moves any number of times and the next
    animation frame runs, the position is the last position of the pointer
    less the offset taken at the press, which is where the image was plus the
    displacement of the pointer from the press to its last position; the
    moves in between leave no trace, and the scale is unchanged.  Without a
    press, moves of the mouse change nothing. *)
Theorem viewer_drag_follows_pointer
  (hypot : num -> num -> num) (s : Viewer.State)
  (px py cX cY mX mY : Q) (between : list (num * num)) :
  Viewer.position s = {| Viewer.x := Fin px; Viewer.y := Fin py |} ->
  Viewer.frames s = [] ->
  let moves := map (fun m => Viewer.MouseMove (fst m) (snd m)) between in
  let s' :=
    Viewer.run hypot s
      (Viewer.MouseDown 0 (Fin cX) (Fin cY)
         :: moves ++ [Viewer.MouseMove (Fin mX) (Fin mY); Viewer.AnimationFrame]) in
  Viewer.position s'
  = {| Viewer.x := Fin mX - (Fin cX - Fin px);
       Viewer.y := Fin mY - (Fin cY - Fin py) |} /\
  Viewer.position s'
  = {| Viewer.x := Fin px + (Fin mX - Fin cX);
       Viewer.y := Fin py + (Fin mY - Fin cY) |} /\
  Viewer.frames s' = [] /\
  Viewer.scale s' = Viewer.scale s /\
  (Viewer.isDragging s = false -> Viewer.run hypot s moves = s).
Proof.
  intros Hp Hf moves s'.
  assert (Hlast : Viewer.isDragging s = false -> Viewer.run hypot s moves = s)
    by apply moves_without_press.
  unfold s'. cbn [Viewer.run fold_left].
  change (fold_left (Viewer.step hypot) ?l ?a) with (Viewer.run hypot a l).
  rewrite viewer_run_app.
  set (s1 := Viewer.step hypot s (Viewer.MouseDown 0 (Fin cX) (Fin cY))).
  destruct (moves_while_dragging hypot between s1 eq_refl)
    as (Hd & Hs & Hsc & _).
  fold moves in Hd, Hs, Hsc.
  set (s2 := Viewer.run hypot s1 moves) in *.
  cbn [Viewer.run fold_left Viewer.step].
  unfold Viewer.handleMouseMove. rewrite Hd. cbn [negb].
  set (p := {| Viewer.x := Fin mX - Viewer.x (Viewer.dragStart s2);
               Viewer.y := Fin mY - Viewer.y (Viewer.dragStart s2) |}).
  unfold Viewer.animationFrame.
  cbn [Viewer.position Viewer.frames Viewer.scale Viewer.requestFrame].
  assert (Hpos : Viewer.position
                   (fold_left (fun s p => Viewer.setPosition p s)
                      (Viewer.frames s2 ++ [p]) (Viewer.requestFrame p s2))
                 = {| Viewer.x := Fin mX - (Fin cX - Fin px);
                      Viewer.y := Fin mY - (Fin cY - Fin py) |}).
  { rewrite last_position_wins. unfold p. rewrite Hs.
    unfold s1. cbn [Viewer.step Viewer.handleMouseDown Z.eqb negb
                      Viewer.dragStart Viewer.setDragStart Viewer.x Viewer.y].
    rewrite Hp. reflexivity. }
  split; [exact Hpos|]. split; [|split; [|split]].
  - rewrite Hpos. cbn [nsub nadd].
    f_equal; f_equal; apply Qred_complete; rewrite !Qred_correct; ring.
  - reflexivity.
  - destruct (positions_keep_zoom (Viewer.frames s2 ++ [p])
                (Viewer.requestFrame p s2)) as (-> & _).
    cbn [Viewer.scale Viewer.requestFrame]. rewrite Hsc. reflexivity.
  - exact Hlast.
Qed.

Lemma viewer_drag_follows_pointer_witness :
  Viewer.position
    (Viewer.run Viewer.example_hypot Viewer.initial
       [Viewer.MouseDown 0 (Fin 300) (Fin 200);
        Viewer.MouseMove (Fin 310) (Fin 190);
        Viewer.MouseMove (Fin 340) (Fin 170);
        Viewer.AnimationFrame])
  = {| Viewer.x := Fin 40; Viewer.y := Fin (-30) |}.
Proof.
  destruct (viewer_drag_follows_pointer Viewer.example_hypot Viewer.initial
              0 0 300 200 340 170 [(Fin 310, Fin 190)] eq_refl eq_refl)
    as (_ & H & _).
  exact H.
Defined.

Lemma zoomIn_repeated (hypot : num -> num -> num) (n : nat) :
  forall (s : Viewer.State) (q : Q),
    Viewer.scale s = Fin q -> (q <= 5)%Q ->
    let s' := Viewer.run hypot s (repeat Viewer.ClickZoomIn n) in
    Viewer.scale s' = Viewer.MAX_SCALE \/
    exists q', Viewer.scale s' = Fin q' /\
               (q' == q + inject_Z (Z.of_nat n) * (1 # 5))%Q /\ (q' <= 5)%Q.
Proof.
  induction n as [|n IH]; intros s q Hs Hq.
  - right. exists q. split; [exact Hs|]. split; [|exact Hq].
    change (inject_Z (Z.of_nat 0)) with 0%Q. ring.
  - cbv zeta. cbn [repeat Viewer.run fold_left].
    change (fold_left (Viewer.step hypot) ?l ?a) with (Viewer.run hypot a l).
    set (s1 := Viewer.step hypot s Viewer.ClickZoomIn).
    assert (H1 : Viewer.scale s1 = nmin (Fin q + Viewer.ZOOM_STEP) Viewer.MAX_SCALE).
    { unfold s1. cbn [Viewer.step Viewer.zoomIn Viewer.setScale Viewer.scale].
      rewrite Hs. reflexivity. }
    unfold Viewer.ZOOM_STEP, Viewer.MAX_SCALE in H1. cbn [nadd] in H1.
    rewrite nmin_Fin in H1.
    destruct (Qle_bool (Qred (q + (1 # 5))) 5) eqn:E.
    + apply Qle_bool_iff in E.
      destruct (IH s1 _ H1 E) as [H | (q' & Hq' & Heq & Hle)]; [left; exact H|].
      right. exists q'. split; [exact Hq'|]. split; [|exact Hle].
      rewrite Heq, Qred_correct, Nat2Z.inj_succ. unfold Z.succ.
      rewrite inject_Z_plus. change (inject_Z 1) with 1%Q. ring.
    + left.
      destruct (IH s1 5%Q H1) as [H | (q' & Hq' & Heq & Hle)];
        [discriminate|exact H|].
      destruct n as [|n]; [exact H1|].
      exfalso. rewrite Heq in Hle.
      assert (0 < inject_Z (Z.of_nat (S n)))%Q.
      { change 0%Q with (inject_Z 0). rewrite <- Zlt_Qlt. lia. }
      lra.
Qed.

Lemma zoomOut_repeated (hypot : num -> num -> num) (n : nat) :
  forall (s : Viewer.State) (q : Q),
    Viewer.scale s = Fin q -> ((1 # 10) <= q)%Q ->
    let s' := Viewer.run hypot s (repeat Viewer.ClickZoomOut n) in
    Viewer.scale s' = Viewer.MIN_SCALE \/
    exists q', Viewer.scale s' = Fin q' /\
               (q' == q - inject_Z (Z.of_nat n) * (1 # 5))%Q /\ ((1 # 10) <= q')%Q.
Proof.
  induction n as [|n IH]; intros s q Hs Hq.
  - right. exists q. split; [exact Hs|]. split; [|exact Hq].
    change (inject_Z (Z.of_nat 0)) with 0%Q. ring.
  - cbv zeta. cbn [repeat Viewer.run fold_left].
    change (fold_left (Viewer.step hypot) ?l ?a) with (Viewer.run hypot a l).
    set (s1 := Viewer.step hypot s Viewer.ClickZoomOut).
    assert (H1 : Viewer.scale s1 = nmax (Fin q - Viewer.ZOOM_STEP) Viewer.MIN_SCALE).
    { unfold s1. cbn [Viewer.step Viewer.zoomOut Viewer.setScale Viewer.scale].
      rewrite Hs. reflexivity. }
    unfold Viewer.ZOOM_STEP, Viewer.MIN_SCALE in H1. cbn [nsub] in H1.
    rewrite nmax_Fin in H1.
    destruct (Qle_bool (Qred (q - (1 # 5))) (1 # 10)) eqn:E.
    + left.
      destruct (IH s1 (1 # 10)%Q H1) as [H | (q' & Hq' & Heq & Hle)];
        [discriminate|exact H|].
      destruct n as [|n]; [exact H1|].
      exfalso. rewrite Heq in Hle.
      assert (0 < inject_Z (Z.of_nat (S n)))%Q.
      { change 0%Q with (inject_Z 0). rewrite <- Zlt_Qlt. lia. }
      lra.
    + apply Qle_bool_false in E.
      destruct (IH s1 _ H1 (Qlt_le_weak _ _ E))
        as [H | (q' & Hq' & Heq & Hle)]; [left; exact H|].
      right. exists q'. split; [exact Hq'|]. split; [|exact Hle].
      rewrite Heq, Qred_correct, Nat2Z.inj_succ. unfold Z.succ.
      rewrite inject_Z_plus. change (inject_Z 1) with 1%Q. ring.
Qed.

(** X17. The zoom buttons saturate: from any scale within the bounds,
    twenty-five clicks or more on zoom-in leave the scale at exactly
    [MAX_SCALE], and as many on zoom-out leave it at exactly [MIN_SCALE]. *)
Theorem viewer_zoom_buttons_saturate
  (hypot : num -> num -> num) (s : Viewer.State) (n : nat) :
  within (1 # 10) 5 (Viewer.scale s) -> (25 <= n)%nat ->
  Viewer.scale (Viewer.run hypot s (repeat Viewer.ClickZoomIn n)) = Viewer.MAX_SCALE /\
  Viewer.scale (Viewer.run hypot s (repeat Viewer.ClickZoomOut n)) = Viewer.MIN_SCALE.
Proof.
  intros (q & Hs & Hlo & Hhi) Hn.
  assert (Hnq : (25 <= inject_Z (Z.of_nat n))%Q).
  { change 25%Q with (inject_Z 25). rewrite <- Zle_Qle. lia. }
  split.
  - destruct (zoomIn_repeated hypot n s q Hs Hhi) as [H | (q' & _ & Heq & Hle)];
      [exact H|].
    exfalso. rewrite Heq in Hle. lra.
  - destruct (zoomOut_repeated hypot n s q Hs Hlo) as [H | (q' & _ & Heq & Hle)];
      [exact H|].
    exfalso. rewrite Heq in Hle. lra.
Qed.

Lemma viewer_zoom_buttons_saturate_witness :
  Viewer.scale (Viewer.run Viewer.example_hypot Viewer.initial
                  (repeat Viewer.ClickZoomIn 25)) = Fin 5.
Proof.
  destruct (viewer_zoom_buttons_saturate Viewer.example_hypot Viewer.initial 25)
    as [H _].
  - exists 1%Q. repeat split; discriminate.
  - lia.
  - exact H.
Defined.

(** ** The compositor: what the pad of two cells covers *)

(** X18. In tile mode with a positive cell, whenever the offset in pixels is
    within one cell and a half either way along an axis (zero, in
    particular), the grid covers the canvas along that axis: the cell of
    index -1 begins at or before 0 and the cell of index cols-1 (rows-1)
    ends at or beyond the width (height). *)
Theorem grid_covers_canvas_for_small_offsets
  (B : Browser) (canvas : Canvas) (options : WatermarkOptions)
  (textWidth textHeight : num) (cw ch ox oy : Q) :
  let g := tile_geometry B canvas options textWidth textHeight in
  cellWidth g = Fin cw -> (0 < cw)%Q ->
  cellHeight g = Fin ch -> (0 < ch)%Q ->
  offsetXPixels g = Fin ox ->
  (- ((3 # 2) * cw) <= ox)%Q -> (ox <= (3 # 2) * cw)%Q ->
  offsetYPixels g = Fin oy ->
  (- ((3 # 2) * ch) <= oy)%Q -> (oy <= (3 # 2) * ch)%Q ->
  exists nc nr : Z,
    cols g = ofZ nc /\ rows g = ofZ nr /\
    nle (cell_start (startX g) (cellWidth g) (-1)) (Fin 0) = true /\
    nle (ofN (width canvas)) (cell_end (startX g) (cellWidth g) (nc - 1)) = true /\
    nle (cell_start (startY g) (cellHeight g) (-1)) (Fin 0) = true /\
    nle (ofN (height canvas)) (cell_end (startY g) (cellHeight g) (nr - 1)) = true.
Proof.
  intros g Hcw Hcwp Hch Hchp Hox Hxlo Hxhi Hoy Hylo Hyhi.
  destruct (small_offsets_are_covered B canvas options textWidth textHeight
              cw ox Hcw Hcwp Hox Hxlo Hxhi) as (nc & Hc & Hx1 & Hx2).
  fold g in Hc, Hx1, Hx2.
  assert (Hy : exists nr : Z,
             rows g = ofZ nr /\
             nle (cell_start (startY g) (cellHeight g) (-1)) (Fin 0) = true /\
             nle (ofN (height canvas)) (cell_end (startY g) (cellHeight g) (nr - 1))
             = true).
  { unfold g, tile_geometry in *.
    cbn [cellHeight offsetYPixels rows startY] in *.
    rewrite Hch, Hoy.
    apply axis_covered_up_to_three_half_cells; trivial. }
  destruct Hy as (nr & Hr & Hy1 & Hy2).
  exists nc, nr. repeat split; assumption.
Qed.

Lemma grid_covers_canvas_for_small_offsets_witness :
  let o := Example.with_text "HELLO" (Example.with_mode tile Example.options0) in
  let canvas := prepare Example.browser Example.empty_document (Example.image 1000 1000) o in
  let g := tile_geometry Example.browser canvas o (Fin 100) (Fin 40) in
  nle (cell_start (startX g) (cellWidth g) (-1)) (Fin 0) = true /\
  nle (Fin 1000) (cell_end (startX g) (cellWidth g) 11) = true.
Proof.
  intros o canvas g.
  pose proof (grid_covers_canvas_for_small_offsets Example.browser canvas o
                (Fin 100) (Fin 40) 100 40 0 0) as H.
  cbv zeta in H. fold g in H.
  assert (H1 : cellWidth g = Fin 100) by (vm_compute; reflexivity).
  assert (H2 : cellHeight g = Fin 40) by (vm_compute; reflexivity).
  assert (H3 : offsetXPixels g = Fin 0) by (vm_compute; reflexivity).
  assert (H4 : offsetYPixels g = Fin 0) by (vm_compute; reflexivity).
  specialize (H H1 eq_refl H2 eq_refl H3).
  assert (Q1 : (- ((3 # 2) * 100) <= 0)%Q) by (vm_compute; discriminate).
  assert (Q2 : (0 <= (3 # 2) * 100)%Q) by (vm_compute; discriminate).
  assert (Q3 : (- ((3 # 2) * 40) <= 0)%Q) by (vm_compute; discriminate).
  assert (Q4 : (0 <= (3 # 2) * 40)%Q) by (vm_compute; discriminate).
  specialize (H Q1 Q2 H4 Q3 Q4).
  destruct H as (nc & nr & Hc & _ & Hx1 & Hx2 & _).
  vm_compute in Hc. injection Hc as <-.
  split; [exact Hx1|exact Hx2].
Defined.

Local Open Scope string_scope.

(** ** Choosing a file *)

(** X19. When the file chosen is HEIC and its conversion is refused,
    the handler shows the conversion message, clears the selection and the
    preview URL, and keeps the image loaded before together with its
    watermarked preview: what can still be downloaded is the previous image,
    under the name [watermarked_image].  Whatever the outcome, the handler
    leaves the watermarked preview as it was, and it replaces the loaded image
    only when the load is fulfilled. *)
Theorem failed_conversion_keeps_previous_image
  (createObjectURL : File -> string)
  (heic2any : Blob -> string -> num -> Heic2anyResult Blob)
  (readAsDataURL : Blob -> option string)
  (decodeImage : string -> option HTMLImageElement)
  (file : File) (others : list File) (s : App.Upload.State) :
  let load f := outcome (loadImage heic2any readAsDataURL decodeImage f) in
  let s' := App.Upload.handleFileChange createObjectURL load (file :: others) s in
  (Spec.is_heic file ->
   heic2any (file_blob file) "image/jpeg" (Fin (19 # 20)) = ConversionFailed ->
   App.Upload.alerts s'
   = "HEIC 格式转换失败，请确保文件有效" :: App.Upload.alerts s /\
   App.Upload.selectedFile s' = None /\
   App.Upload.previewUrl s' = EmptyString /\
   App.Upload.originalImage s' = App.Upload.originalImage s /\
   forall exportFormat,
     App.download_filename (App.Upload.selectedFile s') exportFormat
     = "watermarked_image." ++ App.extension exportFormat) /\
  App.Upload.watermarkedUrl s' = App.Upload.watermarkedUrl s /\
  (App.Upload.originalImage s' <> App.Upload.originalImage s ->
   exists img,
     load file = Fulfilled img /\ App.Upload.originalImage s' = Some img /\
     App.Upload.selectedFile s' = Some file).
Proof.
  intros load s'. split; [|split].
  - intros Hh Hfail.
    assert (Himg : App.isImage file = true).
    { apply (picker_accepts_what_decoder_converts createObjectURL file).
      apply isHeic_spec. exact Hh. }
    destruct (loadImage_failed_conversion heic2any readAsDataURL decodeImage
                file Hh) as (Hload & _).
    specialize (Hload Hfail).
    unfold s', App.Upload.handleFileChange. rewrite Himg.
    unfold load. rewrite Hload. cbn [outcome].
    repeat split.
  - unfold s', App.Upload.handleFileChange.
    destruct (App.isImage file); [|reflexivity].
    destruct (load file); reflexivity.
  - unfold s', App.Upload.handleFileChange.
    destruct (App.isImage file); [|intro H; contradiction H; reflexivity].
    destruct (load file) as [img|reason] eqn:E.
    + intros _. exists img. repeat split.
    + intro H. contradiction H. reflexivity.
Qed.

Lemma failed_conversion_keeps_previous_image_witness :
  let before :=
    {| App.Upload.selectedFile := None;
       App.Upload.originalImage := Some (Example.image 800 600);
       App.Upload.previewUrl := "blob:previous";
       App.Upload.watermarkedUrl := "data:image/png;base64,";
       App.Upload.isProcessing := false;
       App.Upload.alerts := [] |} in
  let after :=
    App.Upload.handleFileChange (fun f => name f)
      (fun f => outcome (loadImage (fun _ _ _ => ConversionFailed)
                           Example.readAsDataURL Example.decodeImage f))
      [Example.photo] before in
  App.Upload.originalImage after = Some (Example.image 800 600) /\
  App.Upload.selectedFile after = None.
Proof.
  intros before after.
  destruct (failed_conversion_keeps_previous_image (fun f => name f)
              (fun _ _ _ => ConversionFailed) Example.readAsDataURL
              Example.decodeImage Example.photo [] before) as (H & _).
  destruct H as (_ & Hsel & _ & Himg & _).
  - right. right. left. exists "IMG_0001", ".HEIC". split; reflexivity.
  - reflexivity.
  - split; [exact Himg|exact Hsel].
Defined.

Local Close Scope string_scope.

(** ** The compositor: where the loop counters stop *)

(** X20. In tile mode, when the number of rows is above 2^53, or the number
    of columns is above 2^53 and there is a row to draw, the drawing never
    ends: the counter of the loop stops growing at 2^53, below its bound.
    The promise is then never settled, unless [drawImage] threw before the
    loops.  The number of columns need not be infinite for this: an empty
    text turned by 180 degrees has cells as wide as [40 * Math.sin(Math.PI)],
    which is not zero in binary64. *)
Theorem tile_mode_never_ends_beyond_counter
  (B : Browser) (document : Document) (image : HTMLImageElement)
  (options : WatermarkOptions) (exportOptions : option ExportOptions) :
  mode options = tile ->
  let ctx := prepare B document image options in
  let g := tile_geometry B ctx options (measureText B ctx (text options))
             (fontSize options) in
  nlt (ofZ (2 ^ 53)) (rows g) = true \/
  (nlt (ofZ (2 ^ 53)) (cols g) = true /\ nlt (ofZ (-1)) (rows g) = true) ->
  forall fuel,
    render_surface B fuel document image options = None /\
    (context2d B = true -> drawImage_throws B image = None ->
     addWatermark B fuel document image options exportOptions = None).
Proof.
  intros Hmode ctx g Hbig fuel.
  assert (Hr : render_surface B fuel document image options = None).
  { unfold render_surface. rewrite Hmode. fold ctx. fold g.
    destruct Hbig as [Hrows|[Hcols Hrows]].
    - apply draw_tiles_stalls_rows. exact Hrows.
    - apply draw_tiles_stalls; [exact Hcols|exact Hrows]. }
  split; [exact Hr|].
  intros Hctx Hdraw. apply addWatermark_pending; trivial.
Qed.

Lemma tile_mode_never_ends_beyond_counter_witness :
  let o := Example.with_rotation_spacing (Fin 180) (Fin 0)
             (Example.with_text EmptyString
                (Example.with_mode tile Example.options0)) in
  let ctx := prepare Example.browser64 Example.empty_document
               (Example.image 800 600) o in
  let g := tile_geometry Example.browser64 ctx o
             (measureText Example.browser64 ctx (text o)) (fontSize o) in
  is_finite (cols g) /\ rows g = Fin 17 /\
  forall fuel,
    addWatermark Example.browser64 fuel Example.empty_document
      (Example.image 800 600) o None = None.
Proof.
  intros o ctx g.
  split; [eexists; vm_compute; reflexivity|].
  split; [vm_compute; reflexivity|].
  intro fuel.
  pose proof (tile_mode_never_ends_beyond_counter Example.browser64
                Example.empty_document (Example.image 800 600) o None
                eq_refl) as H.
  cbv zeta in H.
  assert (Hbig :
    nlt (ofZ (2 ^ 53)) (rows g) = true \/
    (nlt (ofZ (2 ^ 53)) (cols g) = true /\ nlt (ofZ (-1)) (rows g) = true)).
  { right. split; vm_compute; reflexivity. }
  destruct (H Hbig fuel) as [_ Hp].
  apply Hp; reflexivity.
Defined.
